(** * go-tables: display-width measurement and table layout

    A shallow embedding of the Go package [tables] (width.go,
    table_styles.go, table.go) and of the parts of unicode/utf8 and
    bytes.Buffer it calls, followed by the properties of its width
    classifier, column layout, cell formatter and the two render entry
    points.

    Conventions of the embedding:
    - a Go [byte] is a [Z] in [0, 255], a [[]byte] is a [list Z];
    - a Go [rune] (int32) and a Go [int] are [Z]; under the default width
      function the widths handled here are bounded by twice the length of
      a cell, far from any wrap-around, and a statement about other width
      functions carries the bounds within which the arithmetic of the
      code stays in the range of [int];
    - a loop over a slice is a structural recursion over the list, a loop
      that consumes a buffer is a recursion on fuel bounded by its length;
    - a method with a pointer receiver returns the updated table;
    - a run-time panic is the result [None]. *)

From Stdlib Require Import ZArith Lia Bool List String Ascii.
From Stdlib Require Import DecimalString Sorted.
From stdpp Require Import base list.
Import ListNotations.

Local Open Scope Z_scope.

(** ** Package unicode/utf8 of the Go standard library *)

Module utf8.

Definition RuneError : Z := 0xFFFD.
Definition RuneSelf : Z := 0x80.
Definition MaxRune : Z := 0x10FFFF.
Definition UTFMax : nat := 4.

Definition surrogateMin : Z := 0xD800.
Definition surrogateMax : Z := 0xDFFF.

Definition maskx : Z := 0x3F.
Definition mask2 : Z := 0x1F.
Definition mask3 : Z := 0x0F.
Definition mask4 : Z := 0x07.

Definition locb : Z := 0x80.
Definition hicb : Z := 0xBF.

(* Information about the first byte of an encoding: the low three bits
   give the size, the high four bits index [acceptRanges]. *)
Definition xx : Z := 0xF1.
Definition as_ : Z := 0xF0.
Definition s1 : Z := 0x02.
Definition s2 : Z := 0x13.
Definition s3 : Z := 0x03.
Definition s4 : Z := 0x23.
Definition s5 : Z := 0x34.
Definition s6 : Z := 0x04.
Definition s7 : Z := 0x44.

(* The 256-entry table [first], written by the intervals of its rows. *)
Definition first (p0 : Z) : Z :=
  if p0 <? 0x80 then as_
  else if p0 <? 0xC2 then xx
  else if p0 <? 0xE0 then s1
  else if p0 =? 0xE0 then s2
  else if p0 <? 0xED then s3
  else if p0 =? 0xED then s4
  else if p0 <? 0xF0 then s3
  else if p0 =? 0xF0 then s5
  else if p0 <? 0xF4 then s6
  else if p0 =? 0xF4 then s7
  else xx.

Record acceptRange := { lo : Z; hi : Z }.

Definition acceptRanges (i : Z) : acceptRange :=
  if i =? 0 then {| lo := locb; hi := hicb |}
  else if i =? 1 then {| lo := 0xA0; hi := hicb |}
  else if i =? 2 then {| lo := locb; hi := 0x9F |}
  else if i =? 3 then {| lo := 0x90; hi := hicb |}
  else if i =? 4 then {| lo := locb; hi := 0x8F |}
  else {| lo := 0; hi := 0 |}.

Definition at_ (p : list Z) (i : nat) : Z := nth i p 0.

(* func DecodeRune(p []byte) (r rune, size int) *)
Definition DecodeRune (p : list Z) : Z * nat :=
  let n := length p in
  if (n <? 1)%nat then (RuneError, 0%nat)
  else
    let p0 := at_ p 0 in
    let x := first p0 in
    if x >=? as_ then
      ((if Z.testbit x 0 then RuneError else p0), 1%nat)
    else
      let sz := Z.to_nat (Z.land x 7) in
      let accept := acceptRanges (Z.shiftr x 4) in
      if (n <? sz)%nat then (RuneError, 1%nat)
      else
        let b1 := at_ p 1 in
        if (b1 <? lo accept) || (hi accept <? b1) then (RuneError, 1%nat)
        else if (sz <=? 2)%nat then
          (Z.lor (Z.shiftl (Z.land p0 mask2) 6) (Z.land b1 maskx), 2%nat)
        else
          let b2 := at_ p 2 in
          if (b2 <? locb) || (hicb <? b2) then (RuneError, 1%nat)
          else if (sz <=? 3)%nat then
            (Z.lor (Z.lor (Z.shiftl (Z.land p0 mask3) 12)
                          (Z.shiftl (Z.land b1 maskx) 6))
                   (Z.land b2 maskx), 3%nat)
          else
            let b3 := at_ p 3 in
            if (b3 <? locb) || (hicb <? b3) then (RuneError, 1%nat)
            else
              (Z.lor (Z.lor (Z.lor (Z.shiftl (Z.land p0 mask4) 18)
                                   (Z.shiftl (Z.land b1 maskx) 12))
                            (Z.shiftl (Z.land b2 maskx) 6))
                     (Z.land b3 maskx), 4%nat).

(* func AppendRune(p []byte, r rune) []byte, returning the bytes appended;
   runes out of range and surrogates are encoded as RuneError. *)
Definition encode (r : Z) : list Z :=
  if (0 <=? r) && (r <=? 0x7F) then [r]
  else if (0 <=? r) && (r <=? 0x7FF) then
    [Z.lor 0xC0 (Z.shiftr r 6); Z.lor 0x80 (Z.land r maskx)]
  else if (r <? 0) || (MaxRune <? r)
          || ((surrogateMin <=? r) && (r <=? surrogateMax)) then
    [0xEF; 0xBF; 0xBD]
  else if r <=? 0xFFFF then
    [Z.lor 0xE0 (Z.shiftr r 12);
     Z.lor 0x80 (Z.land (Z.shiftr r 6) maskx);
     Z.lor 0x80 (Z.land r maskx)]
  else
    [Z.lor 0xF0 (Z.shiftr r 18);
     Z.lor 0x80 (Z.land (Z.shiftr r 12) maskx);
     Z.lor 0x80 (Z.land (Z.shiftr r 6) maskx);
     Z.lor 0x80 (Z.land r maskx)].

End utf8.

(** ** width.go *)

(* unicodeRange represents a range of Unicode code points with their
   display width *)
Record unicodeRange := mkRange { start : Z; end_ : Z; width : Z }.

Definition wideRanges : list unicodeRange :=
  [ mkRange 0x4E00 0x9FFF 2;   (* CJK Unified Ideographs *)
    mkRange 0x3400 0x4DBF 2;   (* CJK Extension A *)
    mkRange 0x20000 0x2A6DF 2; (* CJK Extension B *)
    mkRange 0x2A700 0x2B73F 2; (* CJK Extension C *)
    mkRange 0x2B740 0x2B81F 2; (* CJK Extension D *)
    mkRange 0x2B820 0x2CEAF 2; (* CJK Extension E *)
    mkRange 0x2CEB0 0x2EBEF 2; (* CJK Extension F *)
    mkRange 0xAC00 0xD7AF 2;   (* Hangul Syllables *)
    mkRange 0x1100 0x115F 2;   (* Hangul Jamo *)
    mkRange 0x1160 0x11FF 2;   (* Hangul Jamo Extended-A *)
    mkRange 0xA960 0xA97F 2;   (* Hangul Jamo Extended-B *)
    mkRange 0x3040 0x309F 2;   (* Hiragana *)
    mkRange 0x30A0 0x30FF 2;   (* Katakana *)
    mkRange 0x31F0 0x31FF 2;   (* Katakana Phonetic Extensions *)
    mkRange 0x3000 0x303F 2;   (* CJK Symbols and Punctuation *)
    mkRange 0x2E80 0x2EFF 2;   (* CJK Radicals Supplement *)
    mkRange 0x2F00 0x2FDF 2;   (* Kangxi Radicals *)
    mkRange 0x2FF0 0x2FFF 2;   (* Ideographic Description Characters *)
    mkRange 0xFF01 0xFF60 2;   (* Fullwidth ASCII variants *)
    mkRange 0xFFE0 0xFFE6 2;   (* Fullwidth symbol variants *)
    mkRange 0x1F300 0x1F5FF 2; (* Miscellaneous Symbols and Pictographs *)
    mkRange 0x1F600 0x1F64F 2; (* Emoticons *)
    mkRange 0x1F680 0x1F6FF 2; (* Transport and Map Symbols *)
    mkRange 0x1F700 0x1F77F 2; (* Alchemical Symbols *)
    mkRange 0x1F780 0x1F7FF 2; (* Geometric Shapes Extended *)
    mkRange 0x1F800 0x1F8FF 2; (* Supplemental Arrows-C *)
    mkRange 0x1F900 0x1F9FF 2; (* Supplemental Symbols and Pictographs *)
    mkRange 0x1FA00 0x1FA6F 2; (* Chess Symbols *)
    mkRange 0x1FA70 0x1FAFF 2; (* Symbols and Pictographs Extended-A *)
    mkRange 0x2460 0x24FF 2;   (* Enclosed Alphanumerics *)
    mkRange 0x25A0 0x25FF 2;   (* Geometric Shapes *)
    mkRange 0x2600 0x26FF 2;   (* Miscellaneous Symbols *)
    mkRange 0x2700 0x27BF 2    (* Dingbats *) ].

Definition zeroWidthRanges : list unicodeRange :=
  [ mkRange 0x0300 0x036F 0; (* Combining Diacritical Marks *)
    mkRange 0x1AB0 0x1AFF 0; (* Combining Diacritical Marks Extended *)
    mkRange 0x1DC0 0x1DFF 0; (* Combining Diacritical Marks Supplement *)
    mkRange 0x20D0 0x20FF 0; (* Combining Diacritical Marks for Symbols *)
    mkRange 0xFE20 0xFE2F 0; (* Combining Half Marks *)
    mkRange 0x200B 0x200F 0; (* Zero Width Space, ZWNJ, ZWJ, etc. *)
    mkRange 0x2028 0x2029 0; (* Line/Paragraph Separators *)
    mkRange 0x202A 0x202E 0; (* Bidirectional format characters *)
    mkRange 0x2060 0x2064 0  (* Word Joiner, etc. *) ].

(* The test [r >= rang.start && r <= rang.end] of both loops of RuneWidth. *)
Definition inRange (r : Z) (rang : unicodeRange) : bool :=
  (r >=? start rang) && (r <=? end_ rang).

(* RuneWidth returns the display width of a single rune *)
Definition RuneWidth (r : Z) : Z :=
  if r <? 0x80 then
    if r >=? 0x20 then 1 else 0
  else
    match find (inRange r) zeroWidthRanges with
    | Some _ => 0
    | None =>
        match find (inRange r) wideRanges with
        | Some rang => width rang
        | None => 1
        end
    end.

(* WidthFunc is a pluggable function type for calculating character widths *)
Definition WidthFunc := Z -> Z.

(* DefaultWidthFunc is the default width calculation function *)
Definition DefaultWidthFunc : WidthFunc := RuneWidth.

(* The loop of StringWidthBytesCustom: [for len(b) > 0 { ... }] with the
   running total [width]; every turn consumes at least one byte, so
   [length b] turns of fuel exhaust the buffer. *)
Fixpoint stringWidthLoop (fuel : nat) (widthFunc : WidthFunc)
    (b : list Z) (width : Z) : Z :=
  match fuel with
  | O => width
  | S fuel' =>
      if (0 <? length b)%nat then
        let '(r, size) := utf8.DecodeRune b in
        if r =? utf8.RuneError then
          stringWidthLoop fuel' widthFunc (drop 1 b) (width + 1)
        else
          stringWidthLoop fuel' widthFunc (drop size b) (width + widthFunc r)
      else width
  end.

(* StringWidthBytesCustom calculates byte slice width using custom width
   function *)
Definition StringWidthBytesCustom (b : list Z) (widthFunc : WidthFunc) : Z :=
  stringWidthLoop (length b) widthFunc b 0.

(* StringWidthBytes calculates display width from byte slice *)
Definition StringWidthBytes (b : list Z) : Z :=
  stringWidthLoop (length b) RuneWidth b 0.

(* The state of the loop of TruncateToWidthBytes: the unread rest of [b],
   the width consumed so far and the bytes copied to [result]. *)
Record truncState := mkTrunc { rest : list Z; used : Z; result : list Z }.

Fixpoint truncateLoop (fuel : nat) (maxWidth : Z) (st : truncState)
    : truncState :=
  match fuel with
  | O => st
  | S fuel' =>
      let b := rest st in
      if (0 <? length b)%nat then
        let '(r, size) := utf8.DecodeRune b in
        let runeWidth := RuneWidth r in
        if used st + runeWidth >? maxWidth then st (* break *)
        else
          truncateLoop fuel' maxWidth
            (mkTrunc (drop size b) (used st + runeWidth)
                     (result st ++ take size b))
      else st
  end.

Definition ellipsis : list Z := [46; 46; 46].

(* TruncateToWidthBytes truncates byte slice to fit within display width *)
Definition TruncateToWidthBytes (b : list Z) (maxWidth : Z) : list Z :=
  if maxWidth <=? 0 then []
  else
    let st := truncateLoop (length b) maxWidth (mkTrunc b 0 []) in
    (* Add ellipsis if truncated and there's room *)
    if (0 <? length (rest st))%nat && (used st <=? maxWidth - 3) then
      result st ++ ellipsis
    else result st.

(** ** ansi.go

    The scanner of escape sequences is not among the available sources; its
    three entry points used by table.go are modelled from the
    specification of the escape-sequence scanner and width accumulator. *)

Definition ESC : Z := 0x1B.

Definition isParamByte (c : Z) : bool := (0x20 <=? c) && (c <=? 0x3F).
Definition isFinalByte (c : Z) : bool := (0x40 <=? c) && (c <=? 0x7E).

(** Modelled from the spec: the body of a CSI sequence after [ESC '[']
    (ansi.go is missing).  Parameter and intermediate bytes (0x20-0x3F)
    are skipped up to and including a final byte (0x40-0x7E); an
    unterminated or malformed body consumes the remaining buffer.  The
    result is the unread rest of the buffer. *)
Fixpoint skipCSIBody (b : list Z) : list Z :=
  match b with
  | [] => []
  | c :: b' =>
      if isFinalByte c then b'
      else if isParamByte c then skipCSIBody b'
      else []
  end.

(** Modelled from the spec: the escape-sequence scanner (ansi.go is
    missing).  A sequence starts at the head of [b] when [b] begins with
    ESC followed by '['; the result is then the buffer after the sequence.
    Anything else is not a sequence. *)
Definition skipANSI (b : list Z) : option (list Z) :=
  match b with
  | c0 :: c1 :: b' =>
      if (c0 =? ESC) && (c1 =? 0x5B) then Some (skipCSIBody b') else None
  | _ => None
  end.

(** Modelled from the spec: the loop of the width accumulator (ansi.go is
    missing).  At each position an escape sequence is skipped with no
    width; otherwise one code point is decoded and contributes
    [widthFunc], an invalid encoding unit counting 1 and advancing by one
    byte. *)
Fixpoint measureLoop (fuel : nat) (widthFunc : WidthFunc)
    (b : list Z) (width : Z) : Z :=
  match fuel with
  | O => width
  | S fuel' =>
      if (0 <? length b)%nat then
        match skipANSI b with
        | Some b' => measureLoop fuel' widthFunc b' width
        | None =>
            let '(r, size) := utf8.DecodeRune b in
            if (r =? utf8.RuneError) && (size =? 1)%nat then
              measureLoop fuel' widthFunc (drop 1 b) (width + 1)
            else
              measureLoop fuel' widthFunc (drop size b) (width + widthFunc r)
        end
      else width
  end.

(** Modelled from the spec: MeasureWidthIgnoreANSIBytesCustom, the width
    accumulator [measure(buffer, width_fn)] (ansi.go is missing). *)
Definition MeasureWidthIgnoreANSIBytesCustom (b : list Z)
    (widthFunc : WidthFunc) : Z :=
  measureLoop (length b) widthFunc b 0.

(** Modelled from the spec: HasANSIBytes, whether the cell contains an
    escape sequence (ansi.go is missing). *)
Fixpoint HasANSIBytes (b : list Z) : bool :=
  match b with
  | [] => false
  | _ :: b' =>
      match skipANSI b with
      | Some _ => true
      | None => HasANSIBytes b'
      end
  end.

(** Modelled from the spec: the loop of StripANSIBytes (ansi.go is
    missing): sequences are dropped, every other byte is kept. *)
Fixpoint stripLoop (fuel : nat) (b : list Z) (out : list Z) : list Z :=
  match fuel with
  | O => out
  | S fuel' =>
      match b with
      | [] => out
      | c :: b' =>
          match skipANSI b with
          | Some b'' => stripLoop fuel' b'' out
          | None => stripLoop fuel' b' (out ++ [c])
          end
      end
  end.

(** Modelled from the spec: StripANSIBytes, the sequence-stripped content
    of a cell (ansi.go is missing). *)
Definition StripANSIBytes (b : list Z) : list Z :=
  stripLoop (length b) b [].

(** ** table_styles.go *)

(* Style represents border characters for table rendering *)
Record Style := mkStyle {
  TopLeft : Z;
  TopRight : Z;
  BottomLeft : Z;
  BottomRight : Z;
  Horizontal : Z;
  Vertical : Z;
  Cross : Z;
  TopTee : Z;
  BottomTee : Z;
  LeftTee : Z;
  RightTee : Z
}.

(* Pattern: U+250C U+2500 U+252C U+2510 U+2502 U+251C U+253C U+2524
   U+2514 U+2534 U+2518 *)
Definition StyleSingle : Style :=
  {| TopLeft := 0x250C; TopRight := 0x2510;
     BottomLeft := 0x2514; BottomRight := 0x2518;
     Horizontal := 0x2500; Vertical := 0x2502; Cross := 0x253C;
     TopTee := 0x252C; BottomTee := 0x2534;
     LeftTee := 0x251C; RightTee := 0x2524 |}.

Definition StyleDouble : Style :=
  {| TopLeft := 0x2554; TopRight := 0x2557;
     BottomLeft := 0x255A; BottomRight := 0x255D;
     Horizontal := 0x2550; Vertical := 0x2551; Cross := 0x256C;
     TopTee := 0x2566; BottomTee := 0x2569;
     LeftTee := 0x2560; RightTee := 0x2563 |}.

Definition StyleRounded : Style :=
  {| TopLeft := 0x256D; TopRight := 0x256E;
     BottomLeft := 0x2570; BottomRight := 0x256F;
     Horizontal := 0x2500; Vertical := 0x2502; Cross := 0x253C;
     TopTee := 0x252C; BottomTee := 0x2534;
     LeftTee := 0x251C; RightTee := 0x2524 |}.

Definition StyleASCII : Style :=
  {| TopLeft := 0x2B; TopRight := 0x2B;
     BottomLeft := 0x2B; BottomRight := 0x2B;
     Horizontal := 0x2D; Vertical := 0x7C; Cross := 0x2B;
     TopTee := 0x2B; BottomTee := 0x2B;
     LeftTee := 0x2B; RightTee := 0x2B |}.

Definition StyleNone : Style :=
  {| TopLeft := 0x20; TopRight := 0x20;
     BottomLeft := 0x20; BottomRight := 0x20;
     Horizontal := 0x20; Vertical := 0x20; Cross := 0x20;
     TopTee := 0x20; BottomTee := 0x20;
     LeftTee := 0x20; RightTee := 0x20 |}.

(* The conversion byte(r) of a rune. *)
Definition byte_of_rune (r : Z) : Z := r mod 256.

Definition appendRune (b : list Z) (r : Z) : list Z :=
  if r <? 0x80 then b ++ [byte_of_rune r]
  else b ++ utf8.encode r.

(* The inner loop [for j := 0; j < width+2; j++] of renderBorderLine. *)
Fixpoint appendFill (n : nat) (b : list Z) (fillChar : Z) : list Z :=
  match n with
  | O => b
  | S n' => appendFill n' (appendRune b fillChar) fillChar
  end.

(* The loop [for i, width := range widths] of renderBorderLine, from
   index [i] on; [len] is [len(widths)]. *)
Fixpoint borderLoop (len : Z) (i : Z) (widths : list Z) (sepChar fillChar : Z)
    (b : list Z) : list Z :=
  match widths with
  | [] => b
  | width :: widths' =>
      let b1 := appendFill (Z.to_nat (width + 2)) b fillChar in
      let b2 := if i <? len - 1 then appendRune b1 sepChar else b1 in
      borderLoop len (i + 1) widths' sepChar fillChar b2
  end.

(* The loop [for i, width := range widths] that computes the capacity of
   the line, from index [i] on. *)
Fixpoint totalLengthLoop (len : Z) (i : Z) (widths : list Z) (totalLength : Z)
    : Z :=
  match widths with
  | [] => totalLength
  | width :: widths' =>
      let totalLength := totalLength + (width + 2) in
      let totalLength :=
        if i <? len - 1 then totalLength + 1 else totalLength in
      totalLengthLoop len (i + 1) widths' totalLength
  end.

(* The capacity renderBorderLine reserves for its result: the start
   character, [width + 2] fill characters per column, a separator between
   two columns, the end character and the newline. *)
Definition totalLength (widths : list Z) : Z :=
  totalLengthLoop (Z.of_nat (length widths)) 0 widths 1 + 1 + 1.

(* render a complete border line using the style; [None] is the panic of
   [make([]byte, 0, totalLength)] on a negative capacity *)
Definition renderBorderLine (s : Style) (widths : list Z) (lineType : string)
    : option (list Z) :=
  if (length widths =? 0)%nat then Some []
  else
    (* Calculation of total length needed *)
    let totalLength := totalLength widths in
    if totalLength <? 0 then None
    else
      let '(startChar, endChar, sepChar, fillChar) :=
        if String.eqb lineType "top" then
          (TopLeft s, TopRight s, TopTee s, Horizontal s)
        else if String.eqb lineType "middle" || String.eqb lineType "header"
        then (LeftTee s, RightTee s, Cross s, Horizontal s)
        else if String.eqb lineType "bottom" then
          (BottomLeft s, BottomRight s, BottomTee s, Horizontal s)
        else
          (LeftTee s, RightTee s, Cross s, Horizontal s) in
      let b := appendRune [] startChar in
      let b :=
        borderLoop (Z.of_nat (length widths)) 0 widths sepChar fillChar b in
      let b := appendRune b endChar in
      Some (b ++ [10]).

(** ** table.go *)

(* Alignment constants *)
Inductive Align := AlignLeft | AlignCenter | AlignRight.

(* Table represents a table with headers and rows stored as bytes; the
   buffer pool is shared by all tables and is threaded through the two
   render entry points. *)
Record Table := mkTable {
  headers : list (list Z);
  rows : list (list (list Z));
  style : Style;
  aligns : list Align;
  maxWidths : list Z;
  widthFunc : WidthFunc
}.

(* New creates a new table with the given headers *)
Definition New (hs : list (list Z)) : Table :=
  {| headers := hs;
     rows := [];
     style := StyleSingle;
     aligns := replicate (length hs) AlignLeft;
     maxWidths := replicate (length hs) 0;
     widthFunc := DefaultWidthFunc |}.

(* The conversion []byte(s) of a string. *)
Definition bytesOf (s : string) : list Z :=
  map (fun c => Z.of_N (N_of_ascii c)) (list_ascii_of_string s).

(* NewFromStrings creates a new table from string headers *)
Definition NewFromStrings (hs : list string) : Table :=
  New (map bytesOf hs).

(* The dynamic types told apart by the type switch of AddRow.  A float64
   and a value of any other type are carried with the text
   strconv.AppendFloat(nil, v, 'f', -1, 64) and fmt.Sprintf("%v", v) give
   for them. *)
Inductive Value :=
| VBytes (v : list Z)
| VString (v : string)
| VInt (v : Z)
| VInt64 (v : Z)
| VFloat64 (text : list Z)
| VBool (v : bool)
| VOther (text : list Z).

(* strconv.AppendInt(nil, v, 10) *)
Definition AppendInt (v : Z) : list Z :=
  bytesOf (NilZero.string_of_int (Z.to_int v)).

(* strconv.AppendBool(nil, v) *)
Definition AppendBool (v : bool) : list Z :=
  bytesOf (if v then "true" else "false").

Definition cellOfValue (val : Value) : list Z :=
  match val with
  | VBytes v => v
  | VString v => bytesOf v
  | VInt v => AppendInt v
  | VInt64 v => AppendInt v
  | VFloat64 text => text
  | VBool v => AppendBool v
  | VOther text => text
  end.

(* The loop [for i, val := range values] shared by AddRow and AddRowBytes:
   it stops at the header count. *)
Fixpoint fillRow {A} (conv : A -> list Z) (nHeaders : nat) (i : nat)
    (values : list A) (row : list (list Z)) : list (list Z) :=
  match values with
  | [] => row
  | val :: values' =>
      if (nHeaders <=? i)%nat then row (* break *)
      else fillRow conv nHeaders (S i) values' (<[i := conv val]> row)
  end.

(* The loop [for i := len(values); i < len(t.headers); i++]. *)
Definition padRow (nValues nHeaders : nat) (row : list (list Z))
    : list (list Z) :=
  foldl (fun row i => <[i := []]> row) row (seq nValues (nHeaders - nValues)).

Definition addRowWith {A} (conv : A -> list Z) (t : Table) (values : list A)
    : Table :=
  if (length values =? 0)%nat then t
  else
    let n := length (headers t) in
    let row := replicate n [] in
    let row := fillRow conv n 0 values row in
    let row := padRow (length values) n row in
    {| headers := headers t;
       rows := rows t ++ [row];
       style := style t;
       aligns := aligns t;
       maxWidths := maxWidths t;
       widthFunc := widthFunc t |}.

(* AddRow adds a row to the table *)
Definition AddRow (t : Table) (values : list Value) : Table :=
  addRowWith cellOfValue t values.

(* AddRowBytes adds a row from byte slices directly *)
Definition AddRowBytes (t : Table) (values : list (list Z)) : Table :=
  addRowWith (fun val => val) t values.

(* SetStyle sets the border style for the table *)
Definition SetStyle (t : Table) (s : Style) : Table :=
  {| headers := headers t; rows := rows t; style := s;
     aligns := aligns t; maxWidths := maxWidths t;
     widthFunc := widthFunc t |}.

(* SetAlign sets alignment for a specific column *)
Definition SetAlign (t : Table) (col : Z) (align : Align) : Table :=
  if (col >=? 0) && (col <? Z.of_nat (length (aligns t))) then
    {| headers := headers t; rows := rows t; style := style t;
       aligns := <[Z.to_nat col := align]> (aligns t);
       maxWidths := maxWidths t; widthFunc := widthFunc t |}
  else t.

(* SetMaxWidth sets maximum width for a specific column *)
Definition SetMaxWidth (t : Table) (col : Z) (w : Z) : Table :=
  if (col >=? 0) && (col <? Z.of_nat (length (maxWidths t))) then
    {| headers := headers t; rows := rows t; style := style t;
       aligns := aligns t;
       maxWidths := <[Z.to_nat col := w]> (maxWidths t);
       widthFunc := widthFunc t |}
  else t.

(* SetWidthFunc sets a custom width calculation function *)
Definition SetWidthFunc (t : Table) (fn : WidthFunc) : Table :=
  {| headers := headers t; rows := rows t; style := style t;
     aligns := aligns t; maxWidths := maxWidths t; widthFunc := fn |}.

(* The loop [for i, cell := range row] of measureColumns, from index [i]. *)
Fixpoint measureRow (fn : WidthFunc) (i : nat) (row : list (list Z))
    (widths : list Z) : list Z :=
  match row with
  | [] => widths
  | cell :: row' =>
      let widths' :=
        match widths !! i with
        | Some wi => (* i < len(widths) *)
            let cellWidth := MeasureWidthIgnoreANSIBytesCustom cell fn in
            if cellWidth >? wi then <[i := cellWidth]> widths else widths
        | None => widths
        end in
      measureRow fn (S i) row' widths'
  end.

(* The loop [for i, maxWidth := range t.maxWidths] of measureColumns, from
   index [i]; [None] is the run-time panic of [widths[i]] out of range. *)
Fixpoint clipLoop (i : nat) (maxWs : list Z) (widths : list Z)
    : option (list Z) :=
  match maxWs with
  | [] => Some widths
  | maxWidth :: maxWs' =>
      if maxWidth >? 0 then
        match widths !! i with
        | Some wi =>
            clipLoop (S i) maxWs'
              (if wi >? maxWidth then <[i := maxWidth]> widths else widths)
        | None => None
        end
      else clipLoop (S i) maxWs' widths
  end.

(* measureColumns calculates the width needed for each column *)
Definition measureColumns (t : Table) : option (list Z) :=
  if (length (headers t) =? 0)%nat then Some []
  else
    let widths :=
      map (fun header => MeasureWidthIgnoreANSIBytesCustom header (widthFunc t))
          (headers t) in
    let widths :=
      foldl (fun widths row => measureRow (widthFunc t) 0 row widths)
            widths (rows t) in
    clipLoop 0 (maxWidths t) widths.

Definition spaces (n : Z) : list Z := replicate (Z.to_nat n) 32.

(* padWithANSI pads text while preserving ANSI sequences; the subtraction
   is exact where [targetWidth - currentWidth] is an [int] *)
Definition padWithANSI (t : Table) (cell : list Z)
    (targetWidth currentWidth : Z) (align : Align) : list Z :=
  let padding := targetWidth - currentWidth in
  if padding <=? 0 then cell
  else
    match align with
    | AlignCenter =>
        let leftPad := Z.quot padding 2 in
        let rightPad := padding - leftPad in
        spaces leftPad ++ cell ++ spaces rightPad
    | AlignRight => spaces padding ++ cell
    | AlignLeft => cell ++ spaces padding
    end.

(* truncateWithANSI truncates text while preserving ANSI sequences *)
Definition truncateWithANSI (t : Table) (cell : list Z) (maxWidth : Z)
    : list Z :=
  if negb (HasANSIBytes cell) then TruncateToWidthBytes cell maxWidth
  else
    let stripped := StripANSIBytes cell in
    if StringWidthBytesCustom stripped (widthFunc t) <=? maxWidth then
      cell (* Fits even with ANSI codes *)
    else TruncateToWidthBytes stripped maxWidth.

(* alignCell aligns a cell's content within the given width *)
Definition alignCell (t : Table) (cell : list Z) (w : Z) (align : Align)
    : list Z :=
  let cellWidth := MeasureWidthIgnoreANSIBytesCustom cell (widthFunc t) in
  if cellWidth >=? w then truncateWithANSI t cell w
  else padWithANSI t cell w cellWidth align.

(** A [bytes.Buffer] is the list of its unread bytes. *)
Definition Buffer := list Z.

(* func (b *Buffer) WriteRune(r rune) *)
Definition WriteRune (buf : Buffer) (r : Z) : Buffer :=
  if (0 <=? r) && (r <? utf8.RuneSelf) then buf ++ [r]
  else buf ++ utf8.encode r.

(* renderBorder renders a border line using the table's style *)
Definition renderBorder (t : Table) (buf : Buffer) (widths : list Z)
    (borderType : string) : option Buffer :=
  if (length widths =? 0)%nat then Some buf
  else
    (* Use the style to render the border *)
    match renderBorderLine (style t) widths borderType with
    | None => None
    | Some borderBytes => Some (buf ++ borderBytes)
    end.

(* The loop [for i, width := range widths] of renderRow, from index [i]. *)
Fixpoint rowLoop (t : Table) (row : list (list Z)) (i : nat)
    (widths : list Z) (buf : Buffer) : Buffer :=
  match widths with
  | [] => buf
  | w :: widths' =>
      let buf := buf ++ [32] in
      let cell := default [] (row !! i) in
      let align := default AlignLeft (aligns t !! i) in
      let alignedCell := alignCell t cell w align in
      let buf := buf ++ alignedCell in
      let buf := buf ++ [32] in
      let buf := WriteRune buf (Vertical (style t)) in
      rowLoop t row (S i) widths' buf
  end.

(* renderRow renders a single data row using the table's style *)
Definition renderRow (t : Table) (buf : Buffer) (row : list (list Z))
    (widths : list Z) : Buffer :=
  if (length widths =? 0)%nat then buf
  else
    let buf := WriteRune buf (Vertical (style t)) in
    let buf := rowLoop t row 0 widths buf in
    buf ++ [10].

(** The [sync.Pool] of buffers: the buffers put back and not yet taken.
    [Get] hands out one of them, contents and all, or a fresh buffer. *)
Definition Pool := list Buffer.

Definition Pool_Get (p : Pool) : Buffer * Pool :=
  match p with
  | [] => ([], [])
  | buf :: p' => (buf, p')
  end.

Definition Pool_Put (p : Pool) (buf : Buffer) : Pool := buf :: p.

(* func (b *Buffer) Reset() *)
Definition Reset (buf : Buffer) : Buffer := [].

(* String returns the formatted table as a string; the deferred Put
   returns the buffer, still holding the render, to the pool.  [None] is
   a panic of measureColumns or of renderBorderLine. *)
Definition Table_String (t : Table) (pool : Pool) : option (list Z * Pool) :=
  if (length (headers t) =? 0)%nat then Some ([], pool)
  else
    (* Get buffer from pool *)
    let '(buf, pool) := Pool_Get pool in
    let buf := Reset buf in
    match measureColumns t with
    | None => None
    | Some widths =>
        (* Render table *)
        match renderBorder t buf widths "top" with
        | None => None
        | Some buf =>
            let buf := renderRow t buf (headers t) widths in
            match renderBorder t buf widths "middle" with
            | None => None
            | Some buf =>
                let buf :=
                  foldl (fun buf row => renderRow t buf row widths) buf
                    (rows t) in
                match renderBorder t buf widths "bottom" with
                | None => None
                | Some buf =>
                    (* Create a copy of the buffer content to return *)
                    let result := buf in
                    Some (result, Pool_Put pool buf)
                end
            end
        end
    end.

(** An [io.Writer]: the state of the sink and its [Write] method, which
    answers the count of bytes taken and an error, if any. *)
Inductive error := ErrShortWrite | ErrSink (msg : string).

Record Writer := mkWriter {
  sink : Type;
  Write : sink -> list Z -> sink * Z * option error
}.

(* func (b *Buffer) WriteTo(w io.Writer) (n int64, err error); the result
   carries the buffer left behind, [None] is the panic on an invalid
   count. *)
Definition Buffer_WriteTo (W : Writer) (buf : Buffer) (w : sink W)
    : option (Buffer * sink W * Z * option error) :=
  let nBytes := Z.of_nat (length buf) in
  if nBytes >? 0 then
    let '(w', m, e) := Write W w buf in
    if m >? nBytes then None
    else
      let buf' := drop (Z.to_nat m) buf in
      match e with
      | Some err => Some (buf', w', m, Some err)
      | None =>
          if negb (m =? nBytes) then Some (buf', w', m, Some ErrShortWrite)
          else Some (Reset buf', w', m, None)
      end
  else Some (Reset buf, w, 0, None).

(* WriteTo writes the table to any io.Writer; the result is the sink, the
   count, the error and the pool. *)
Definition Table_WriteTo (t : Table) (W : Writer) (w : sink W) (pool : Pool)
    : option (sink W * Z * option error * Pool) :=
  if (length (headers t) =? 0)%nat then Some (w, 0, None, pool)
  else
    (* Get buffer from pool *)
    let '(buf, pool) := Pool_Get pool in
    let buf := Reset buf in
    match measureColumns t with
    | None => None
    | Some widths =>
        (* Render table *)
        match renderBorder t buf widths "top" with
        | None => None
        | Some buf =>
            let buf := renderRow t buf (headers t) widths in
            match renderBorder t buf widths "middle" with
            | None => None
            | Some buf =>
                let buf :=
                  foldl (fun buf row => renderRow t buf row widths) buf
                    (rows t) in
                match renderBorder t buf widths "bottom" with
                | None => None
                | Some buf =>
                    (* Write directly from buffer to avoid string
                       conversion *)
                    match Buffer_WriteTo W buf w with
                    | None => None
                    | Some (buf', w', written, err) =>
                        Some (w', written, err, Pool_Put pool buf')
                    end
                end
            end
        end
    end.

(** The sink that keeps every byte it is given, such as a [bytes.Buffer]
    or a file that never fails. *)
Definition memWriter : Writer :=
  {| sink := list Z;
     Write := fun out p => (out ++ p, Z.of_nat (length p), None) |}.

(** A sink that takes at most [limit] bytes over its life and then fails,
    such as a full disk. *)
Definition limitWriter (limit : nat) : Writer :=
  {| sink := list Z;
     Write := fun out p =>
       let room := (limit - length out)%nat in
       if (length p <=? room)%nat then (out ++ p, Z.of_nat (length p), None)
       else (out ++ take room p, Z.of_nat (Nat.min room (length p)),
             Some (ErrSink "no space left")) |}.

(** ** Programs over the public interface *)

(* One call of a mutating method of [*Table]. *)
Inductive Op :=
| OpAddRow (values : list Value)
| OpAddRowBytes (values : list (list Z))
| OpSetStyle (s : Style)
| OpSetAlign (col : Z) (align : Align)
| OpSetMaxWidth (col : Z) (w : Z)
| OpSetWidthFunc (fn : WidthFunc).

Definition applyOp (t : Table) (op : Op) : Table :=
  match op with
  | OpAddRow values => AddRow t values
  | OpAddRowBytes values => AddRowBytes t values
  | OpSetStyle s => SetStyle t s
  | OpSetAlign col align => SetAlign t col align
  | OpSetMaxWidth col w => SetMaxWidth t col w
  | OpSetWidthFunc fn => SetWidthFunc t fn
  end.

(* A chain of calls [t.Op1(...).Op2(...)...]. *)
Definition applyOps (t : Table) (ops : list Op) : Table :=
  foldl applyOp t ops.

(* The shape every table built by [New] and the methods above has: one
   alignment and one maximum per header, and rows as long as the header. *)
Record TableInv (t : Table) : Prop := {
  inv_aligns : length (aligns t) = length (headers t);
  inv_maxWidths : length (maxWidths t) = length (headers t);
  inv_rows : Forall (fun row => length row = length (headers t)) (rows t)
}.

(** ** Properties of the range tables, stated on the data *)

Definition byStart (a b : unicodeRange) : Prop := start a < start b.

(* Two entries share no code point. *)
Definition disjointRanges (a b : unicodeRange) : bool :=
  (end_ a <? start b) || (end_ b <? start a).

Fixpoint pairwiseDisjoint (rs : list unicodeRange) : bool :=
  match rs with
  | [] => true
  | a :: rs' => forallb (disjointRanges a) rs' && pairwiseDisjoint rs'
  end.

Definition nonOverlapping (rs : list unicodeRange) : Prop :=
  forall (i j : nat) a b r,
    rs !! i = Some a -> rs !! j = Some b -> i <> j ->
    inRange r a = true -> inRange r b = false.

Definition mutuallyDisjoint (rs1 rs2 : list unicodeRange) : Prop :=
  forall a b r,
    In a rs1 -> In b rs2 -> inRange r a = true -> inRange r b = false.

Definition matchesAtMostOne (rs : list unicodeRange) : Prop :=
  forall (i j : nat) a b r,
    rs !! i = Some a -> rs !! j = Some b ->
    inRange r a = true -> inRange r b = true -> i = j.

(** ** The column width in the words of the layout contract *)

Definition measure (fn : WidthFunc) (cell : list Z) : Z :=
  MeasureWidthIgnoreANSIBytesCustom cell fn.

(* The widest of the header and of every row's cell of column [i], a row
   without such a cell counting 0. *)
Definition widestCell (t : Table) (i : nat) (header : list Z) : Z :=
  foldr Z.max (measure (widthFunc t) header)
    (map (fun row : list (list Z) =>
            match row !! i with
            | Some cell => measure (widthFunc t) cell
            | None => 0
            end) (rows t)).

(* ... clipped down to the maximum of the column when it is positive. *)
Definition columnWidth (t : Table) (i : nat) (header : list Z) : Z :=
  match maxWidths t !! i with
  | Some maxWidth =>
      if 0 <? maxWidth then Z.min (widestCell t i header) maxWidth
      else widestCell t i header
  | None => widestCell t i header
  end.

Definition nonNegative (fn : WidthFunc) : Prop := forall r, 0 <= fn r.

Definition rowsComplete (t : Table) : Prop :=
  Forall (fun row : list (list Z) => length row = length (headers t)) (rows t).

(** ** Auxiliary functions of the proofs *)

(* What the loop over one row, started at index [i], leaves at index [k]. *)
Definition rowMax (fn : WidthFunc) (i k : nat) (row : list (list Z)) (wk : Z)
    : Z :=
  if (i <=? k)%nat then
    match row !! (k - i)%nat with
    | Some cell => Z.max wk (measure fn cell)
    | None => wk
    end
  else wk.

(* What the loop over all rows leaves at index [k]. *)
Definition rowsMax (fn : WidthFunc) (k : nat) (rs : list (list (list Z)))
    (wk : Z) : Z :=
  foldl (fun wk row => rowMax fn 0 k row wk) wk rs.

(* The clipping of one width. *)
Definition clip (maxWidth w : Z) : Z :=
  if (maxWidth >? 0) && (w >? maxWidth) then maxWidth else w.

(* The buffer both render entry points build from an empty one. *)
Definition renderTable (t : Table) (buf : Buffer) : option Buffer :=
  match measureColumns t with
  | None => None
  | Some widths =>
      match renderBorder t buf widths "top" with
      | None => None
      | Some buf =>
          let buf := renderRow t buf (headers t) widths in
          match renderBorder t buf widths "middle" with
          | None => None
          | Some buf =>
              let buf :=
                foldl (fun buf row => renderRow t buf row widths) buf
                  (rows t) in
              renderBorder t buf widths "bottom"
          end
      end
  end.

(* The width one decoded code point adds. *)
Definition stepWidth (fn : WidthFunc) (r : Z) (size : nat) : Z :=
  if (r =? utf8.RuneError) && (size =? 1)%nat then 1 else fn r.

(** ** Well-formed cells

    A cell is well formed when every escape byte in it begins a complete
    CSI sequence [ESC '[' params final] and the bytes outside these
    sequences are valid UTF-8, no code point being split by a sequence:
    the cells produced by the colour helpers from text. *)

(* The body of a CSI sequence: parameter bytes, then a final byte. *)
Fixpoint csiClosed (b : list Z) : bool :=
  match b with
  | [] => false
  | c :: b' =>
      if isFinalByte c then true
      else if isParamByte c then csiClosed b'
      else false
  end.

Fixpoint cleanLoop (fuel : nat) (b : list Z) : bool :=
  match fuel with
  | O => true
  | S fuel' =>
      match b with
      | [] => true
      | c :: b' =>
          if c =? ESC then
            match b' with
            | c1 :: body =>
                (c1 =? 0x5B) && csiClosed body
                && cleanLoop fuel' (skipCSIBody body)
            | [] => false
            end
          else
            let '(r, size) := utf8.DecodeRune b in
            negb ((r =? utf8.RuneError) && (size =? 1)%nat)
            && cleanLoop fuel' (drop size b)
      end
  end.

Definition cleanCell (b : list Z) : bool := cleanLoop (length b) b.

(* The cells the formatting properties are stated for: cells without any
   escape byte, whatever their bytes, and well-formed cells. *)
Definition regularCell (cell : list Z) : Prop :=
  ESC ∉ cell \/ cleanCell cell = true.

(* No code point of the visible text of the cell is wide. *)
Definition narrowText (cell : list Z) : Prop :=
  forall k,
    RuneWidth (fst (utf8.DecodeRune (drop k (StripANSIBytes cell)))) <= 1.

(** ** Truncation in the words of the cell formatter's contract

    The cut of a cell without escape sequences as the contract of the
    formatter words it: code points are consumed greedily while the
    width measured with the configured width function stays within the
    target, and the ellipsis is appended when content was cut and at
    least three columns remain. *)
Fixpoint specTruncateLoop (fuel : nat) (fn : WidthFunc) (maxWidth : Z)
    (st : truncState) : truncState :=
  match fuel with
  | O => st
  | S fuel' =>
      match rest st with
      | [] => st
      | _ :: _ =>
          let '(r, size) := utf8.DecodeRune (rest st) in
          let w := stepWidth fn r size in
          if used st + w >? maxWidth then st
          else
            specTruncateLoop fuel' fn maxWidth
              (mkTrunc (drop size (rest st)) (used st + w)
                       (result st ++ take size (rest st)))
      end
  end.

Definition specTruncate (fn : WidthFunc) (b : list Z) (maxWidth : Z)
    : list Z :=
  let st := specTruncateLoop (length b) fn maxWidth (mkTrunc b 0 []) in
  match rest st with
  | [] => result st
  | _ :: _ =>
      if 3 <=? maxWidth - used st then result st ++ ellipsis else result st
  end.

(** ** Example tables *)

(* NewFromStrings("Name", "Age").AddRow("Alice", 30).AddRow("Bob", 7)
   .SetMaxWidth(0, 4) *)
Definition layoutExample : Table :=
  SetMaxWidth
    (AddRow (AddRow (NewFromStrings ["Name"; "Age"]%string)
               [VString "Alice"; VInt 30])
       [VString "Bob"; VInt 7]) 0 4.

(* U+4E2D, a wide code point, and a cell of four of them. *)
Definition zhong : list Z := [0xE4; 0xB8; 0xAD].
Definition wideCell : list Z := zhong ++ zhong ++ zhong ++ zhong.

(* NewFromStrings("Word").SetStyle(StyleASCII)
   .AddRow("Supercalifragilistic").SetMaxWidth(0, 5) *)
Definition longWord : list Z := bytesOf "Supercalifragilistic".

Definition truncExample : Table :=
  SetMaxWidth
    (AddRow (SetStyle (NewFromStrings ["Word"]%string) StyleASCII)
       [VString "Supercalifragilistic"]) 0 5.

(* A width function that takes every code point for a wide one, and
   NewFromStrings("abcd").SetStyle(StyleASCII).SetWidthFunc(allWide)
   .SetMaxWidth(0, 4) *)
Definition allWide : WidthFunc := fun _ => 2.

Definition customExample : Table :=
  SetMaxWidth
    (SetWidthFunc (SetStyle (NewFromStrings ["abcd"]%string) StyleASCII)
       allWide) 0 4.

(* Success("OK"): bold green text and a reset. *)
Definition greenOK : list Z :=
  [0x1B] ++ bytesOf "[32m" ++ [0x1B] ++ bytesOf "[1mOK" ++ [0x1B]
  ++ bytesOf "[0m".

(* "ab" followed by an unterminated colour sequence. *)
Definition openRed : list Z := bytesOf "ab" ++ [0x1B] ++ bytesOf "[31".

(** ** width.go: the string functions, padding and the rune predicates

    A Go [string] is the list of its bytes.  A [for _, r := range s] loop
    decodes one code point per turn as DecodeRune does: an invalid byte
    yields U+FFFD and advances by one byte. *)

(* The loop [for _, r := range s { width += widthFunc(r) }]. *)
Fixpoint rangeWidthLoop (fuel : nat) (widthFunc : WidthFunc) (s : list Z)
    (width : Z) : Z :=
  match fuel with
  | O => width
  | S fuel' =>
      if (0 <? length s)%nat then
        let '(r, size) := utf8.DecodeRune s in
        rangeWidthLoop fuel' widthFunc (drop size s) (width + widthFunc r)
      else width
  end.

(* StringWidth calculates the display width of a string *)
Definition StringWidth (s : list Z) : Z :=
  rangeWidthLoop (length s) RuneWidth s 0.

(* StringWidthCustom calculates string width using a custom width function *)
Definition StringWidthCustom (s : list Z) (widthFunc : WidthFunc) : Z :=
  rangeWidthLoop (length s) widthFunc s 0.

(* The conversion []rune(s). *)
Fixpoint runesLoop (fuel : nat) (s : list Z) : list Z :=
  match fuel with
  | O => []
  | S fuel' =>
      if (0 <? length s)%nat then
        let '(r, size) := utf8.DecodeRune s in
        r :: runesLoop fuel' (drop size s)
      else []
  end.

Definition runesOf (s : list Z) : list Z := runesLoop (length s) s.

(* The conversion string(runes). *)
Definition stringOfRunes (rs : list Z) : list Z := flat_map utf8.encode rs.

(* The loop of TruncateToWidth over the runes of [s]: the width consumed
   and the runes kept. *)
Fixpoint truncateRunesLoop (fuel : nat) (maxWidth : Z) (s : list Z)
    (width : Z) (res : list Z) : Z * list Z :=
  match fuel with
  | O => (width, res)
  | S fuel' =>
      if (0 <? length s)%nat then
        let '(r, size) := utf8.DecodeRune s in
        let runeWidth := RuneWidth r in
        if width + runeWidth >? maxWidth then (width, res) (* break *)
        else
          truncateRunesLoop fuel' maxWidth (drop size s)
            (width + runeWidth) (res ++ [r])
      else (width, res)
  end.

(* TruncateToWidth truncates a string to fit within specified display
   width *)
Definition TruncateToWidth (s : list Z) (maxWidth : Z) : list Z :=
  if maxWidth <=? 0 then []
  else
    let '(w, res) := truncateRunesLoop (length s) maxWidth s 0 [] in
    let res :=
      if (length res <? length (runesOf s))%nat && (w <=? maxWidth - 3) then
        res ++ ellipsis
      else res in
    stringOfRunes res.

(* PadToWidth pads a string to reach the specified display width *)
Definition PadToWidth (s : list Z) (w : Z) (align : Align) : list Z :=
  let currentWidth := StringWidth s in
  if currentWidth >=? w then s
  else
    let padding := w - currentWidth in
    match align with
    | AlignCenter =>
        let leftPad := Z.quot padding 2 in
        let rightPad := padding - leftPad in
        spaces leftPad ++ s ++ spaces rightPad
    | AlignRight => spaces padding ++ s
    | AlignLeft => s ++ spaces padding
    end.

(* PadToWidthBytes pads byte slice to reach specified display width *)
Definition PadToWidthBytes (b : list Z) (w : Z) (align : Align) : list Z :=
  let currentWidth := StringWidthBytes b in
  if currentWidth >=? w then b
  else
    let padding := w - currentWidth in
    match align with
    | AlignCenter =>
        let leftPad := Z.quot padding 2 in
        let rightPad := padding - leftPad in
        spaces leftPad ++ b ++ spaces rightPad
    | AlignRight => spaces padding ++ b
    | AlignLeft => b ++ spaces padding
    end.

(* IsWideRune returns true if the rune has display width > 1 *)
Definition IsWideRune (r : Z) : bool := RuneWidth r >? 1.

(* IsZeroWidthRune returns true if the rune has display width 0 *)
Definition IsZeroWidthRune (r : Z) : bool := RuneWidth r =? 0.

(** ** Auxiliary notions of the width.go proofs *)

(* The encoding EF BF BD of U+FFFD occurs nowhere in [b]. *)
Definition noReplacement (b : list Z) : Prop :=
  forall k q, drop k b <> 0xEF :: 0xBF :: 0xBD :: q.

(* The test for a given slice, by computation. *)
Fixpoint noReplacementb (b : list Z) : bool :=
  match b with
  | [] => true
  | c :: b' =>
      negb (match b with
            | c0 :: c1 :: c2 :: _ =>
                (c0 =? 0xEF) && (c1 =? 0xBF) && (c2 =? 0xBD)
            | _ => false
            end)
      && noReplacementb b'
  end.

(* The code points that have an encoding of their own (utf8.ValidRune). *)
Definition ValidRune (r : Z) : bool :=
  ((0 <=? r) && (r <? utf8.surrogateMin))
  || ((utf8.surrogateMax <? r) && (r <=? utf8.MaxRune)).

(* The values of the slice are bytes. *)
Definition isBytes (b : list Z) : bool :=
  forallb (fun c => (0 <=? c) && (c <? 256)) b.

(* No byte of [b] is invalid (utf8.Valid): the decoder never yields
   U+FFFD with a size of one. *)
Fixpoint validLoop (fuel : nat) (b : list Z) : bool :=
  match fuel with
  | O => true
  | S fuel' =>
      if (0 <? length b)%nat then
        let '(r, size) := utf8.DecodeRune b in
        negb ((r =? utf8.RuneError) && (size =? 1)%nat)
        && validLoop fuel' (drop size b)
      else true
  end.

Definition Valid (b : list Z) : bool := validLoop (length b) b.

(** ** Auxiliary notions of the layout proofs *)

(* A code point one column wide. *)
Definition plainRune (r : Z) : bool := ValidRune r && (RuneWidth r =? 1).

(* A style all of whose border characters are one column wide. *)
Definition plainStyle (s : Style) : bool :=
  forallb plainRune
    [TopLeft s; TopRight s; BottomLeft s; BottomRight s; Horizontal s;
     Vertical s; Cross s; TopTee s; BottomTee s; LeftTee s; RightTee s].

(* The columns of a line of the table: a border character, and for each
   column its width, two spaces of padding and a border character. *)
Definition lineWidth (widths : list Z) : Z :=
  1 + foldr (fun w acc => w + 3 + acc) 0 widths.

(* The lines String and WriteTo render one after the other. *)
Definition tableLines (t : Table) (widths : list Z) : list (list Z) :=
  [default [] (renderBorder t [] widths "top");
   renderRow t [] (headers t) widths;
   default [] (renderBorder t [] widths "middle")]
  ++ map (fun row => renderRow t [] row widths) (rows t)
  ++ [default [] (renderBorder t [] widths "bottom")].

(* No column has a maximum width. *)
Definition noLimits (t : Table) : bool :=
  forallb (fun m => m <=? 0) (maxWidths t).

(* No header and no cell holds an escape byte. *)
Definition noEscapes (t : Table) : bool :=
  forallb (forallb (forallb (fun c => negb (c =? ESC))))
    (headers t :: rows t).

(* The cells of [row] from column [i] on have no escape byte and fit the
   widths [ws]. *)
Definition rowFits (row : list (list Z)) (i : nat) (ws : list Z) : Prop :=
  forall j w,
    ws !! j = Some w ->
    0 <= w /\ (ESC ∉ default [] (row !! (i + j)%nat))
    /\ StringWidth (default [] (row !! (i + j)%nat)) <= w.

(* NewFromStrings("Name", "City").AddRow("Alice", 30)
   .AddRowBytes([]byte("中"), []byte("中中中中")).AddRow("Bob") *)
Definition plainExample : Table :=
  AddRow
    (AddRowBytes
       (AddRow (NewFromStrings ["Name"; "City"]%string)
          [VString "Alice"; VInt 30])
       [zhong; wideCell])
    [VString "Bob"].

(** ** Auxiliary notions of the border line proofs *)

(* The start, end and separator characters of a line type. *)
Definition lineRunes (s : Style) (lineType : string) : Z * Z * Z :=
  if String.eqb lineType "top" then (TopLeft s, TopRight s, TopTee s)
  else if String.eqb lineType "bottom" then
    (BottomLeft s, BottomRight s, BottomTee s)
  else (LeftTee s, RightTee s, Cross s).



(* The bytes of a border line of at least one column, once its capacity
   is reserved. *)
Definition borderLine (s : Style) (widths : list Z) (lineType : string)
    : list Z :=
  let '(startChar, endChar, sepChar) := lineRunes s lineType in
  appendRune
    (borderLoop (Z.of_nat (length widths)) 0 widths sepChar (Horizontal s)
       (appendRune [] startChar)) endChar
  ++ [10].

(** ** Auxiliary notions of the cell formatting proofs *)

(* The largest value of Go's [int]. *)
Definition MaxInt : Z := 2 ^ 63 - 1.

(* The cells without an escape byte, and the well-formed cells in which
   the code point U+FFFD does not occur. *)
Definition strictCell (cell : list Z) : Prop :=
  ESC ∉ cell \/ (cleanCell cell = true /\ noReplacement cell).

(* A red U+FFFD: ESC [ 3 1 m, EF BF BD, ESC [ 0 m. *)
Definition redReplacement : list Z :=
  [0x1B] ++ bytesOf "[31m" ++ [0xEF; 0xBF; 0xBD] ++ [0x1B] ++ bytesOf "[0m".

(* A wide code point split by a colour sequence: E4, ESC [ 0 m, B8 AD. *)
Definition splitZhong : list Z :=
  [0xE4] ++ [0x1B] ++ bytesOf "[0m" ++ [0xB8; 0xAD].

(* A width function with negative values, and New("abcdef") with it. *)
Definition negWidth : WidthFunc := fun _ => -1.

Definition negTable : Table :=
  SetWidthFunc (New [bytesOf "abcdef"]) negWidth.

(** * Width classifier *)

Lemma wideRanges_width : Forall (fun rang => width rang = 2) wideRanges.
Proof. unfold wideRanges. repeat constructor. Qed.

Lemma find_inRange_wide r rang :
  find (inRange r) wideRanges = Some rang -> width rang = 2.
Proof.
  intros Hfind. apply find_some in Hfind as [Hin _].
  pose proof wideRanges_width as Hall.
  rewrite List.Forall_forall in Hall. by apply Hall.
Qed.

Lemma RuneWidth_cases r : RuneWidth r = 0 \/ RuneWidth r = 1 \/ RuneWidth r = 2.
Proof.
  unfold RuneWidth.
  destruct (r <? 0x80); [destruct (r >=? 0x20); auto|].
  destruct (find (inRange r) zeroWidthRanges); [auto|].
  destruct (find (inRange r) wideRanges) as [rang|] eqn:Hw; [|auto].
  right; right. by eapply find_inRange_wide.
Qed.

Lemma RuneWidth_range r : 0 <= RuneWidth r <= 2.
Proof. destruct (RuneWidth_cases r) as [H|[H|H]]; lia. Qed.

Lemma RuneWidth_ascii r : 0x20 <= r < 0x80 -> RuneWidth r = 1.
Proof.
  intros [Hlo Hhi]. unfold RuneWidth.
  destruct (Z.ltb_spec r 0x80); [|lia].
  destruct (Z.geb_spec r 0x20); [done|lia].
Qed.

Lemma RuneWidth_control r : r < 0x20 -> RuneWidth r = 0.
Proof.
  intros Hhi. unfold RuneWidth.
  destruct (Z.ltb_spec r 0x80); [|lia].
  destruct (Z.geb_spec r 0x20); [lia|done].
Qed.

(** C8. RuneWidth is total with values in {0, 1, 2}; printable ASCII
    0x20-0x7E has width 1 and the ASCII control codes below 0x20 have
    width 0. *)
Theorem RuneWidth_total (r : Z) :
  (RuneWidth r = 0 \/ RuneWidth r = 1 \/ RuneWidth r = 2)
  /\ (0x20 <= r <= 0x7E -> RuneWidth r = 1)
  /\ (0 <= r < 0x20 -> RuneWidth r = 0).
Proof.
  split; [apply RuneWidth_cases|split].
  - intros [Hlo Hhi]. apply RuneWidth_ascii. lia.
  - intros [Hlo Hhi]. by apply RuneWidth_control.
Qed.

Lemma RuneWidth_total_witness :
  RuneWidth 0x41 = 1 /\ RuneWidth 0x0A = 0.
Proof.
  split.
  - apply (proj1 (proj2 (RuneWidth_total 0x41))). lia.
  - apply (proj2 (proj2 (RuneWidth_total 0x0A))). lia.
Defined.

(** * Range tables *)

Lemma disjointRanges_inRange a b r :
  disjointRanges a b = true -> inRange r a = true -> inRange r b = false.
Proof.
  unfold disjointRanges, inRange. intros Hd Ha.
  apply andb_true_iff in Ha as [Ha1 Ha2].
  apply andb_false_iff.
  apply orb_true_iff in Hd as [Hd|Hd]; lia.
Qed.

Lemma disjointRanges_sym a b : disjointRanges a b = disjointRanges b a.
Proof. unfold disjointRanges. apply orb_comm. Qed.

Lemma pairwiseDisjoint_sound rs :
  pairwiseDisjoint rs = true -> nonOverlapping rs.
Proof.
  unfold nonOverlapping.
  induction rs as [|c rs IH]; intros Hpd i j a b r Hi Hj Hne Ha; [done|].
  simpl in Hpd. apply andb_true_iff in Hpd as [Hhd Htl].
  rewrite forallb_forall in Hhd.
  destruct i as [|i], j as [|j]; simpl in Hi, Hj; simplify_eq.
  - apply (disjointRanges_inRange a b); [|done].
    apply Hhd. apply list_elem_of_In. by eapply list_elem_of_lookup_2.
  - apply (disjointRanges_inRange a b); [|done].
    rewrite disjointRanges_sym.
    apply Hhd. apply list_elem_of_In. by eapply list_elem_of_lookup_2.
  - eapply (IH Htl i j); eauto.
Qed.

Lemma nonOverlapping_app_l rs1 rs2 :
  nonOverlapping (rs1 ++ rs2) -> nonOverlapping rs1.
Proof.
  intros H i j a b r Hi Hj. apply (H i j); by apply lookup_app_l_Some.
Qed.

Lemma nonOverlapping_app_r rs1 rs2 :
  nonOverlapping (rs1 ++ rs2) -> nonOverlapping rs2.
Proof.
  intros H i j a b r Hi Hj Hne.
  apply (H (length rs1 + i)%nat (length rs1 + j)%nat); [| |lia].
  - by rewrite lookup_app_r, Nat.add_comm, Nat.add_sub by lia.
  - by rewrite lookup_app_r, Nat.add_comm, Nat.add_sub by lia.
Qed.

Lemma nonOverlapping_app_disjoint rs1 rs2 :
  nonOverlapping (rs1 ++ rs2) -> mutuallyDisjoint rs1 rs2.
Proof.
  intros H a b r Ha Hb.
  apply list_elem_of_In, list_elem_of_lookup in Ha as [i Hi].
  apply list_elem_of_In, list_elem_of_lookup in Hb as [j Hj].
  apply (H i (length rs1 + j)%nat).
  - by apply lookup_app_l_Some.
  - by rewrite lookup_app_r, Nat.add_comm, Nat.add_sub by lia.
  - apply lookup_lt_Some in Hi. lia.
Qed.

Lemma nonOverlapping_atMostOne rs : nonOverlapping rs -> matchesAtMostOne rs.
Proof.
  intros H i j a b r Hi Hj Ha Hb.
  destruct (decide (i = j)) as [|Hne]; [done|].
  rewrite (H i j a b r Hi Hj Hne Ha) in Hb. discriminate.
Qed.

Lemma allRanges_disjoint :
  pairwiseDisjoint (zeroWidthRanges ++ wideRanges) = true.
Proof. vm_compute. reflexivity. Qed.

(** C4 (as stated, refuted). Neither table is sorted by start: wideRanges
    opens with 0x4E00 before 0x3400, and in zeroWidthRanges 0xFE20 comes
    before 0x200B. *)
Lemma width_tables_not_sorted :
  ~ Sorted byStart wideRanges /\ ~ Sorted byStart zeroWidthRanges.
Proof.
  split; intros Hs.
  - unfold wideRanges in Hs.
    apply Sorted_inv in Hs as [_ Hhd].
    apply HdRel_inv in Hhd. unfold byStart in Hhd. simpl in Hhd. lia.
  - unfold zeroWidthRanges in Hs.
    do 4 (apply Sorted_inv in Hs as [Hs _]).
    apply Sorted_inv in Hs as [_ Hhd].
    apply HdRel_inv in Hhd. unfold byStart in Hhd. simpl in Hhd. lia.
Qed.

(** C4 (amended). The ranges within the zero-width table and within the
    wide table are pairwise non-overlapping, the two tables are mutually
    disjoint, and every code point matches at most one entry of the two
    tables together; the tables are not kept in ascending order. *)
Theorem width_tables_disjoint :
  nonOverlapping zeroWidthRanges
  /\ nonOverlapping wideRanges
  /\ mutuallyDisjoint zeroWidthRanges wideRanges
  /\ matchesAtMostOne (zeroWidthRanges ++ wideRanges).
Proof.
  pose proof (pairwiseDisjoint_sound _ allRanges_disjoint) as Hall.
  repeat split.
  - by eapply nonOverlapping_app_l.
  - by eapply nonOverlapping_app_r.
  - by apply nonOverlapping_app_disjoint.
  - by apply nonOverlapping_atMostOne.
Qed.

Lemma width_tables_disjoint_witness :
  inRange 0x4E2D (mkRange 0x3400 0x4DBF 2) = false.
Proof.
  destruct width_tables_disjoint as (_ & Hwide & _ & _).
  apply (Hwide 0%nat 1%nat (mkRange 0x4E00 0x9FFF 2) _ 0x4E2D);
    [reflexivity | reflexivity | lia | reflexivity].
Defined.

(** * Table construction and mutation *)

Lemma length_fillRow {A} (conv : A -> list Z) n i values row :
  length (fillRow conv n i values row) = length row.
Proof.
  revert i row. induction values as [|val values IH]; intros i row; simpl.
  - done.
  - destruct (n <=? i)%nat; [done|]. by rewrite IH, length_insert.
Qed.

Lemma length_padRow nValues n row : length (padRow nValues n row) = length row.
Proof.
  unfold padRow. generalize (seq nValues (n - nValues)). intros idx.
  revert row. induction idx as [|i idx IH]; intros row; simpl; [done|].
  by rewrite IH, length_insert.
Qed.

Lemma New_inv hs : TableInv (New hs).
Proof.
  split; simpl.
  - apply length_replicate.
  - apply length_replicate.
  - constructor.
Qed.

Lemma addRowWith_inv {A} (conv : A -> list Z) t values :
  TableInv t -> TableInv (addRowWith conv t values).
Proof.
  intros [Ha Hm Hr]. unfold addRowWith.
  destruct (length values =? 0)%nat; [by split|].
  split; simpl; [done|done|].
  apply Forall_app. split; [done|].
  constructor; [|constructor].
  by rewrite length_padRow, length_fillRow, length_replicate.
Qed.

Lemma applyOp_inv t op : TableInv t -> TableInv (applyOp t op).
Proof.
  intros Hinv. destruct op; simpl.
  - by apply addRowWith_inv.
  - by apply addRowWith_inv.
  - by destruct Hinv.
  - unfold SetAlign. destruct Hinv as [Ha Hm Hr].
    case_match; split; simpl; try done. by rewrite length_insert.
  - unfold SetMaxWidth. destruct Hinv as [Ha Hm Hr].
    case_match; split; simpl; try done. by rewrite length_insert.
  - by destruct Hinv.
Qed.

Lemma applyOps_inv t ops : TableInv t -> TableInv (applyOps t ops).
Proof.
  unfold applyOps. revert t.
  induction ops as [|op ops IH]; intros t Hinv; simpl; [done|].
  apply IH. by apply applyOp_inv.
Qed.

Lemma applyOp_headers t op : headers (applyOp t op) = headers t.
Proof.
  destruct op; simpl; try done.
  - unfold AddRow, addRowWith. by case_match.
  - unfold AddRowBytes, addRowWith. by case_match.
  - unfold SetAlign. by case_match.
  - unfold SetMaxWidth. by case_match.
Qed.

Lemma applyOps_headers t ops : headers (applyOps t ops) = headers t.
Proof.
  unfold applyOps. revert t.
  induction ops as [|op ops IH]; intros t; simpl; [done|].
  by rewrite IH, applyOp_headers.
Qed.

Lemma fillRow_lookup {A} (conv : A -> list Z) n i values row k :
  length row = n ->
  fillRow conv n i values row !! k
  = if (i <=? k)%nat && (k <? n)%nat then
      match values !! (k - i)%nat with
      | Some val => Some (conv val)
      | None => row !! k
      end
    else row !! k.
Proof.
  revert i row. induction values as [|val values IH]; intros i row Hlen.
  - simpl. by destruct ((i <=? k)%nat && (k <? n)%nat).
  - cbn [fillRow]. destruct (Nat.leb_spec n i) as [Hbreak|Hin].
    { destruct (Nat.leb_spec i k), (Nat.ltb_spec k n); simpl; try done. lia. }
    rewrite IH by (by rewrite length_insert).
    destruct (Nat.leb_spec (S i) k) as [Hlt|Hge].
    + destruct (Nat.leb_spec i k); [|lia]. simpl.
      replace (k - i)%nat with (S (k - S i)) by lia. simpl.
      destruct (k <? n)%nat; [|by rewrite list_lookup_insert_ne by lia].
      destruct (values !! (k - S i)%nat); [done|].
      by rewrite list_lookup_insert_ne by lia.
    + simpl. destruct (Nat.leb_spec i k) as [Hle|Hgt]; simpl.
      * assert (k = i) as -> by lia. rewrite Nat.sub_diag. simpl.
        destruct (Nat.ltb_spec i n); [|lia].
        by rewrite list_lookup_insert_eq by lia.
      * by rewrite list_lookup_insert_ne by lia.
Qed.

Lemma padRow_lookup nValues n (row : list (list Z)) k :
  length row = n ->
  padRow nValues n row !! k
  = if (nValues <=? k)%nat && (k <? n)%nat then Some [] else row !! k.
Proof.
  unfold padRow. intros Hlen.
  assert (forall idx (row : list (list Z)),
            foldl (fun row i => <[i := []]> row) row idx !! k
            = if bool_decide (k ∈ idx) && (k <? length row)%nat then Some []
              else row !! k) as Hfold.
  { clear. induction idx as [|i idx IH]; intros row; simpl.
    - done.
    - rewrite IH, length_insert.
      destruct (Nat.ltb_spec k (length row)) as [Hk|Hk].
      + rewrite !andb_true_r.
        destruct (decide (k = i)) as [->|Hne].
        * rewrite list_lookup_insert_eq by done.
          rewrite (bool_decide_eq_true_2 (i ∈ i :: idx)) by left.
          by destruct (bool_decide (i ∈ idx)).
        * rewrite list_lookup_insert_ne by done.
          destruct (decide (k ∈ idx)) as [Hin|Hin].
          -- rewrite (bool_decide_eq_true_2 (k ∈ idx)) by done.
             by rewrite (bool_decide_eq_true_2 (k ∈ i :: idx)) by (by right).
          -- rewrite (bool_decide_eq_false_2 (k ∈ idx)) by done.
             rewrite (bool_decide_eq_false_2 (k ∈ i :: idx)); [done|].
             intros [?|?]%elem_of_cons; done.
      + rewrite !andb_false_r.
        destruct (decide (k = i)) as [->|Hne].
        * by rewrite list_insert_ge by lia.
        * by rewrite list_lookup_insert_ne by done. }
  rewrite Hfold, Hlen.
  destruct (Nat.ltb_spec k n); [|by rewrite !andb_false_r].
  rewrite !andb_true_r.
  destruct (Nat.leb_spec nValues k).
  - rewrite bool_decide_eq_true_2; [done|].
    apply list_elem_of_In, in_seq. lia.
  - rewrite bool_decide_eq_false_2; [done|].
    intros Hin%list_elem_of_In%in_seq. lia.
Qed.

(* AddRow and AddRowBytes with at least one value append exactly one row,
   as long as the header: cell [k] is the converted [k]-th value, or empty
   when the values run out; values beyond the header count are dropped. *)
Lemma addRowWith_rows {A} (conv : A -> list Z) t (values : list A) :
  values <> [] ->
  rows (addRowWith conv t values)
  = rows t
    ++ [map (fun k => default [] (conv <$> values !! k))
            (seq 0 (length (headers t)))].
Proof.
  intros Hne. unfold addRowWith.
  destruct (Nat.eqb_spec (length values) 0) as [Hz|_];
    [by destruct values|].
  cbn [rows]. f_equal. f_equal. set (n := length (headers t)).
  apply list_eq. intros k.
  rewrite padRow_lookup by (by rewrite length_fillRow, length_replicate).
  rewrite fillRow_lookup by apply length_replicate.
  rewrite list_lookup_fmap, Nat.sub_0_r.
  change (0 <=? k)%nat with true. cbn [andb].
  destruct (Nat.ltb_spec k n) as [Hk|Hk].
  - rewrite lookup_seq_lt by done. rewrite andb_true_r.
    cbn [fmap option_fmap option_map Nat.add].
    destruct (Nat.leb_spec (length values) k) as [Hout|Hin].
    + by rewrite (lookup_ge_None_2 values k).
    + by destruct (lookup_lt_is_Some_2 values k Hin) as [v ->].
  - rewrite andb_false_r.
    rewrite lookup_seq_ge by lia. cbn [fmap option_fmap option_map].
    apply lookup_ge_None_2. rewrite length_replicate. lia.
Qed.

(** C10. AddRow and AddRowBytes called with no value return the table as it
    was: no row is appended, and headers, rows, style, alignments and
    maximum widths are unchanged. *)
Theorem AddRow_no_values (t : Table) :
  AddRow t [] = t /\ AddRowBytes t [] = t
  /\ rows (AddRow t []) = rows t /\ rows (AddRowBytes t []) = rows t.
Proof. repeat split. Qed.

Lemma NewFromStrings_nil : NewFromStrings [] = New [].
Proof. done. Qed.

(** C9. A table constructed with no header, by New or by NewFromStrings,
    renders to nothing whatever methods were called on it before: String
    returns the empty string, WriteTo leaves the sink untouched and
    returns (0, nil). *)
Theorem render_no_headers (ops : list Op) (pool : Pool) (W : Writer)
    (w : sink W) :
  let t := applyOps (New []) ops in
  let t' := applyOps (NewFromStrings []) ops in
  Table_String t pool = Some ([], pool)
  /\ Table_WriteTo t W w pool = Some (w, 0, None, pool)
  /\ Table_String t' pool = Some ([], pool)
  /\ Table_WriteTo t' W w pool = Some (w, 0, None, pool).
Proof.
  intros t t'. unfold t'. rewrite NewFromStrings_nil. fold t.
  unfold Table_String, Table_WriteTo.
  assert (headers t = []) as -> by (unfold t; by rewrite applyOps_headers).
  done.
Qed.

(** * Decoding *)

(* Case analysis on the bytes DecodeRune looks at. *)
Ltac decode_cases :=
  unfold utf8.DecodeRune, utf8.at_;
  cbn [take app length nth Nat.ltb Nat.leb];
  unfold utf8.first; repeat case_match; try done.

Lemma DecodeRune_size p r s :
  p <> [] -> utf8.DecodeRune p = (r, s) ->
  (1 <= s)%nat /\ (s <= length p)%nat.
Proof.
  intros Hne.
  destruct p as [|p0 [|p1 [|p2 [|p3 p']]]]; [done|..].
  all: decode_cases.
  all: intros [= <- <-]; simpl; lia.
Qed.

Lemma DecodeRune_size_max p : (snd (utf8.DecodeRune p) <= 4)%nat.
Proof.
  destruct p as [|p0 [|p1 [|p2 [|p3 p']]]].
  all: decode_cases; simpl; lia.
Qed.

(* The decoding of a rune reads the bytes of that rune only. *)
Lemma DecodeRune_take p j r s :
  utf8.DecodeRune p = (r, s) -> (s <= j)%nat -> (1 <= j)%nat ->
  utf8.DecodeRune (take j p) = (r, s).
Proof.
  intros Hd Hs Hj.
  destruct p as [|p0 [|p1 [|p2 [|p3 p']]]];
    destruct j as [|[|[|[|j]]]]; try lia; try done.
  all: revert Hd; decode_cases.
  all: intros [= <- <-]; lia.
Qed.

(* A byte below 0x80 continues no encoding. *)
Lemma DecodeRune_app_ascii p c q :
  p <> [] -> c < 0x80 ->
  utf8.DecodeRune (p ++ c :: q) = utf8.DecodeRune p.
Proof.
  intros Hne Hc.
  destruct p as [|p0 [|p1 [|p2 [|p3 p']]]]; [done|..].
  all: decode_cases.
  all: unfold utf8.acceptRanges, utf8.locb, utf8.hicb in *;
       simpl in *; try lia.
Qed.

Lemma DecodeRune_ascii c q : c < 0x80 -> utf8.DecodeRune (c :: q) = (c, 1%nat).
Proof.
  intros Hc. unfold utf8.DecodeRune, utf8.at_, utf8.first. simpl.
  destruct (Z.ltb_spec c 128); [done|lia].
Qed.

(** * Bit operations as arithmetic *)

Lemma lor_disjoint a b n :
  0 <= n -> 0 <= b < 2 ^ n -> (2 ^ n | a) -> Z.lor a b = a + b.
Proof.
  intros Hn Hb [k ->].
  assert (Z.land (k * 2 ^ n) b = 0) as Hland.
  { apply Z.bits_inj'. intros i Hi.
    rewrite Z.land_spec, Z.bits_0.
    destruct (Z.lt_ge_cases i n).
    - by rewrite Z.mul_pow2_bits_low.
    - rewrite <- (Z.mod_small b (2 ^ n)) by lia.
      rewrite Z.mod_pow2_bits_high by lia. apply andb_false_r. }
  rewrite <- Z.lxor_lor by done. symmetry. by apply Z.add_nocarry_lxor.
Qed.

Lemma land_mod x n : 0 <= n -> Z.land x (2 ^ n - 1) = x mod 2 ^ n.
Proof.
  intros Hn. rewrite <- Z.land_ones by done. f_equal.
  rewrite Z.ones_equiv. lia.
Qed.

Lemma land_63 x : Z.land x 63 = x mod 64.
Proof. apply (land_mod x 6). lia. Qed.

Lemma land_31 x : Z.land x 31 = x mod 32.
Proof. apply (land_mod x 5). lia. Qed.

Lemma land_15 x : Z.land x 15 = x mod 16.
Proof. apply (land_mod x 4). lia. Qed.

Lemma land_7 x : Z.land x 7 = x mod 8.
Proof. apply (land_mod x 3). lia. Qed.

Lemma decode2_value p0 p1 :
  Z.lor (Z.shiftl (Z.land p0 utf8.mask2) 6) (Z.land p1 utf8.maskx)
  = (p0 mod 32) * 64 + p1 mod 64.
Proof.
  unfold utf8.mask2, utf8.maskx.
  rewrite land_31, land_63, Z.shiftl_mul_pow2 by lia.
  apply (lor_disjoint _ _ 6); [lia| |].
  - apply Z.mod_pos_bound. lia.
  - by exists (p0 mod 32).
Qed.

Lemma decode3_value p0 p1 p2 :
  Z.lor (Z.lor (Z.shiftl (Z.land p0 utf8.mask3) 12)
               (Z.shiftl (Z.land p1 utf8.maskx) 6))
        (Z.land p2 utf8.maskx)
  = (p0 mod 16) * 4096 + (p1 mod 64) * 64 + p2 mod 64.
Proof.
  unfold utf8.mask3, utf8.maskx.
  rewrite land_15, !land_63, !Z.shiftl_mul_pow2 by lia.
  pose proof (Z.mod_pos_bound p0 16).
  pose proof (Z.mod_pos_bound p1 64).
  pose proof (Z.mod_pos_bound p2 64).
  rewrite (lor_disjoint (p0 mod 16 * 2 ^ 12) _ 12);
    [|lia|lia|by exists (p0 mod 16)].
  rewrite (lor_disjoint _ _ 6); [lia|lia|lia|].
  exists (p0 mod 16 * 2 ^ 6 + p1 mod 64). lia.
Qed.

Lemma decode4_value p0 p1 p2 p3 :
  Z.lor (Z.lor (Z.lor (Z.shiftl (Z.land p0 utf8.mask4) 18)
                      (Z.shiftl (Z.land p1 utf8.maskx) 12))
               (Z.shiftl (Z.land p2 utf8.maskx) 6))
        (Z.land p3 utf8.maskx)
  = (p0 mod 8) * 262144 + (p1 mod 64) * 4096 + (p2 mod 64) * 64 + p3 mod 64.
Proof.
  unfold utf8.mask4, utf8.maskx.
  rewrite land_7, !land_63, !Z.shiftl_mul_pow2 by lia.
  pose proof (Z.mod_pos_bound p0 8).
  pose proof (Z.mod_pos_bound p1 64).
  pose proof (Z.mod_pos_bound p2 64).
  pose proof (Z.mod_pos_bound p3 64).
  rewrite (lor_disjoint (p0 mod 8 * 2 ^ 18) _ 18);
    [|lia|lia|by exists (p0 mod 8)].
  rewrite (lor_disjoint _ (p2 mod 64 * 2 ^ 6) 12); [|lia|lia|].
  2: { exists (p0 mod 8 * 2 ^ 6 + p1 mod 64). lia. }
  rewrite (lor_disjoint _ _ 6); [lia|lia|lia|].
  exists (p0 mod 8 * 2 ^ 12 + p1 mod 64 * 2 ^ 6 + p2 mod 64). lia.
Qed.

(* U+FFFD comes out of the decoder for an invalid byte (size 1), for the
   empty input (size 0) or for its own encoding EF BF BD. *)
Lemma DecodeRune_RuneError p s :
  utf8.DecodeRune p = (utf8.RuneError, s) ->
  (s <= 1)%nat
  \/ s = 3%nat /\ exists q, p = 0xEF :: 0xBF :: 0xBD :: q.
Proof.
  destruct p as [|p0 [|p1 [|p2 [|p3 p']]]].
  all: decode_cases.
  all: intros Heq; pose proof (f_equal fst Heq) as Hr;
       pose proof (f_equal snd Heq) as Hs; simpl in Hr, Hs; subst s;
       clear Heq; auto.
  all: unfold utf8.acceptRanges, utf8.locb, utf8.hicb, utf8.RuneError in *;
       simpl in *.
  all: rewrite ?decode2_value, ?decode3_value, ?decode4_value in Hr.
  all: try (exfalso; Z.div_mod_to_equations; lia).
  all: right; split; [done|]; eexists.
  all: repeat f_equal; Z.div_mod_to_equations; lia.
Qed.

(** * Valid code points *)

(* A decoded code point other than U+FFFD is read from its own bytes:
   what follows them does not matter. *)
Lemma DecodeRune_app_valid p q r s :
  utf8.DecodeRune p = (r, s) -> r <> utf8.RuneError ->
  utf8.DecodeRune (p ++ q) = (r, s).
Proof.
  intros Hd Hr. revert Hd.
  destruct p as [|p0 [|p1 [|p2 [|p3 p']]]].
  all: decode_cases.
  all: intros [= <- <-]; try done.
Qed.

Lemma DecodeRune_app_Valid p q r s :
  utf8.DecodeRune p = (r, s) -> r <> utf8.RuneError \/ s = 3%nat ->
  utf8.DecodeRune (p ++ q) = (r, s).
Proof.
  intros Hd [Hr| ->]; [by apply DecodeRune_app_valid|].
  destruct (Z.eq_dec r utf8.RuneError) as [->|Hr];
    [|by apply DecodeRune_app_valid].
  destruct (DecodeRune_RuneError _ _ Hd) as [Hle|[_ [p' ->]]]; [lia|].
  done.
Qed.

Lemma DecodeRune_take_app p q r s :
  utf8.DecodeRune p = (r, s) -> r <> utf8.RuneError ->
  utf8.DecodeRune (take s p ++ q) = (r, s).
Proof.
  intros Hd Hr. apply DecodeRune_app_valid; [|done].
  destruct p as [|c p0] eqn:Hp.
  { by injection Hd as <- <-. }
  rewrite <- Hp in *. assert (p <> []) as Hne by (by subst).
  destruct (DecodeRune_size _ _ _ Hne Hd) as [Hs1 Hs2].
  by apply DecodeRune_take.
Qed.

(* No byte of a valid code point is ESC, unless it is ESC itself. *)
Lemma DecodeRune_valid_noESC p r s :
  utf8.DecodeRune p = (r, s) -> r <> utf8.RuneError -> hd 0 p <> ESC ->
  ESC ∉ take s p.
Proof.
  intros Hd Hr Hhd. revert Hd.
  destruct p as [|p0 [|p1 [|p2 [|p3 p']]]].
  all: decode_cases.
  all: intros [= <- <-]; try done.
  all: cbn [take hd] in *; rewrite ?not_elem_of_cons.
  all: unfold utf8.acceptRanges, utf8.locb, utf8.hicb, ESC in *;
       simpl in *.
  all: repeat split; try apply not_elem_of_nil; try lia.
Qed.

(* The same for every code point read from a complete encoding, U+FFFD
   included. *)
Lemma DecodeRune_take_app_Valid p q r s :
  utf8.DecodeRune p = (r, s) -> r <> utf8.RuneError \/ s = 3%nat ->
  utf8.DecodeRune (take s p ++ q) = (r, s).
Proof.
  intros Hd Hv. apply DecodeRune_app_Valid; [|done].
  destruct p as [|c p0] eqn:Hp.
  { by injection Hd as <- <-. }
  rewrite <- Hp in *. assert (p <> []) as Hne by (by subst).
  destruct (DecodeRune_size _ _ _ Hne Hd) as [Hs1 Hs2].
  by apply DecodeRune_take.
Qed.

Lemma DecodeRune_Valid_noESC p r s :
  utf8.DecodeRune p = (r, s) -> r <> utf8.RuneError \/ s = 3%nat ->
  hd 0 p <> ESC -> ESC ∉ take s p.
Proof.
  intros Hd Hv Hhd.
  destruct (Z.eq_dec r utf8.RuneError) as [->|Hr];
    [|by eapply DecodeRune_valid_noESC].
  destruct (DecodeRune_RuneError _ _ Hd) as [Hle|[-> [p' ->]]].
  { destruct Hv as [Hv|Hv]; [done|lia]. }
  cbn [take]. rewrite !not_elem_of_cons. unfold ESC.
  repeat split; try lia. apply not_elem_of_nil.
Qed.

(** * Width accumulator: accumulation and sign *)

Lemma measureLoop_acc fn fuel b acc :
  measureLoop fuel fn b acc = acc + measureLoop fuel fn b 0.
Proof.
  revert b acc. induction fuel as [|fuel IH]; intros b acc; simpl; [lia|].
  destruct (0 <? length b)%nat; [|lia].
  destruct (skipANSI b) as [b'|]; [apply IH|].
  destruct (utf8.DecodeRune b) as [r size].
  destruct ((r =? utf8.RuneError) && (size =? 1)%nat).
  - rewrite IH, (IH _ (0 + 1)). lia.
  - rewrite IH, (IH _ (0 + fn r)). lia.
Qed.

Lemma measureLoop_nonneg fn fuel b acc :
  nonNegative fn -> 0 <= acc -> 0 <= measureLoop fuel fn b acc.
Proof.
  intros Hfn. revert b acc.
  induction fuel as [|fuel IH]; intros b acc Hacc; simpl; [done|].
  destruct (0 <? length b)%nat; [|done].
  destruct (skipANSI b) as [b'|]; [by apply IH|].
  destruct (utf8.DecodeRune b) as [r size].
  destruct ((r =? utf8.RuneError) && (size =? 1)%nat); apply IH.
  - lia.
  - specialize (Hfn r). lia.
Qed.

Lemma measure_nonneg fn cell : nonNegative fn -> 0 <= measure fn cell.
Proof. intros Hfn. by apply measureLoop_nonneg. Qed.

Lemma RuneWidth_nonNegative : nonNegative RuneWidth.
Proof. intros r. apply RuneWidth_range. Qed.

(** * Width accumulator: fuel and equations *)

Lemma skipCSIBody_length b : (length (skipCSIBody b) <= length b)%nat.
Proof.
  induction b as [|c b IH]; simpl; [done|].
  destruct (isFinalByte c); [lia|].
  destruct (isParamByte c); simpl; lia.
Qed.

Lemma skipANSI_length b b' :
  skipANSI b = Some b' -> (length b' + 2 <= length b)%nat.
Proof.
  unfold skipANSI. destruct b as [|c0 [|c1 b0]]; try done.
  destruct ((c0 =? ESC) && (c1 =? 0x5B)); [|done].
  intros [= <-]. pose proof (skipCSIBody_length b0). simpl. lia.
Qed.

Lemma skipANSI_head b :
  hd 0 b <> ESC -> skipANSI b = None.
Proof.
  unfold skipANSI. destruct b as [|c0 [|c1 b0]]; try done. simpl.
  intros Hne. destruct (Z.eqb_spec c0 ESC); done.
Qed.

Lemma measureLoop_fuel fn fuel1 fuel2 b acc :
  (length b <= fuel1)%nat -> (length b <= fuel2)%nat ->
  measureLoop fuel1 fn b acc = measureLoop fuel2 fn b acc.
Proof.
  revert fuel2 b acc.
  induction fuel1 as [|fuel1 IH]; intros fuel2 b acc H1 H2.
  - destruct b; [|simpl in H1; lia]. by destruct fuel2.
  - destruct fuel2 as [|fuel2].
    { destruct b; [done|simpl in H2; lia]. }
    simpl. destruct b as [|c b0] eqn:Hb; [done|]. rewrite <- Hb in *.
    assert (b <> []) as Hne by (by subst).
    replace (0 <? length b)%nat with true by (subst; done).
    destruct (skipANSI b) as [b'|] eqn:Hskip.
    + apply skipANSI_length in Hskip. apply IH; lia.
    + destruct (utf8.DecodeRune b) as [r size] eqn:Hd.
      destruct (DecodeRune_size _ _ _ Hne Hd) as [Hs1 Hs2].
      destruct ((r =? utf8.RuneError) && (size =? 1)%nat);
        apply IH; rewrite length_drop; lia.
Qed.

(* The equations of the width accumulator. *)
Lemma measure_nil fn : measure fn [] = 0.
Proof. done. Qed.

Lemma measure_skip fn b b' :
  skipANSI b = Some b' -> measure fn b = measure fn b'.
Proof.
  intros Hskip. unfold measure, MeasureWidthIgnoreANSIBytesCustom.
  pose proof (skipANSI_length _ _ Hskip) as Hlen.
  destruct b as [|c b0] eqn:Hb; [done|]. rewrite <- Hb in *.
  replace (length b) with (S (length b0)) by (by subst).
  simpl. replace (0 <? length b)%nat with true by (subst; done).
  rewrite Hskip. apply measureLoop_fuel; [|done].
  subst. simpl in Hlen. lia.
Qed.

Lemma measure_step fn b r size :
  b <> [] -> skipANSI b = None -> utf8.DecodeRune b = (r, size) ->
  measure fn b
  = stepWidth fn r size + measure fn (drop size b).
Proof.
  intros Hne Hskip Hd. unfold measure, MeasureWidthIgnoreANSIBytesCustom.
  destruct (DecodeRune_size _ _ _ Hne Hd) as [Hs1 Hs2].
  destruct b as [|c b0] eqn:Hb; [done|]. rewrite <- Hb in *.
  replace (length b) with (S (length b0)) by (by subst).
  simpl. replace (0 <? length b)%nat with true by (subst; done).
  rewrite Hskip, Hd. unfold stepWidth.
  assert (length b = S (length b0)) as Hlen by (by subst).
  destruct ((r =? utf8.RuneError) && (size =? 1)%nat) eqn:Hinv.
  - apply andb_true_iff in Hinv as [_ Hsz%Nat.eqb_eq]. subst size.
    rewrite measureLoop_acc.
    f_equal. apply measureLoop_fuel; rewrite length_drop; lia.
  - rewrite measureLoop_acc.
    f_equal. apply measureLoop_fuel; rewrite length_drop; lia.
Qed.

(** * Stripping, string width and well-formedness: fuel and equations *)

Lemma stripLoop_acc fuel b out :
  stripLoop fuel b out = out ++ stripLoop fuel b [].
Proof.
  revert b out. induction fuel as [|fuel IH]; intros b out; simpl.
  - by rewrite app_nil_r.
  - destruct b as [|c b']; [by rewrite app_nil_r|].
    destruct (skipANSI (c :: b')) as [b''|]; [apply IH|].
    rewrite IH, (IH _ ([] ++ [c])). by rewrite app_assoc.
Qed.

Lemma stripLoop_fuel fuel1 fuel2 b out :
  (length b <= fuel1)%nat -> (length b <= fuel2)%nat ->
  stripLoop fuel1 b out = stripLoop fuel2 b out.
Proof.
  revert fuel2 b out.
  induction fuel1 as [|fuel1 IH]; intros fuel2 b out H1 H2.
  - destruct b; [|simpl in H1; lia]. by destruct fuel2.
  - destruct fuel2 as [|fuel2].
    { destruct b; [done|simpl in H2; lia]. }
    simpl. destruct b as [|c b']; [done|].
    destruct (skipANSI (c :: b')) as [b''|] eqn:Hskip.
    + apply skipANSI_length in Hskip. simpl in *. apply IH; lia.
    + simpl in *. apply IH; lia.
Qed.

Lemma strip_nil : StripANSIBytes [] = [].
Proof. done. Qed.

Lemma strip_skip b b' :
  skipANSI b = Some b' -> StripANSIBytes b = StripANSIBytes b'.
Proof.
  intros Hskip. unfold StripANSIBytes.
  pose proof (skipANSI_length _ _ Hskip) as Hlen.
  destruct b as [|c b0]; [done|].
  cbn [length stripLoop]. rewrite Hskip.
  apply stripLoop_fuel; [|done]. simpl in Hlen. lia.
Qed.

Lemma strip_step c b :
  skipANSI (c :: b) = None ->
  StripANSIBytes (c :: b) = c :: StripANSIBytes b.
Proof.
  intros Hskip. unfold StripANSIBytes.
  cbn [length stripLoop]. rewrite Hskip.
  by rewrite stripLoop_acc.
Qed.

Lemma stringWidthLoop_acc fn fuel b acc :
  stringWidthLoop fuel fn b acc = acc + stringWidthLoop fuel fn b 0.
Proof.
  revert b acc. induction fuel as [|fuel IH]; intros b acc; simpl; [lia|].
  destruct (0 <? length b)%nat; [|lia].
  destruct (utf8.DecodeRune b) as [r size].
  destruct (r =? utf8.RuneError).
  - rewrite IH, (IH _ (0 + 1)). lia.
  - rewrite IH, (IH _ (0 + fn r)). lia.
Qed.

Lemma stringWidthLoop_fuel fn fuel1 fuel2 b acc :
  (length b <= fuel1)%nat -> (length b <= fuel2)%nat ->
  stringWidthLoop fuel1 fn b acc = stringWidthLoop fuel2 fn b acc.
Proof.
  revert fuel2 b acc.
  induction fuel1 as [|fuel1 IH]; intros fuel2 b acc H1 H2.
  - destruct b; [|simpl in H1; lia]. by destruct fuel2.
  - destruct fuel2 as [|fuel2].
    { destruct b; [done|simpl in H2; lia]. }
    simpl. destruct b as [|c b0] eqn:Hb; [done|]. rewrite <- Hb in *.
    assert (b <> []) as Hne by (by subst).
    replace (0 <? length b)%nat with true by (subst; done).
    destruct (utf8.DecodeRune b) as [r size] eqn:Hd.
    destruct (DecodeRune_size _ _ _ Hne Hd) as [Hs1 Hs2].
    destruct (r =? utf8.RuneError); apply IH; rewrite length_drop; lia.
Qed.

Lemma StringWidthBytesCustom_nil fn : StringWidthBytesCustom [] fn = 0.
Proof. done. Qed.

(* A valid code point other than U+FFFD counts with the width function. *)
Lemma StringWidthBytesCustom_step fn b r size :
  b <> [] -> utf8.DecodeRune b = (r, size) -> r <> utf8.RuneError ->
  StringWidthBytesCustom b fn = fn r + StringWidthBytesCustom (drop size b) fn.
Proof.
  intros Hne Hd Hr. unfold StringWidthBytesCustom.
  destruct (DecodeRune_size _ _ _ Hne Hd) as [Hs1 Hs2].
  destruct b as [|c b0] eqn:Hb; [done|]. rewrite <- Hb in *.
  assert (length b = S (length b0)) as Hlen by (by subst).
  rewrite Hlen. simpl.
  replace (0 <? length b)%nat with true by (subst; done).
  rewrite Hd. destruct (Z.eqb_spec r utf8.RuneError); [done|].
  rewrite stringWidthLoop_acc. f_equal.
  apply stringWidthLoop_fuel; rewrite length_drop; lia.
Qed.

(* U+FFFD from the decoder counts as one invalid byte in the loop over
   bytes, whatever its size. *)
Lemma StringWidthBytesCustom_error fn b size :
  b <> [] -> utf8.DecodeRune b = (utf8.RuneError, size) ->
  StringWidthBytesCustom b fn = 1 + StringWidthBytesCustom (drop 1 b) fn.
Proof.
  intros Hne Hd. unfold StringWidthBytesCustom.
  destruct b as [|c b0] eqn:Hb; [done|]. rewrite <- Hb in *.
  assert (length b = S (length b0)) as Hlen by (by subst).
  rewrite Hlen. simpl.
  replace (0 <? length b)%nat with true by (subst; done).
  rewrite Hd. simpl. rewrite stringWidthLoop_acc. f_equal.
  apply stringWidthLoop_fuel; rewrite length_drop; lia.
Qed.

Lemma DecodeRune_continuation c q :
  0x80 <= c < 0xC2 -> utf8.DecodeRune (c :: q) = (utf8.RuneError, 1%nat).
Proof.
  intros Hc. unfold utf8.DecodeRune, utf8.at_, utf8.first. simpl.
  destruct (Z.ltb_spec c 128); [lia|].
  destruct (Z.ltb_spec c 194); [done|lia].
Qed.

Lemma StringWidthBytesCustom_replacement fn q :
  StringWidthBytesCustom (0xEF :: 0xBF :: 0xBD :: q) fn
  = 3 + StringWidthBytesCustom q fn.
Proof.
  rewrite (StringWidthBytesCustom_error fn _ 3) by done. simpl drop.
  rewrite (StringWidthBytesCustom_error fn _ 1)
    by (done || by apply DecodeRune_continuation).
  simpl drop.
  rewrite (StringWidthBytesCustom_error fn _ 1)
    by (done || by apply DecodeRune_continuation).
  simpl drop. rewrite drop_0. lia.
Qed.

Lemma noReplacement_drop b n : noReplacement b -> noReplacement (drop n b).
Proof. intros H k q. rewrite drop_drop. apply H. Qed.

Lemma noReplacementb_sound b : noReplacementb b = true -> noReplacement b.
Proof.
  induction b as [|c b IH]; intros Hb k q.
  - by rewrite drop_nil.
  - cbn [noReplacementb] in Hb. apply andb_true_iff in Hb as [Hhd Htl].
    destruct k as [|k]; [|by apply IH].
    rewrite drop_0. intros Heq. injection Heq as -> ->. done.
Qed.

Lemma cleanLoop_fuel fuel1 fuel2 b :
  (length b <= fuel1)%nat -> (length b <= fuel2)%nat ->
  cleanLoop fuel1 b = cleanLoop fuel2 b.
Proof.
  revert fuel2 b.
  induction fuel1 as [|fuel1 IH]; intros fuel2 b H1 H2.
  - destruct b; [|simpl in H1; lia]. by destruct fuel2.
  - destruct fuel2 as [|fuel2].
    { destruct b; [done|simpl in H2; lia]. }
    simpl. destruct b as [|c b0] eqn:Hb; [done|].
    destruct (c =? ESC).
    + destruct b0 as [|c1 body]; [done|].
      f_equal. pose proof (skipCSIBody_length body).
      simpl in *. apply IH; lia.
    + rewrite <- Hb in *.
      assert (b <> []) as Hne by (by subst).
      destruct (utf8.DecodeRune b) as [r size] eqn:Hd.
      destruct (DecodeRune_size _ _ _ Hne Hd) as [Hs1 Hs2].
      f_equal. apply IH; rewrite length_drop; lia.
Qed.

(* The shape of a well-formed cell. *)
Lemma cleanCell_inv b :
  cleanCell b = true ->
  b = []
  \/ (exists body,
        b = ESC :: 0x5B :: body /\ csiClosed body = true
        /\ cleanCell (skipCSIBody body) = true)
  \/ (exists r size,
        hd 0 b <> ESC /\ b <> [] /\ utf8.DecodeRune b = (r, size)
        /\ (r <> utf8.RuneError \/ size = 3%nat)
        /\ cleanCell (drop size b) = true).
Proof.
  unfold cleanCell. destruct b as [|c b0] eqn:Hb; [by left|].
  intros Hclean. right. cbn [length cleanLoop] in Hclean.
  destruct (Z.eqb_spec c ESC) as [->|Hc].
  - left. destruct b0 as [|c1 body]; [done|].
    apply andb_true_iff in Hclean as [Hclean Hrest].
    apply andb_true_iff in Hclean as [Hc1%Z.eqb_eq Hclosed]. subst c1.
    exists body. split; [done|]. split; [done|].
    rewrite <- Hrest. pose proof (skipCSIBody_length body).
    apply cleanLoop_fuel; simpl; lia.
  - right. rewrite <- Hb in *.
    assert (b <> []) as Hne by (by subst).
    destruct (utf8.DecodeRune b) as [r size] eqn:Hd.
    destruct (DecodeRune_size _ _ _ Hne Hd) as [Hs1 Hs2].
    apply andb_true_iff in Hclean as [Hr Hrest].
    exists r, size. split; [by subst|]. split; [done|]. split; [done|].
    split.
    { destruct (Z.eq_dec r utf8.RuneError) as [->|]; [|by left].
      destruct (DecodeRune_RuneError _ _ Hd) as [Hle|[-> _]]; [|by right].
      assert (size = 1%nat) as -> by lia. done. }
    rewrite <- Hrest. assert (length b = S (length b0)) by (by subst).
    apply cleanLoop_fuel; rewrite length_drop; lia.
Qed.

(** * Column layout *)

Lemma measureRow_lookup fn i row widths k :
  measureRow fn i row widths !! k = rowMax fn i k row <$> widths !! k.
Proof.
  revert i widths. induction row as [|cell row IH]; intros i widths; simpl.
  - unfold rowMax. destruct (i <=? k)%nat; simpl.
    + by destruct (widths !! k).
    + by destruct (widths !! k).
  - rewrite IH. unfold rowMax.
    destruct (Nat.leb_spec (S i) k) as [Hlt|Hge].
    + (* the head cell sits below k *)
      destruct (Nat.leb_spec i k); [|lia].
      replace (k - i)%nat with (S (k - S i)) by lia. simpl.
      destruct (widths !! i) as [wi|] eqn:Hi; [|done].
      destruct (_ >? wi); [|done].
      by rewrite list_lookup_insert_ne by lia.
    + destruct (Nat.leb_spec i k) as [Hle|Hgt].
      * assert (k = i) as -> by lia. rewrite Nat.sub_diag. simpl.
        destruct (widths !! i) as [wi|] eqn:Hi; [|by rewrite Hi].
        fold (measure fn cell).
        destruct (Z.gtb_spec (measure fn cell) wi).
        -- rewrite list_lookup_insert_eq by (by eapply lookup_lt_Some).
           simpl. f_equal. lia.
        -- rewrite Hi. simpl. f_equal. lia.
      * destruct (widths !! i) as [wi|] eqn:Hi; [|done].
        destruct (_ >? wi); [|done].
        by rewrite list_lookup_insert_ne by lia.
Qed.

Lemma measureRows_lookup fn rs widths k :
  foldl (fun widths row => measureRow fn 0 row widths) widths rs !! k
  = rowsMax fn k rs <$> widths !! k.
Proof.
  unfold rowsMax. revert widths.
  induction rs as [|row rs IH]; intros widths; simpl.
  - by destruct (widths !! k).
  - rewrite IH, measureRow_lookup. by destruct (widths !! k).
Qed.

Lemma length_measureRow fn i row widths :
  length (measureRow fn i row widths) = length widths.
Proof.
  revert i widths. induction row as [|cell row IH]; intros i widths; simpl.
  - done.
  - rewrite IH. destruct (widths !! i); [|done].
    destruct (_ >? _); [|done]. by rewrite length_insert.
Qed.

Lemma length_measureRows fn rs widths :
  length (foldl (fun widths row => measureRow fn 0 row widths) widths rs)
  = length widths.
Proof.
  revert widths. induction rs as [|row rs IH]; intros widths; simpl; [done|].
  by rewrite IH, length_measureRow.
Qed.

Lemma clipLoop_Some i maxWs widths :
  (i + length maxWs <= length widths)%nat ->
  exists widths',
    clipLoop i maxWs widths = Some widths'
    /\ length widths' = length widths
    /\ forall k,
         widths' !! k =
         (fun wk => if (i <=? k)%nat then
                      match maxWs !! (k - i)%nat with
                      | Some maxWidth => clip maxWidth wk
                      | None => wk
                      end
                    else wk) <$> widths !! k.
Proof.
  revert i widths.
  induction maxWs as [|maxWidth maxWs IH]; intros i widths Hlen; simpl in *.
  - exists widths. repeat split. intros k.
    destruct (i <=? k)%nat; rewrite ?lookup_nil; by destruct (widths !! k).
  - set (widths1 :=
           if maxWidth >? 0 then
             match widths !! i with
             | Some wi => if wi >? maxWidth then <[i := maxWidth]> widths
                          else widths
             | None => widths
             end
           else widths).
    assert (length widths1 = length widths) as Hlen1.
    { unfold widths1. repeat case_match; by rewrite ?length_insert. }
    destruct (IH (S i) widths1) as (widths' & Hrun & Hlen' & Hk); [lia|].
    destruct (lookup_lt_is_Some_2 widths i) as [wi Hi]; [lia|].
    exists widths'. split; [|split].
    + destruct (maxWidth >? 0) eqn:Hpos; [|exact Hrun].
      rewrite Hi. unfold widths1 in Hrun. by rewrite Hi in Hrun.
    + lia.
    + intros k. rewrite Hk. unfold widths1.
      destruct (Nat.leb_spec (S i) k) as [Hlt|Hge].
      * destruct (Nat.leb_spec i k); [|lia].
        replace (k - i)%nat with (S (k - S i)) by lia. simpl.
        destruct (maxWidth >? 0); [|done]. rewrite Hi.
        destruct (wi >? maxWidth); [|done].
        by rewrite list_lookup_insert_ne by lia.
      * destruct (Nat.leb_spec i k) as [Hle|Hgt].
        -- assert (k = i) as -> by lia. rewrite Nat.sub_diag. simpl.
           unfold clip. rewrite Hi.
           destruct (maxWidth >? 0); simpl; [|by rewrite Hi].
           destruct (wi >? maxWidth); simpl; [|by rewrite Hi].
           rewrite list_lookup_insert_eq; [done|by eapply lookup_lt_Some].
        -- destruct (maxWidth >? 0); [|done]. rewrite Hi.
           destruct (wi >? maxWidth); [|done].
           by rewrite list_lookup_insert_ne by lia.
Qed.

Lemma foldr_max_init a b l :
  foldr Z.max (Z.max a b) l = Z.max b (foldr Z.max a l).
Proof. induction l as [|x l IH]; simpl; [lia|]. rewrite IH. lia. Qed.

Lemma foldr_max_ge a l : a <= foldr Z.max a l.
Proof. induction l as [|x l IH]; simpl; lia. Qed.

Lemma rowsMax_foldr fn k rs (f : list (list Z) -> Z) wk :
  (forall row w', In row rs -> wk <= w' ->
                  rowMax fn 0 k row w' = Z.max w' (f row)) ->
  rowsMax fn k rs wk = foldr Z.max wk (map f rs).
Proof.
  unfold rowsMax. revert wk.
  induction rs as [|row rs IH]; intros wk Hstep; simpl; [done|].
  rewrite (Hstep row wk) by (simpl; auto || lia).
  rewrite IH.
  - rewrite foldr_max_init. lia.
  - intros row' w' Hin Hle. apply Hstep; [by right|lia].
Qed.

Lemma rowsMax_widestCell t i header :
  (i < length (headers t))%nat ->
  rowsComplete t \/ nonNegative (widthFunc t) ->
  rowsMax (widthFunc t) i (rows t) (measure (widthFunc t) header)
  = widestCell t i header.
Proof.
  intros Hi Hrows. unfold widestCell. apply rowsMax_foldr.
  intros row w' Hin Hle. unfold rowMax. simpl. rewrite Nat.sub_0_r.
  destruct (row !! i) as [cell|] eqn:Hcell; [done|].
  destruct Hrows as [Hcomplete|Hfn].
  - unfold rowsComplete in Hcomplete.
    rewrite List.Forall_forall in Hcomplete.
    apply Hcomplete in Hin. apply lookup_ge_None in Hcell. lia.
  - pose proof (measure_nonneg _ header Hfn). lia.
Qed.

Lemma measureColumns_width_inv (t : Table) (i : nat) (header : list Z) :
  length (maxWidths t) = length (headers t) ->
  rowsComplete t \/ nonNegative (widthFunc t) ->
  headers t !! i = Some header ->
  exists widths,
    measureColumns t = Some widths
    /\ length widths = length (headers t)
    /\ widths !! i = Some (columnWidth t i header)
    /\ (measure (widthFunc t) header <= columnWidth t i header
        \/ exists maxWidth,
             maxWidths t !! i = Some maxWidth /\ 0 < maxWidth
             /\ columnWidth t i header = maxWidth).
Proof.
  intros Hmax Hrows Hheader.
  pose proof (lookup_lt_Some _ _ _ Hheader) as Hi.
  unfold measureColumns.
  destruct (Nat.eqb_spec (length (headers t)) 0) as [Hz|_]; [lia|].
  set (hw := map _ (headers t)).
  set (rw := foldl _ hw (rows t)).
  assert (length rw = length (headers t)) as Hrw.
  { unfold rw. rewrite length_measureRows. unfold hw. by rewrite length_map. }
  destruct (clipLoop_Some 0 (maxWidths t) rw) as (widths & Hrun & Hlen & Hk);
    [lia|].
  exists widths. split; [done|]. split; [lia|].
  destruct (lookup_lt_is_Some_2 (maxWidths t) i) as [maxWidth Hmw]; [lia|].
  assert (widths !! i
          = Some (clip maxWidth (widestCell t i header))) as Hwi.
  { rewrite Hk. unfold rw. rewrite measureRows_lookup. unfold hw.
    rewrite list_lookup_fmap, Hheader. simpl. rewrite Nat.sub_0_r, Hmw.
    fold (measure (widthFunc t) header).
    by rewrite rowsMax_widestCell. }
  pose proof (foldr_max_ge (measure (widthFunc t) header)
    (map (fun row : list (list Z) =>
            match row !! i with
            | Some cell => measure (widthFunc t) cell
            | None => 0
            end) (rows t))) as Hge.
  fold (widestCell t i header) in Hge.
  assert (columnWidth t i header = clip maxWidth (widestCell t i header))
    as Hcw.
  { unfold columnWidth, clip. rewrite Hmw.
    destruct (Z.ltb_spec 0 maxWidth), (Z.gtb_spec maxWidth 0); try lia;
      simpl; [|done].
    destruct (Z.gtb_spec (widestCell t i header) maxWidth); lia. }
  split; [by rewrite Hcw|].
  rewrite Hcw. unfold clip.
  destruct (Z.gtb_spec maxWidth 0); simpl; [|by left].
  destruct (Z.gtb_spec (widestCell t i header) maxWidth); [|by left].
  right. exists maxWidth. repeat split; [done|lia].
Qed.

(** C5. For every table built through the public interface, the computed
    width of column [i] is the widest of its header and of every row's
    cell at [i] (a missing cell counting 0), clipped down to the
    configured maximum of the column when that is positive; hence it is
    at least the measured width of the header unless it was clipped, and
    then it is the configured maximum. *)
Theorem measureColumns_width (hs : list (list Z)) (ops : list Op) (i : nat)
    (header : list Z) :
  let t := applyOps (New hs) ops in
  headers t !! i = Some header ->
  exists widths,
    measureColumns t = Some widths
    /\ length widths = length (headers t)
    /\ widths !! i = Some (columnWidth t i header)
    /\ (measure (widthFunc t) header <= columnWidth t i header
        \/ exists maxWidth,
             maxWidths t !! i = Some maxWidth /\ 0 < maxWidth
             /\ columnWidth t i header = maxWidth).
Proof.
  intros t Hheader.
  destruct (applyOps_inv (New hs) ops (New_inv hs)) as [_ Hmax Hrows].
  apply measureColumns_width_inv; [done|by left|done].
Qed.

Lemma measureColumns_width_witness :
  exists widths,
    measureColumns layoutExample = Some widths
    /\ length widths = 2%nat
    /\ widths !! 0%nat = Some 4
    /\ (4 <= 4 \/ exists maxWidth,
          maxWidths layoutExample !! 0%nat = Some maxWidth /\ 0 < maxWidth
          /\ 4 = maxWidth).
Proof.
  apply (measureColumns_width
           [bytesOf "Name"; bytesOf "Age"]
           [OpAddRow [VString "Alice"; VInt 30];
            OpAddRow [VString "Bob"; VInt 7];
            OpSetMaxWidth 0 4]
           0 (bytesOf "Name")).
  reflexivity.
Defined.

(** * Rendering *)

Lemma measureColumns_total t :
  length (maxWidths t) = length (headers t) ->
  exists widths, measureColumns t = Some widths.
Proof.
  intros Hmax. unfold measureColumns.
  destruct (length (headers t) =? 0)%nat; [by eexists|].
  edestruct (clipLoop_Some 0 (maxWidths t)) as (widths & Hrun & _);
    [|by eexists].
  rewrite length_measureRows, length_map. simpl. lia.
Qed.

(* The buffer taken from the pool is reset before use: the render does not
   depend on the pool. *)
Lemma Table_String_render t pool :
  length (headers t) <> 0%nat ->
  Table_String t pool =
  (fun buf => (buf, Pool_Put (snd (Pool_Get pool)) buf)) <$> renderTable t [].
Proof.
  intros Hh. unfold Table_String, renderTable.
  destruct (Nat.eqb_spec (length (headers t)) 0); [done|].
  destruct (Pool_Get pool) as [buf0 pool']. simpl.
  unfold Reset. destruct (measureColumns t) as [widths|]; [|done].
  by repeat case_match.
Qed.

Lemma Table_WriteTo_render t W w pool :
  length (headers t) <> 0%nat ->
  Table_WriteTo t W w pool =
  match renderTable t [] with
  | None => None
  | Some buf =>
      match Buffer_WriteTo W buf w with
      | None => None
      | Some (buf', w', written, err) =>
          Some (w', written, err, Pool_Put (snd (Pool_Get pool)) buf')
      end
  end.
Proof.
  intros Hh. unfold Table_WriteTo, renderTable.
  destruct (Nat.eqb_spec (length (headers t)) 0); [done|].
  destruct (Pool_Get pool) as [buf0 pool']. simpl.
  unfold Reset. destruct (measureColumns t) as [widths|]; [|done].
  by repeat case_match.
Qed.



(* A sink that fails is reported with the count it took; nothing is
   rolled back. *)
Lemma Buffer_WriteTo_failed W buf w w' m err :
  buf <> [] -> Write W w buf = (w', m, Some err) ->
  m <= Z.of_nat (length buf) ->
  Buffer_WriteTo W buf w = Some (drop (Z.to_nat m) buf, w', m, Some err).
Proof.
  intros Hne Hw Hm. unfold Buffer_WriteTo.
  destruct (Z.gtb_spec (Z.of_nat (length buf)) 0) as [_|Hle].
  - rewrite Hw. by destruct (Z.gtb_spec m (Z.of_nat (length buf))); [lia|].
  - destruct buf; [done|]. simpl in Hle. lia.
Qed.

Example WriteTo_full_sink :
  exists out pool,
    Table_WriteTo layoutExample (limitWriter 10) [] []
    = Some (out, 10, Some (ErrSink "no space left"), pool)
    /\ length out = 10%nat.
Proof. eexists _, _. split; reflexivity. Qed.


(** * Cells without escape bytes *)

(* The test for a given cell, by computation. *)
Lemma noESC_check (b : list Z) :
  forallb (fun c => negb (c =? ESC)) b = true -> ESC ∉ b.
Proof.
  induction b as [|c b IH]; simpl; intros H.
  - apply not_elem_of_nil.
  - apply andb_true_iff in H as [Hc Hb].
    apply not_elem_of_cons. split; [|by apply IH].
    destruct (Z.eqb_spec c ESC); [done|congruence].
Qed.

Lemma noESC_take (b : list Z) n : ESC ∉ b -> ESC ∉ take n b.
Proof.
  intros H. rewrite <- (take_drop n b) in H.
  by apply not_elem_of_app in H as [? _].
Qed.

Lemma noESC_drop (b : list Z) n : ESC ∉ b -> ESC ∉ drop n b.
Proof.
  intros H. rewrite <- (take_drop n b) in H.
  by apply not_elem_of_app in H as [_ ?].
Qed.

Lemma noESC_spaces n : ESC ∉ spaces n.
Proof. unfold spaces. intros H%elem_of_replicate_inv. discriminate. Qed.

Create HintDb noesc discriminated.
#[local] Hint Resolve noESC_take noESC_drop noESC_spaces : noesc.

Lemma noESC_skipANSI (b : list Z) : ESC ∉ b -> skipANSI b = None.
Proof.
  intros H. apply skipANSI_head. destruct b as [|c b]; [done|].
  apply not_elem_of_cons in H as [H _]. simpl. congruence.
Qed.

Lemma noESC_HasANSIBytes (b : list Z) : ESC ∉ b -> HasANSIBytes b = false.
Proof.
  induction b as [|c b IH]; intros H; [done|].
  cbn [HasANSIBytes]. rewrite noESC_skipANSI by done.
  apply IH. by apply not_elem_of_cons in H as [_ ?].
Qed.

(** * Escape sequences *)

Lemma skipANSI_CSI body :
  skipANSI (ESC :: 0x5B :: body) = Some (skipCSIBody body).
Proof. done. Qed.

Lemma skipCSIBody_app body q :
  csiClosed body = true ->
  skipCSIBody (body ++ q) = skipCSIBody body ++ q.
Proof.
  induction body as [|c body IH]; simpl; [done|].
  destruct (isFinalByte c); [done|].
  destruct (isParamByte c); [apply IH|done].
Qed.

Lemma HasANSIBytes_drop b n :
  HasANSIBytes b = false -> HasANSIBytes (drop n b) = false.
Proof.
  revert b. induction n as [|n IH]; intros b H; [by rewrite drop_0|].
  destruct b as [|c b]; [done|]. simpl. apply IH.
  cbn [HasANSIBytes] in H. by destruct (skipANSI (c :: b)).
Qed.

Lemma strip_app_noESC (p q : list Z) :
  ESC ∉ p -> StripANSIBytes (p ++ q) = p ++ StripANSIBytes q.
Proof.
  induction p as [|c p IH]; intros Hesc; [done|].
  apply not_elem_of_cons in Hesc as [Hc Hp].
  cbn [app]. rewrite strip_step.
  - by rewrite IH.
  - apply skipANSI_head. simpl. congruence.
Qed.

Lemma strip_noESC (b : list Z) : ESC ∉ b -> StripANSIBytes b = b.
Proof.
  intros Hesc. pose proof (strip_app_noESC b [] Hesc) as H.
  by rewrite strip_nil, !app_nil_r in H.
Qed.

(** * Padding *)

Lemma stepWidth_space fn : fn 32 = 1 -> stepWidth fn 32 1 = 1.
Proof. intros H. unfold stepWidth. simpl. done. Qed.

(* Spaces in front of a cell count one column each, whatever the cell. *)
Lemma measure_spaces_l fn n cell :
  fn 32 = 1 ->
  measure fn (replicate n 32 ++ cell) = Z.of_nat n + measure fn cell.
Proof.
  intros Hsp. induction n as [|n IH]; [simpl; lia|].
  cbn [replicate app].
  rewrite (measure_step fn _ 32 1%nat);
    [| done | by apply skipANSI_head |].
  - rewrite stepWidth_space by done. simpl drop. rewrite drop_0, IH. lia.
  - by apply DecodeRune_ascii.
Qed.

(* Spaces after a cell count one column each when the cell has no escape
   byte. *)
Lemma measure_spaces_r fn n (cell : list Z) :
  fn 32 = 1 -> ESC ∉ cell ->
  measure fn (cell ++ replicate n 32) = measure fn cell + Z.of_nat n.
Proof.
  intros Hsp.
  remember (length cell) as len eqn:Hlen. revert cell Hlen.
  induction len as [len IH] using lt_wf_ind. intros cell Hlen Hesc.
  destruct cell as [|c cell0] eqn:Hcell.
  { simpl. pose proof (measure_spaces_l fn n [] Hsp) as H.
    rewrite app_nil_r in H. rewrite H, measure_nil. lia. }
  rewrite <- Hcell in *. assert (cell <> []) as Hne by (by subst).
  destruct (utf8.DecodeRune cell) as [r size] eqn:Hd.
  destruct (DecodeRune_size _ _ _ Hne Hd) as [Hs1 Hs2].
  rewrite (measure_step fn cell r size) by (by try apply noESC_skipANSI).
  rewrite (measure_step fn (cell ++ replicate n 32) r size).
  - rewrite drop_app_le by done.
    rewrite (IH (length (drop size cell))); [lia| |done|].
    + rewrite length_drop. lia.
    + by apply noESC_drop.
  - by destruct cell.
  - apply skipANSI_head. subst cell. simpl.
    apply not_elem_of_cons in Hesc as [Hc _]. congruence.
  - destruct n as [|n]; [by rewrite app_nil_r|].
    cbn [replicate]. by rewrite DecodeRune_app_ascii.
Qed.

Lemma measure_spaces fn n :
  fn 32 = 1 -> 0 <= n -> measure fn (spaces n) = n.
Proof.
  intros Hsp Hn. unfold spaces.
  pose proof (measure_spaces_l fn (Z.to_nat n) [] Hsp) as H.
  rewrite app_nil_r in H. rewrite H, measure_nil. lia.
Qed.

(* A padded cell measures the target width. *)
Lemma padWithANSI_measure t (cell : list Z) w align :
  widthFunc t 32 = 1 ->
  ESC ∉ cell \/ align = AlignRight ->
  measure (widthFunc t) cell < w ->
  measure (widthFunc t)
    (padWithANSI t cell w (measure (widthFunc t) cell) align) = w.
Proof.
  intros Hsp Hesc Hlt. unfold padWithANSI.
  set (m := measure (widthFunc t) cell) in *.
  destruct (Z.leb_spec (w - m) 0); [lia|].
  destruct align.
  - destruct Hesc as [Hesc|]; [|done].
    unfold spaces. rewrite measure_spaces_r by done. fold m. lia.
  - destruct Hesc as [Hesc|]; [|done].
    assert (0 <= Z.quot (w - m) 2 <= w - m) as Hq.
    { split; [apply Z.quot_pos; lia|].
      apply Z.quot_le_upper_bound; lia. }
    unfold spaces. rewrite measure_spaces_l by done.
    rewrite measure_spaces_r by done. fold m. lia.
  - unfold spaces. rewrite measure_spaces_l by done. fold m. lia.
Qed.

(** * Truncation *)

Lemma stepWidth_RuneWidth r size : stepWidth RuneWidth r size = RuneWidth r.
Proof.
  unfold stepWidth.
  destruct (Z.eqb_spec r utf8.RuneError) as [->|]; [|done].
  by destruct (size =? 1)%nat.
Qed.

(* One run of the loop of TruncateToWidthBytes: it copies a prefix of the
   unread bytes, never exceeds the limit, and stops either at the end or
   in front of a code point that does not fit any more. *)
Lemma truncateLoop_run fuel maxWidth st :
  (length (rest st) <= fuel)%nat -> used st <= maxWidth ->
  exists k,
    (k <= length (rest st))%nat
    /\ rest (truncateLoop fuel maxWidth st) = drop k (rest st)
    /\ result (truncateLoop fuel maxWidth st) = result st ++ take k (rest st)
    /\ used st <= used (truncateLoop fuel maxWidth st) <= maxWidth
    /\ (drop k (rest st) = []
        \/ exists r size,
             utf8.DecodeRune (drop k (rest st)) = (r, size)
             /\ maxWidth < used (truncateLoop fuel maxWidth st) + RuneWidth r)
    /\ (ESC ∉ rest st ->
        used (truncateLoop fuel maxWidth st)
        = used st + measure RuneWidth (take k (rest st))).
Proof.
  revert st. induction fuel as [|fuel IH]; intros st Hfuel Hused.
  - exists 0%nat. destruct (rest st) eqn:Hrest; [|simpl in Hfuel; lia].
    simpl. rewrite Hrest, app_nil_r. repeat split; try lia; auto.
    intros _. rewrite measure_nil. lia.
  - cbn [truncateLoop].
    destruct (rest st) as [|c b0] eqn:Hb.
    { exists 0%nat. simpl. rewrite app_nil_r, Hb.
      repeat split; try lia; auto.
      intros _. rewrite measure_nil. lia. }
    rewrite <- Hb in *. set (b := rest st) in *.
    assert (b <> []) as Hne by (rewrite Hb; done).
    replace (0 <? length b)%nat with true by (rewrite Hb; done).
    destruct (utf8.DecodeRune b) as [r size] eqn:Hd.
    destruct (DecodeRune_size _ _ _ Hne Hd) as [Hs1 Hs2].
    pose proof (RuneWidth_range r) as Hrw.
    destruct (Z.gtb_spec (used st + RuneWidth r) maxWidth) as [Hbreak|Hfit].
    { exists 0%nat. rewrite drop_0, take_0, app_nil_r.
      repeat split; try lia.
      - right. exists r, size. split; [done|lia].
      - intros _. rewrite measure_nil. lia. }
    set (st1 := mkTrunc (drop size b) (used st + RuneWidth r)
                        (result st ++ take size b)).
    destruct (IH st1) as (k1 & Hk1 & Hrest & Hres & Hu & Hstop & Hmeas).
    { simpl. rewrite length_drop. lia. }
    { simpl. lia. }
    simpl in Hk1, Hrest, Hres, Hu, Hstop, Hmeas.
    rewrite length_drop in Hk1.
    exists (size + k1)%nat. split; [lia|].
    split; [by rewrite Hrest, drop_drop|].
    split; [by rewrite Hres, <- app_assoc, take_take_drop|].
    split; [lia|].
    split; [by rewrite <- drop_drop|].
    intros Hesc. rewrite Hmeas by (by apply noESC_drop).
    rewrite (measure_step RuneWidth (take (size + k1) b) r size).
    + rewrite stepWidth_RuneWidth, <- take_drop_commute. lia.
    + rewrite Hb. destruct size; [lia|done].
    + by apply noESC_skipANSI, noESC_take.
    + apply DecodeRune_take; [done|lia|lia].
Qed.

(* The outcome of TruncateToWidthBytes for a positive limit: a prefix of
   the bytes and never an ellipsis, since the loop stops with at most one
   column left. *)
Lemma TruncateToWidthBytes_run (b : list Z) maxWidth :
  0 < maxWidth ->
  exists k,
    TruncateToWidthBytes b maxWidth = take k b
    /\ (drop k b = []
        \/ exists r size,
             utf8.DecodeRune (drop k b) = (r, size)
             /\ (ESC ∉ b ->
                 maxWidth < measure RuneWidth (take k b) + RuneWidth r))
    /\ (ESC ∉ b -> measure RuneWidth (take k b) <= maxWidth).
Proof.
  intros Hpos. unfold TruncateToWidthBytes.
  destruct (Z.leb_spec maxWidth 0); [lia|].
  destruct (truncateLoop_run (length b) maxWidth (mkTrunc b 0 []))
    as (k & Hk & Hrest & Hres & Hu & Hstop & Hmeas); [done|simpl; lia|].
  simpl in Hk, Hrest, Hres, Hu, Hstop, Hmeas.
  set (st := truncateLoop (length b) maxWidth (mkTrunc b 0 [])) in *.
  exists k.
  assert ((0 <? length (rest st))%nat && (used st <=? maxWidth - 3) = false)
    as ->.
  { destruct Hstop as [Hend|(r & size & Hd & Hover)].
    - by rewrite Hrest, Hend.
    - pose proof (RuneWidth_range r).
      apply andb_false_iff. right. apply Z.leb_gt. lia. }
  split; [done|]. split.
  - destruct Hstop as [Hend|(r & size & Hd & Hover)]; [by left|].
    right. exists r, size. split; [done|].
    intros Hesc. rewrite Hmeas in Hover by done. lia.
  - intros Hesc. rewrite Hmeas in Hu by done. lia.
Qed.

Lemma TruncateToWidthBytes_prefix (b : list Z) maxWidth :
  TruncateToWidthBytes b maxWidth `prefix_of` b.
Proof.
  destruct (Z.leb_spec maxWidth 0) as [Hle|Hpos].
  - unfold TruncateToWidthBytes.
    destruct (Z.leb_spec maxWidth 0); [|lia]. apply prefix_nil.
  - destruct (TruncateToWidthBytes_run b maxWidth Hpos) as (k & -> & _).
    apply prefix_take.
Qed.

(* A cell that fits is copied whole. *)
Lemma truncateLoop_all fuel maxWidth st :
  (length (rest st) <= fuel)%nat -> ESC ∉ rest st ->
  used st + measure RuneWidth (rest st) <= maxWidth ->
  truncateLoop fuel maxWidth st
  = mkTrunc [] (used st + measure RuneWidth (rest st))
            (result st ++ rest st).
Proof.
  revert st. induction fuel as [|fuel IH]; intros st Hfuel Hesc Hfit.
  - destruct st as [b u res]. simpl in *.
    destruct b; [|simpl in Hfuel; lia].
    rewrite measure_nil, app_nil_r. f_equal. lia.
  - cbn [truncateLoop].
    destruct (rest st) as [|c b0] eqn:Hb.
    { destruct st as [b u res]. simpl in *. subst b.
      rewrite measure_nil, app_nil_r. f_equal. lia. }
    rewrite <- Hb in *. set (b := rest st) in *.
    assert (b <> []) as Hne by (rewrite Hb; done).
    replace (0 <? length b)%nat with true by (rewrite Hb; done).
    destruct (utf8.DecodeRune b) as [r size] eqn:Hd.
    destruct (DecodeRune_size _ _ _ Hne Hd) as [Hs1 Hs2].
    rewrite (measure_step RuneWidth b r size) in *
      by (by try apply noESC_skipANSI).
    rewrite stepWidth_RuneWidth in *.
    pose proof (measure_nonneg RuneWidth (drop size b) RuneWidth_nonNegative).
    destruct (Z.gtb_spec (used st + RuneWidth r) maxWidth); [lia|].
    rewrite IH; simpl.
    + rewrite <- app_assoc, take_drop. f_equal. lia.
    + rewrite length_drop. lia.
    + by apply noESC_drop.
    + lia.
Qed.

Lemma TruncateToWidthBytes_fits (b : list Z) maxWidth :
  0 < maxWidth -> ESC ∉ b -> measure RuneWidth b <= maxWidth ->
  TruncateToWidthBytes b maxWidth = b.
Proof.
  intros Hpos Hesc Hfit. unfold TruncateToWidthBytes.
  destruct (Z.leb_spec maxWidth 0); [lia|].
  rewrite truncateLoop_all by (simpl; done || lia).
  done.
Qed.

(** * Well-formed cells *)

Lemma cleanCell_ind (P : list Z -> Prop) :
  P [] ->
  (forall body,
     csiClosed body = true -> cleanCell (skipCSIBody body) = true ->
     P (skipCSIBody body) -> P (ESC :: 0x5B :: body)) ->
  (forall b r size,
     hd 0 b <> ESC -> b <> [] -> utf8.DecodeRune b = (r, size) ->
     r <> utf8.RuneError \/ size = 3%nat ->
     cleanCell (drop size b) = true ->
     P (drop size b) -> P b) ->
  forall b, cleanCell b = true -> P b.
Proof.
  intros Hnil Hseq Htext b.
  remember (length b) as len eqn:Hlen. revert b Hlen.
  induction len as [len IH] using lt_wf_ind. intros b Hlen Hclean.
  destruct (cleanCell_inv b Hclean)
    as [->|[(body & -> & Hclosed & Hrest)
           |(r & size & Hhd & Hne & Hd & Hr & Hrest)]].
  - done.
  - apply Hseq; [done|done|].
    apply (IH (length (skipCSIBody body))); [|done|done].
    pose proof (skipCSIBody_length body). simpl in Hlen. lia.
  - destruct (DecodeRune_size _ _ _ Hne Hd) as [Hs1 Hs2].
    apply (Htext b r size); try done.
    apply (IH (length (drop size b))); [|done|done].
    rewrite length_drop. lia.
Qed.

Lemma stepWidth_valid fn r size :
  r <> utf8.RuneError \/ size = 3%nat -> stepWidth fn r size = fn r.
Proof.
  intros [Hr| ->]; unfold stepWidth.
  - by destruct (Z.eqb_spec r utf8.RuneError).
  - by rewrite andb_false_r.
Qed.

(* The first code point of text, followed by anything. *)
Lemma measure_rune_app fn b r size q :
  hd 0 b <> ESC -> b <> [] -> utf8.DecodeRune b = (r, size) ->
  r <> utf8.RuneError \/ size = 3%nat ->
  measure fn (take size b ++ q) = fn r + measure fn q.
Proof.
  intros Hhd Hne Hd Hr.
  destruct (DecodeRune_size _ _ _ Hne Hd) as [Hs1 Hs2].
  rewrite (measure_step fn (take size b ++ q) r size).
  - rewrite stepWidth_valid by done.
    by rewrite drop_app_length' by (by rewrite length_take_le).
  - destruct b; [done|]. destruct size; [lia|done].
  - apply skipANSI_head. destruct b; [done|]. destruct size; [lia|done].
  - by apply DecodeRune_take_app_Valid.
Qed.

Lemma strip_rune b r size :
  hd 0 b <> ESC -> utf8.DecodeRune b = (r, size) ->
  r <> utf8.RuneError \/ size = 3%nat ->
  StripANSIBytes b = take size b ++ StripANSIBytes (drop size b).
Proof.
  intros Hhd Hd Hr.
  rewrite <- (take_drop size b) at 1.
  apply strip_app_noESC. by eapply DecodeRune_Valid_noESC.
Qed.

(* Stripping a well-formed cell leaves text without escape bytes ... *)
Lemma clean_strip_noESC b : cleanCell b = true -> ESC ∉ StripANSIBytes b.
Proof.
  revert b. apply cleanCell_ind.
  - rewrite strip_nil. apply not_elem_of_nil.
  - intros body Hclosed Hrest IH.
    by rewrite (strip_skip _ _ (skipANSI_CSI body)).
  - intros b r size Hhd Hne Hd Hr Hrest IH.
    rewrite (strip_rune b r size) by done.
    apply not_elem_of_app. split; [|done].
    by eapply DecodeRune_Valid_noESC.
Qed.

(* ... of the same measured width, ... *)
Lemma clean_measure_strip fn b :
  cleanCell b = true -> measure fn (StripANSIBytes b) = measure fn b.
Proof.
  revert b. apply cleanCell_ind.
  - done.
  - intros body Hclosed Hrest IH.
    rewrite (strip_skip _ _ (skipANSI_CSI body)).
    by rewrite (measure_skip fn _ _ (skipANSI_CSI body)).
  - intros b r size Hhd Hne Hd Hr Hrest IH.
    rewrite (strip_rune b r size) by done.
    rewrite (measure_rune_app fn b r size) by done.
    rewrite IH.
    rewrite (measure_step fn b r size);
      [by rewrite stepWidth_valid|done|by apply skipANSI_head|done].
Qed.

Lemma skipCSIBody_drop body : exists k, skipCSIBody body = drop k body.
Proof.
  induction body as [|c body [k IH]]; [by exists 0%nat|].
  cbn [skipCSIBody]. repeat case_match.
  - by exists 1%nat.
  - exists (S k). by rewrite IH.
  - exists (S (length body)). cbn [drop]. by rewrite drop_all.
Qed.

(* ... which StringWidthBytesCustom measures alike when U+FFFD does not
   occur in it, ... *)
Lemma clean_StringWidth_strip fn b :
  cleanCell b = true -> noReplacement b ->
  StringWidthBytesCustom (StripANSIBytes b) fn = measure fn b.
Proof.
  revert b.
  apply (cleanCell_ind
           (fun b => noReplacement b ->
                     StringWidthBytesCustom (StripANSIBytes b) fn
                     = measure fn b)).
  - done.
  - intros body Hclosed Hrest IH Hno.
    rewrite (strip_skip _ _ (skipANSI_CSI body)).
    rewrite (measure_skip fn _ _ (skipANSI_CSI body)).
    apply IH. destruct (skipCSIBody_drop body) as [k ->].
    apply (noReplacement_drop _ (S (S k)) Hno).
  - intros b r size Hhd Hne Hd Hv Hrest IH Hno.
    destruct (DecodeRune_size _ _ _ Hne Hd) as [Hs1 Hs2].
    assert (r <> utf8.RuneError) as Hr.
    { intros ->.
      destruct (DecodeRune_RuneError _ _ Hd) as [Hle|[_ [q Hq]]].
      - destruct Hv as [Hv|Hv]; [done|lia].
      - apply (Hno 0%nat q). by rewrite drop_0. }
    rewrite (strip_rune b r size) by done.
    rewrite (StringWidthBytesCustom_step fn _ r size).
    + rewrite drop_app_length' by (by rewrite length_take_le).
      rewrite IH by (by apply noReplacement_drop).
      rewrite (measure_step fn b r size);
        [by rewrite stepWidth_valid|done|by apply skipANSI_head|done].
    + destruct b; [done|]. destruct size; [lia|done].
    + by apply DecodeRune_take_app.
    + done.
Qed.

(* ... and never below its measure under the default width function: an
   encoded U+FFFD counts three columns there and one in the measure. *)
Lemma clean_StringWidth_strip_le b :
  cleanCell b = true ->
  measure RuneWidth b
  <= StringWidthBytesCustom (StripANSIBytes b) RuneWidth.
Proof.
  revert b. apply cleanCell_ind.
  - done.
  - intros body Hclosed Hrest IH.
    rewrite (strip_skip _ _ (skipANSI_CSI body)).
    by rewrite (measure_skip RuneWidth _ _ (skipANSI_CSI body)).
  - intros b r size Hhd Hne Hd Hv Hrest IH.
    destruct (DecodeRune_size _ _ _ Hne Hd) as [Hs1 Hs2].
    rewrite (strip_rune b r size) by done.
    rewrite (measure_step RuneWidth b r size);
      [|done|by apply skipANSI_head|done].
    rewrite stepWidth_valid by done.
    destruct (Z.eq_dec r utf8.RuneError) as [->|Hr].
    + destruct (DecodeRune_RuneError _ _ Hd) as [Hle|[-> [q Hq]]].
      { destruct Hv as [Hv|Hv]; [done|lia]. }
      subst b. change (drop 3 (239 :: 191 :: 189 :: q)) with q in *.
      change (take 3 (239 :: 191 :: 189 :: q)) with [239; 191; 189].
      cbn [app]. rewrite StringWidthBytesCustom_replacement.
      change (RuneWidth utf8.RuneError) with 1. lia.
    + rewrite (StringWidthBytesCustom_step RuneWidth _ r size).
      * rewrite drop_app_length' by (by rewrite length_take_le). lia.
      * destruct b; [done|]. destruct size; [lia|done].
      * by apply DecodeRune_take_app.
      * done.
Qed.

(* Spaces after a well-formed cell count one column each. *)
Lemma clean_measure_spaces_r fn n b :
  fn 32 = 1 -> cleanCell b = true ->
  measure fn (b ++ replicate n 32) = measure fn b + Z.of_nat n.
Proof.
  intros Hsp. revert b. apply cleanCell_ind.
  - simpl. pose proof (measure_spaces_l fn n [] Hsp) as H.
    rewrite app_nil_r in H. rewrite H, measure_nil. lia.
  - intros body Hclosed Hrest IH.
    rewrite (measure_skip fn _ _ (skipANSI_CSI body)).
    cbn [app]. rewrite (measure_skip fn _ _ (skipANSI_CSI _)).
    by rewrite skipCSIBody_app.
  - intros b r size Hhd Hne Hd Hr Hrest IH.
    destruct (DecodeRune_size _ _ _ Hne Hd) as [Hs1 Hs2].
    rewrite (measure_step fn b r size);
      [|done|by apply skipANSI_head|done].
    rewrite (measure_step fn (b ++ replicate n 32) r size).
    + rewrite drop_app_le by done. rewrite IH. lia.
    + by destruct b.
    + apply skipANSI_head. by destruct b.
    + by apply DecodeRune_app_Valid.
Qed.

(* A well-formed cell in which the scanner finds no sequence has no
   escape byte. *)
Lemma clean_HasANSIBytes b :
  cleanCell b = true -> HasANSIBytes b = false -> ESC ∉ b.
Proof.
  revert b.
  apply (cleanCell_ind (fun b => HasANSIBytes b = false -> ESC ∉ b)).
  - intros _. apply not_elem_of_nil.
  - intros body Hclosed Hrest IH Hhas. done.
  - intros b r size Hhd Hne Hd Hr Hrest IH Hhas.
    rewrite <- (take_drop size b). apply not_elem_of_app. split.
    + by eapply DecodeRune_Valid_noESC.
    + apply IH. by apply HasANSIBytes_drop.
Qed.

(** * Well-formed cells and padding *)

Lemma cleanLoop_seq fuel body :
  cleanLoop (S fuel) (ESC :: 0x5B :: body)
  = csiClosed body && cleanLoop fuel (skipCSIBody body).
Proof. done. Qed.

Lemma cleanLoop_text fuel b r size :
  hd 0 b <> ESC -> b <> [] -> utf8.DecodeRune b = (r, size) ->
  cleanLoop (S fuel) b
  = negb ((r =? utf8.RuneError) && (size =? 1)%nat)
    && cleanLoop fuel (drop size b).
Proof.
  intros Hhd Hne Hd. destruct b as [|c b0] eqn:Hb; [done|].
  rewrite <- Hb in *. cbn [cleanLoop]. rewrite Hb, <- Hb.
  destruct (Z.eqb_spec c ESC) as [->|_]; [by subst|].
  by rewrite Hd.
Qed.

Lemma clean_seq body :
  csiClosed body = true -> cleanCell (skipCSIBody body) = true ->
  cleanCell (ESC :: 0x5B :: body) = true.
Proof.
  intros Hclosed Hrest. unfold cleanCell. cbn [length].
  rewrite cleanLoop_seq, Hclosed. cbn [andb].
  rewrite <- Hrest. pose proof (skipCSIBody_length body).
  apply cleanLoop_fuel; lia.
Qed.

Lemma clean_text b r size :
  hd 0 b <> ESC -> b <> [] -> utf8.DecodeRune b = (r, size) ->
  r <> utf8.RuneError \/ size = 3%nat -> cleanCell (drop size b) = true ->
  cleanCell b = true.
Proof.
  intros Hhd Hne Hd Hr Hrest. unfold cleanCell.
  destruct (DecodeRune_size _ _ _ Hne Hd) as [Hs1 Hs2].
  destruct (length b) as [|len] eqn:Hlen; [lia|].
  rewrite (cleanLoop_text len b r size) by done.
  assert ((r =? utf8.RuneError) && (size =? 1)%nat = false) as ->.
  { destruct Hr as [Hr| ->]; [|by rewrite andb_false_r].
    by destruct (Z.eqb_spec r utf8.RuneError). }
  cbn [negb andb].
  rewrite <- Hrest. apply cleanLoop_fuel; rewrite length_drop; lia.
Qed.

Lemma clean_spaces_l n b :
  cleanCell b = true -> cleanCell (replicate n 32 ++ b) = true.
Proof.
  intros Hb. induction n as [|n IH]; [done|].
  cbn [replicate app].
  apply (clean_text _ 32 1%nat);
    [done|done|by apply DecodeRune_ascii|by left|done].
Qed.

Lemma csiClosed_app body q :
  csiClosed body = true -> csiClosed (body ++ q) = true.
Proof.
  induction body as [|c body IH]; simpl; [done|].
  destruct (isFinalByte c); [done|].
  destruct (isParamByte c); [apply IH|done].
Qed.

Lemma clean_spaces_r n b :
  cleanCell b = true -> cleanCell (b ++ replicate n 32) = true.
Proof.
  revert b. apply cleanCell_ind.
  - pose proof (clean_spaces_l n [] eq_refl) as H.
    by rewrite app_nil_r in H.
  - intros body Hclosed Hrest IH. cbn [app].
    apply clean_seq; [by apply csiClosed_app|].
    by rewrite skipCSIBody_app.
  - intros b r size Hhd Hne Hd Hr Hrest IH.
    destruct (DecodeRune_size _ _ _ Hne Hd) as [Hs1 Hs2].
    apply (clean_text _ r size).
    + by destruct b.
    + by destruct b.
    + by apply DecodeRune_app_Valid.
    + done.
    + by rewrite drop_app_le.
Qed.

(** * Cell formatting with the default width function *)

Lemma noESC_padWithANSI t (cell : list Z) w cur align :
  ESC ∉ cell -> ESC ∉ padWithANSI t cell w cur align.
Proof.
  intros Hesc. unfold padWithANSI.
  destruct (w - cur <=? 0); [done|].
  destruct align; rewrite ?not_elem_of_app;
    repeat split; auto with noesc.
Qed.

Lemma clean_padWithANSI t (cell : list Z) w cur align :
  cleanCell cell = true -> cleanCell (padWithANSI t cell w cur align) = true.
Proof.
  intros Hclean. unfold padWithANSI, spaces.
  destruct (w - cur <=? 0); [done|].
  destruct align; auto using clean_spaces_l, clean_spaces_r.
Qed.

Lemma regular_padWithANSI t (cell : list Z) w cur align :
  regularCell cell -> regularCell (padWithANSI t cell w cur align).
Proof.
  intros [Hesc|Hclean]; [left|right].
  - by apply noESC_padWithANSI.
  - by apply clean_padWithANSI.
Qed.

Lemma truncateWithANSI_noESC t (cell : list Z) w :
  ESC ∉ cell -> truncateWithANSI t cell w = TruncateToWidthBytes cell w.
Proof.
  intros Hesc. unfold truncateWithANSI.
  by rewrite noESC_HasANSIBytes.
Qed.

Lemma length_padWithANSI t (cell : list Z) w cur align :
  cur < w ->
  length (padWithANSI t cell w cur align)
  = (length cell + Z.to_nat (w - cur))%nat.
Proof.
  intros Hlt. unfold padWithANSI, spaces.
  destruct (Z.leb_spec (w - cur) 0); [lia|].
  assert (0 <= Z.quot (w - cur) 2 <= w - cur) as Hq.
  { split; [apply Z.quot_pos; lia|].
    apply Z.quot_le_upper_bound; lia. }
  destruct align; rewrite ?length_app, ?length_replicate; lia.
Qed.

Lemma regular_measure_spaces_r fn n (cell : list Z) :
  fn 32 = 1 -> regularCell cell ->
  measure fn (cell ++ replicate n 32) = measure fn cell + Z.of_nat n.
Proof.
  intros Hsp [Hesc|Hclean].
  - by apply measure_spaces_r.
  - by apply clean_measure_spaces_r.
Qed.

(* A padded cell measures the target width. *)
Lemma padWithANSI_regular t (cell : list Z) w align :
  widthFunc t 32 = 1 -> regularCell cell ->
  measure (widthFunc t) cell < w ->
  measure (widthFunc t)
    (padWithANSI t cell w (measure (widthFunc t) cell) align) = w.
Proof.
  intros Hsp Hreg Hlt. unfold padWithANSI.
  set (m := measure (widthFunc t) cell) in *.
  destruct (Z.leb_spec (w - m) 0); [lia|].
  assert (0 <= Z.quot (w - m) 2 <= w - m) as Hq.
  { split; [apply Z.quot_pos; lia|].
    apply Z.quot_le_upper_bound; lia. }
  unfold spaces.
  destruct align;
    rewrite ?measure_spaces_l, ?regular_measure_spaces_r by done;
    fold m; lia.
Qed.

(* What a cut of text without escape bytes measures. *)
Lemma TruncateToWidthBytes_measure (s : list Z) w :
  ESC ∉ s -> 0 < w -> w <= measure RuneWidth s ->
  exists k,
    TruncateToWidthBytes s w = take k s
    /\ (k <= length s)%nat
    /\ (measure RuneWidth (take k s) = w
        \/ measure RuneWidth (take k s) = w - 1
           /\ exists r size,
                utf8.DecodeRune (drop k s) = (r, size) /\ RuneWidth r = 2).
Proof.
  intros Hesc Hw Hge.
  destruct (TruncateToWidthBytes_run s w Hw) as (k & Hout & Hstop & Hle).
  specialize (Hle Hesc).
  destruct Hstop as [Hend|(r & size & Hd & Hover)].
  - assert (take k s = s) as Hall.
    { rewrite <- (take_drop k s) at 2. by rewrite Hend, app_nil_r. }
    rewrite Hall in *.
    exists (length s). rewrite take_ge by lia.
    split; [done|]. split; [lia|]. left. lia.
  - specialize (Hover Hesc). pose proof (RuneWidth_cases r) as Hr.
    exists (Nat.min k (length s)).
    assert (take (Nat.min k (length s)) s = take k s) as Htk.
    { destruct (Nat.le_ge_cases k (length s)).
      - by rewrite Nat.min_l.
      - by rewrite Nat.min_r, !take_ge by lia. }
    assert (drop (Nat.min k (length s)) s = drop k s) as Hdk.
    { destruct (Nat.le_ge_cases k (length s)).
      - by rewrite Nat.min_l.
      - by rewrite Nat.min_r, !drop_ge by lia. }
    rewrite Htk, Hdk. split; [done|]. split; [lia|].
    destruct (Z.eq_dec (measure RuneWidth (take k s)) w); [by left|].
    right. split; [lia|]. exists r, size. split; [done|lia].
Qed.

Lemma TruncateToWidthBytes_nonpositive (s : list Z) w :
  w <= 0 -> TruncateToWidthBytes s w = [].
Proof.
  intros Hw. unfold TruncateToWidthBytes.
  destruct (Z.leb_spec w 0); [done|lia].
Qed.

Lemma strict_regular (cell : list Z) : strictCell cell -> regularCell cell.
Proof. intros [Hesc|[Hclean _]]; [by left|by right]. Qed.

Lemma noReplacement_nil : noReplacement [].
Proof. intros k q. by rewrite drop_nil. Qed.

Lemma noReplacement_spaces_l n (b : list Z) :
  noReplacement b -> noReplacement (replicate n 32 ++ b).
Proof.
  intros Hb. induction n as [|n IH]; [done|].
  intros [|k] q; [done|]. apply (IH k q).
Qed.

Lemma noReplacement_spaces_r n (b : list Z) :
  noReplacement b -> noReplacement (b ++ replicate n 32).
Proof.
  induction b as [|c b IH]; intros Hb.
  { pose proof (noReplacement_spaces_l n [] noReplacement_nil) as H.
    by rewrite app_nil_r in H. }
  intros [|k] q.
  - rewrite drop_0. cbn [app]. intros Heq.
    destruct b as [|b1 [|b2 b']].
    + destruct n; done.
    + destruct n; done.
    + injection Heq as -> -> -> _. by apply (Hb 0%nat b').
  - apply (IH (noReplacement_drop _ 1 Hb) k q).
Qed.

Lemma strict_padWithANSI t (cell : list Z) w cur align :
  strictCell cell -> strictCell (padWithANSI t cell w cur align).
Proof.
  intros [Hesc|[Hclean Hno]]; [left; by apply noESC_padWithANSI|right].
  split; [by apply clean_padWithANSI|].
  unfold padWithANSI, spaces.
  destruct (w - cur <=? 0); [done|].
  destruct align;
    auto using noReplacement_spaces_l, noReplacement_spaces_r.
Qed.

Section DefaultWidth.

Variable t : Table.
Hypothesis Hfn : widthFunc t = DefaultWidthFunc.

(* What alignCell returns for a regular cell under the default width
   function: the padded cell, the cell itself, or a cut of its text. *)
Lemma alignCell_cases (cell : list Z) w align :
  regularCell cell ->
  (measure RuneWidth cell < w ->
   alignCell t cell w align
   = padWithANSI t cell w (measure RuneWidth cell) align
   /\ measure RuneWidth (alignCell t cell w align) = w)
  /\ (w <= measure RuneWidth cell ->
      (alignCell t cell w align = cell /\ measure RuneWidth cell = w)
      \/ exists k,
           alignCell t cell w align = take k (StripANSIBytes cell)
           /\ (ESC ∉ StripANSIBytes cell)
           /\ (w <= 0 /\ k = 0%nat
               \/ 0 < w
                  /\ (measure RuneWidth (take k (StripANSIBytes cell)) = w
                      \/ measure RuneWidth (take k (StripANSIBytes cell))
                         = w - 1
                         /\ exists r size,
                              utf8.DecodeRune
                                (drop k (StripANSIBytes cell)) = (r, size)
                              /\ RuneWidth r = 2))).
Proof.
  intros Hreg. unfold alignCell. rewrite Hfn.
  fold (measure DefaultWidthFunc cell). unfold DefaultWidthFunc.
  split; intros Hcmp.
  - destruct (Z.geb_spec (measure RuneWidth cell) w); [lia|].
    split; [done|].
    pose proof (padWithANSI_regular t cell w align) as Hpad.
    rewrite Hfn in Hpad. unfold DefaultWidthFunc in Hpad.
    by apply Hpad.
  - destruct (Z.geb_spec (measure RuneWidth cell) w); [|lia].
    (* the text that is cut, and its width *)
    assert ((ESC ∉ StripANSIBytes cell)
            /\ measure RuneWidth (StripANSIBytes cell)
               = measure RuneWidth cell
            /\ (HasANSIBytes cell = false -> StripANSIBytes cell = cell)
            /\ (HasANSIBytes cell = true ->
                measure RuneWidth cell
                <= StringWidthBytesCustom (StripANSIBytes cell) RuneWidth))
      as (Hsesc & Hsm & Hplain & Hansi).
    { destruct Hreg as [Hesc|Hclean].
      - rewrite strip_noESC by done. repeat split; [done|].
        intros Hhas. by rewrite noESC_HasANSIBytes in Hhas.
      - split; [by apply clean_strip_noESC|].
        split; [by apply clean_measure_strip|].
        split.
        + intros Hhas. apply strip_noESC. by apply clean_HasANSIBytes.
        + intros _. by apply clean_StringWidth_strip_le. }
    assert (truncateWithANSI t cell w = cell /\ measure RuneWidth cell = w
            \/ truncateWithANSI t cell w
               = TruncateToWidthBytes (StripANSIBytes cell) w) as [Hsame|Hcut].
    { unfold truncateWithANSI.
      destruct (HasANSIBytes cell) eqn:Hhas; simpl.
      - rewrite Hfn. unfold DefaultWidthFunc. specialize (Hansi eq_refl).
        destruct (Z.leb_spec
                    (StringWidthBytesCustom (StripANSIBytes cell) RuneWidth)
                    w); [left|by right].
        split; [done|lia].
      - right. by rewrite Hplain. }
    { by left. }
    right. rewrite Hcut.
    destruct (Z.le_gt_cases w 0) as [Hle|Hpos].
    { exists 0%nat. rewrite TruncateToWidthBytes_nonpositive by done.
      split; [done|]. split; [done|]. by left. }
    destruct (TruncateToWidthBytes_measure (StripANSIBytes cell) w)
      as (k & Hout & Hk & Hm); [done|done|lia|].
    exists k. split; [done|]. split; [done|]. right. by split.
Qed.

Lemma strict_alignCell (cell : list Z) w align :
  strictCell cell -> strictCell (alignCell t cell w align).
Proof.
  intros Hstrict. pose proof (strict_regular cell Hstrict) as Hreg.
  destruct (alignCell_cases cell w align Hreg) as [Hpad Htrunc].
  destruct (Z.lt_ge_cases (measure RuneWidth cell) w) as [Hlt|Hge].
  - destruct (Hpad Hlt) as [-> _]. by apply strict_padWithANSI.
  - destruct (Htrunc Hge) as [[-> _]|(k & -> & Hesc & _)]; [done|].
    left. by apply noESC_take.
Qed.

Lemma regular_alignCell (cell : list Z) w align :
  regularCell cell ->
  regularCell (alignCell t cell w align).
Proof.
  intros Hreg.
  destruct (alignCell_cases cell w align Hreg) as [Hpad Htrunc].
  destruct (Z.lt_ge_cases (measure RuneWidth cell) w) as [Hlt|Hge].
  - destruct (Hpad Hlt) as [-> _]. by apply regular_padWithANSI.
  - destruct (Htrunc Hge) as [[-> _]|(k & -> & Hesc & _)]; [done|].
    left. by apply noESC_take.
Qed.

(* A cell that already measures the target width comes back unchanged. *)
Lemma alignCell_exact (cell : list Z) w align :
  strictCell cell -> 0 < w ->
  measure RuneWidth cell = w ->
  alignCell t cell w align = cell.
Proof.
  intros Hreg Hw Hm. unfold alignCell. rewrite Hfn.
  fold (measure DefaultWidthFunc cell). unfold DefaultWidthFunc.
  destruct (Z.geb_spec (measure RuneWidth cell) w); [|lia].
  unfold truncateWithANSI.
  destruct (HasANSIBytes cell) eqn:Hhas; simpl.
  - destruct Hreg as [Hesc|[Hclean Hno]].
    { by rewrite noESC_HasANSIBytes in Hhas. }
    rewrite Hfn. unfold DefaultWidthFunc.
    rewrite clean_StringWidth_strip by done.
    destruct (Z.leb_spec (measure RuneWidth cell) w); [done|lia].
  - apply TruncateToWidthBytes_fits; [done| |lia].
    destruct Hreg as [Hesc|[Hclean Hno]]; [done|by apply clean_HasANSIBytes].
Qed.

Lemma alignCell_nil_nonpositive w align :
  w <= 0 -> alignCell t [] w align = [].
Proof.
  intros Hw. unfold alignCell. rewrite Hfn.
  fold (measure DefaultWidthFunc []). rewrite measure_nil.
  destruct (Z.geb_spec 0 w); [|lia].
  unfold truncateWithANSI. simpl.
  by apply TruncateToWidthBytes_nonpositive.
Qed.

End DefaultWidth.

(** C1 (as stated, refuted). A cell of four wide code points (width 8)
    formatted to width 7 is cut after the third: the result measures 6.
    Every code point of the cell has width 2, so 7 lies above any minimum
    width at which the cell can be rendered. *)
Lemma alignCell_width_not_exact :
  measure RuneWidth wideCell = 8
  /\ alignCell (New []) wideCell 7 AlignLeft = zhong ++ zhong ++ zhong
  /\ measure RuneWidth (alignCell (New []) wideCell 7 AlignLeft) <> 7.
Proof. repeat split. vm_compute. discriminate. Qed.

(** C1 (amended). For every cell that has no escape byte or is well formed
    (every escape byte begins a complete CSI sequence and the bytes
    outside the sequences are valid UTF-8), every alignment and every
    target width [w] from 0 to the largest int: under any width function
    that gives the space width 1, a cell narrower than [w], the missing
    columns being an int, is padded to measure exactly [w]; under the
    default width function, a cell at least as wide as [w] comes out
    measuring [w] or [w - 1], and exactly [w] when none of its code points
    is wide. *)
Theorem alignCell_width (t : Table) (cell : list Z) (w : Z) (align : Align) :
  regularCell cell -> 0 <= w <= MaxInt ->
  (widthFunc t 32 = 1 -> measure (widthFunc t) cell < w ->
   w - measure (widthFunc t) cell <= MaxInt ->
   measure (widthFunc t) (alignCell t cell w align) = w)
  /\ (widthFunc t = DefaultWidthFunc -> w <= measure RuneWidth cell ->
      measure RuneWidth (alignCell t cell w align) = w
      \/ measure RuneWidth (alignCell t cell w align) = w - 1)
  /\ (widthFunc t = DefaultWidthFunc -> w <= measure RuneWidth cell ->
      narrowText cell ->
      measure RuneWidth (alignCell t cell w align) = w).
Proof.
  intros Hreg Hw. split; [|split].
  - intros Hsp Hlt _. unfold alignCell.
    fold (measure (widthFunc t) cell).
    destruct (Z.geb_spec (measure (widthFunc t) cell) w); [lia|].
    by apply padWithANSI_regular.
  - intros Hfn Hge.
    destruct (alignCell_cases t Hfn cell w align Hreg) as [_ Htrunc].
    destruct (Htrunc Hge)
      as [[-> Hm]|(k & -> & _ & [[Hle ->]|[_ [Hm|[Hm _]]]])]; auto.
    left. rewrite take_0, measure_nil. lia.
  - intros Hfn Hge Hnarrow.
    destruct (alignCell_cases t Hfn cell w align Hreg) as [_ Htrunc].
    destruct (Htrunc Hge)
      as [[-> Hm]
         |(k & -> & _ & [[Hle ->]|[_ [Hm|[_ (r & size & Hd & Hr)]]]])];
      [done| |done|].
    + rewrite take_0, measure_nil. lia.
    + specialize (Hnarrow k). rewrite Hd in Hnarrow. simpl in Hnarrow. lia.
Qed.

Lemma alignCell_width_witness :
  measure RuneWidth (alignCell (New []) redReplacement 3 AlignLeft) = 3
  /\ measure RuneWidth (alignCell (New []) greenOK 5 AlignCenter) = 5
  /\ (measure RuneWidth (alignCell (New []) wideCell 7 AlignLeft) = 7
      \/ measure RuneWidth (alignCell (New []) wideCell 7 AlignLeft) = 7 - 1).
Proof.
  split; [|split].
  - refine (proj1 (alignCell_width (New []) redReplacement 3 AlignLeft _ _)
              _ _ _).
    + right. reflexivity.
    + unfold MaxInt. lia.
    + reflexivity.
    + vm_compute. reflexivity.
    + vm_compute. discriminate.
  - refine (proj1 (alignCell_width (New []) greenOK 5 AlignCenter _ _) _ _ _).
    + right. reflexivity.
    + unfold MaxInt. lia.
    + reflexivity.
    + vm_compute. reflexivity.
    + vm_compute. discriminate.
  - refine (proj1 (proj2 (alignCell_width (New []) wideCell 7 AlignLeft _ _))
              _ _).
    + left. apply noESC_check. reflexivity.
    + unfold MaxInt. lia.
    + reflexivity.
    + vm_compute. discriminate.
Defined.

(** C6 (as stated, refuted). Formatting the cell of four wide code points
    to width 7 cuts it to three of them (width 6); formatting that result
    again to width 7 pads it with a space. *)
Lemma alignCell_not_idempotent :
  alignCell (New []) (alignCell (New []) wideCell 7 AlignLeft) 7 AlignLeft
  <> alignCell (New []) wideCell 7 AlignLeft.
Proof. vm_compute. discriminate. Qed.

(** C6 (amended). Under the default width function, for every cell that
    has no escape byte, or is well formed (every escape byte begins a
    complete CSI sequence and the bytes outside the sequences are valid
    UTF-8) and does not hold the code point U+FFFD, formatting the
    formatted cell again with the same width and alignment returns it
    unchanged exactly when it already measures the target width (or the
    width is negative); this is always so when the cell is narrower than
    the target, so padding is idempotent. *)
Theorem alignCell_idempotent (t : Table) (cell : list Z) (w : Z)
    (align : Align) :
  widthFunc t = DefaultWidthFunc -> strictCell cell ->
  (alignCell t (alignCell t cell w align) w align = alignCell t cell w align
   <-> w < 0 \/ measure RuneWidth (alignCell t cell w align) = w)
  /\ (measure RuneWidth cell < w ->
      alignCell t (alignCell t cell w align) w align
      = alignCell t cell w align).
Proof.
  intros Hfn Hstrict. pose proof (strict_regular cell Hstrict) as Hreg.
  pose proof (regular_alignCell t Hfn cell w align Hreg) as Hreg'.
  pose proof (strict_alignCell t Hfn cell w align Hstrict) as Hstrict'.
  pose proof (measure_nonneg RuneWidth cell RuneWidth_nonNegative) as Hnn.
  destruct (alignCell_cases t Hfn cell w align Hreg) as [Hpad Htrunc].
  assert (w <= 0 ->
          alignCell t (alignCell t cell w align) w align
          = alignCell t cell w align) as Hsmall.
  { intros Hle.
    destruct Htrunc as [[Hout _]|(k & Hout & _ & [[_ ->]|[Hpos _]])];
      [lia| | |lia].
    - by rewrite !Hout.
    - rewrite Hout, take_0. by apply alignCell_nil_nonpositive. }
  assert (0 < w -> measure RuneWidth (alignCell t cell w align) = w ->
          alignCell t (alignCell t cell w align) w align
          = alignCell t cell w align) as Hexact.
  { intros Hpos Hm. by apply alignCell_exact. }
  split; [split|].
  - (* only an exact width is stable *)
    intros Hidem.
    destruct (Z.lt_ge_cases w 0) as [|Hw]; [by left|]. right.
    destruct (Z.lt_ge_cases (measure RuneWidth cell) w) as [Hlt|Hge].
    { by apply Hpad. }
    destruct (Htrunc Hge)
      as [[Hout Hm]|(k & Hout & _ & [[Hle ->]|[Hpos [Hm|[Hm _]]]])].
    + by rewrite Hout.
    + rewrite Hout, take_0, measure_nil. lia.
    + by rewrite Hout.
    + exfalso. rewrite Hout in Hidem, Hreg'.
      destruct (alignCell_cases t Hfn _ w align Hreg') as [Hpad' _].
      destruct Hpad' as [Hagain _]; [lia|].
      rewrite Hagain in Hidem.
      apply (f_equal length) in Hidem.
      rewrite length_padWithANSI in Hidem; lia.
  - intros [Hneg|Hm].
    + apply Hsmall. lia.
    + destruct (Z.le_gt_cases w 0); [by apply Hsmall|by apply Hexact].
  - intros Hlt. apply Hexact; [lia|]. by apply Hpad.
Qed.

Lemma alignCell_idempotent_witness :
  alignCell (New []) (alignCell (New []) greenOK 5 AlignRight) 5 AlignRight
  = alignCell (New []) greenOK 5 AlignRight.
Proof.
  refine (proj2 (alignCell_idempotent (New []) greenOK 5 AlignRight _ _) _).
  - reflexivity.
  - right. split; [reflexivity|]. by apply noReplacementb_sound.
  - vm_compute. reflexivity.
Defined.

(* Why the two properties above are stated for well-formed cells: a cell
   that ends inside an escape sequence swallows the padding that follows
   it, since the scanner reads on to the end of the buffer; ... *)
Remark alignCell_unterminated_escape :
  measure RuneWidth openRed = 2
  /\ alignCell (New []) openRed 5 AlignLeft = openRed ++ spaces 3
  /\ measure RuneWidth (alignCell (New []) openRed 5 AlignLeft) = 2.
Proof. repeat split. Qed.

(* ... and a code point split by a sequence is three invalid bytes to the
   measure and one wide code point to the test for truncation, so that
   the cell, three columns wide, stays as it is in a column of two. *)
Remark alignCell_split_code_point :
  measure RuneWidth splitZhong = 3
  /\ alignCell (New []) splitZhong 2 AlignLeft = splitZhong.
Proof. repeat split. Qed.

(* Why idempotence is stated for cells without U+FFFD: the test for
   truncation counts an encoded U+FFFD as three invalid bytes, so a
   coloured U+FFFD padded to three columns is taken for too wide by the
   second pass, which returns its text without the colours. *)
Remark alignCell_replacement_repadded :
  measure RuneWidth (alignCell (New []) redReplacement 3 AlignLeft) = 3
  /\ alignCell (New []) (alignCell (New []) redReplacement 3 AlignLeft) 3
       AlignLeft
     = [0xEF; 0xBF; 0xBD; 32; 32]
  /\ alignCell (New []) (alignCell (New []) redReplacement 3 AlignLeft) 3
       AlignLeft
     <> alignCell (New []) redReplacement 3 AlignLeft.
Proof. repeat split. vm_compute. discriminate. Qed.

(** * The ellipsis and the configured width function *)

(* The cut of a cell without escape sequences does not depend on the width
   function of the table. *)
Lemma truncateWithANSI_widthFunc t fn (cell : list Z) w :
  HasANSIBytes cell = false ->
  truncateWithANSI (SetWidthFunc t fn) cell w = truncateWithANSI t cell w.
Proof. intros H. unfold truncateWithANSI. by rewrite H. Qed.

(** C2 (evaluation at the failing input). With a width function that gives
    every code point width 2 and a maximum of 4 on the column of header
    "abcd", the column is laid out 4 wide, but the cell is cut with
    RuneWidth and keeps all of "abcd", which the configured function
    measures as 8; cut with the configured function it is "ab". *)
Theorem truncation_uses_RuneWidth :
  measureColumns customExample = Some [4]
  /\ alignCell customExample (bytesOf "abcd") 4 AlignLeft = bytesOf "abcd"
  /\ measure (widthFunc customExample)
       (alignCell customExample (bytesOf "abcd") 4 AlignLeft) = 8
  /\ specTruncate (widthFunc customExample) (bytesOf "abcd") 4 = bytesOf "ab"
  /\ Table_String customExample []
     = Some (bytesOf "+------+" ++ [10] ++
             bytesOf "| abcd |" ++ [10] ++
             bytesOf "+------+" ++ [10] ++
             bytesOf "+------+" ++ [10],
             [bytesOf "+------+" ++ [10] ++
              bytesOf "| abcd |" ++ [10] ++
              bytesOf "+------+" ++ [10] ++
              bytesOf "+------+" ++ [10]]).
Proof. repeat split. Qed.

(** C3 (evaluation at the failing input). With a maximum of 5 on a column
    holding "Supercalifragilistic" the column is 5 wide and the cell is
    rendered as "Super": the loop fills all five columns, so the test for
    three free columns fails and no ellipsis is appended. *)
Theorem max_width_scenario_no_ellipsis :
  measureColumns truncExample = Some [5]
  /\ alignCell truncExample longWord 5 AlignLeft = bytesOf "Super"
  /\ alignCell truncExample longWord 5 AlignLeft <> bytesOf "Su..."
  /\ Table_String truncExample []
     = Some (bytesOf "+-------+" ++ [10] ++
             bytesOf "| Word  |" ++ [10] ++
             bytesOf "+-------+" ++ [10] ++
             bytesOf "| Super |" ++ [10] ++
             bytesOf "+-------+" ++ [10],
             [bytesOf "+-------+" ++ [10] ++
              bytesOf "| Word  |" ++ [10] ++
              bytesOf "+-------+" ++ [10] ++
              bytesOf "| Super |" ++ [10] ++
              bytesOf "+-------+" ++ [10]]).
Proof. repeat split. vm_compute. discriminate. Qed.

(** * The rune predicates and the tables *)

Lemma wideRanges_start : Forall (fun rang => 0x80 <= start rang) wideRanges.
Proof. unfold wideRanges. repeat constructor; simpl; lia. Qed.

Lemma zeroWidthRanges_start :
  Forall (fun rang => 0x80 <= start rang) zeroWidthRanges.
Proof. unfold zeroWidthRanges. repeat constructor; simpl; lia. Qed.

Lemma inRange_start r rang : inRange r rang = true -> start rang <= r.
Proof. unfold inRange. intros [H _]%andb_true_iff. lia. Qed.

Lemma find_inRange_None r rs :
  find (inRange r) rs = None <-> forall rang, In rang rs -> inRange r rang = false.
Proof.
  split.
  - intros Hnone rang Hin.
    destruct (inRange r rang) eqn:Hr; [|done].
    by rewrite (find_none _ _ Hnone rang Hin) in Hr.
  - intros Hall. destruct (find (inRange r) rs) as [rang|] eqn:Hf; [|done].
    apply find_some in Hf as [Hin Hr]. by rewrite (Hall rang Hin) in Hr.
Qed.

Lemma find_inRange_Some r rs rang :
  In rang rs -> inRange r rang = true ->
  exists rang', find (inRange r) rs = Some rang'.
Proof.
  intros Hin Hr. destruct (find (inRange r) rs) as [rang'|] eqn:Hf;
    [by eexists|].
  by rewrite (find_none _ _ Hf rang Hin) in Hr.
Qed.

Lemma zero_wide_disjoint : mutuallyDisjoint zeroWidthRanges wideRanges.
Proof.
  apply nonOverlapping_app_disjoint, pairwiseDisjoint_sound,
    allRanges_disjoint.
Qed.

(* RuneWidth read off the tables. *)
Lemma RuneWidth_wide_iff r :
  RuneWidth r = 2 <-> exists rang, In rang wideRanges /\ inRange r rang = true.
Proof.
  split.
  - unfold RuneWidth. destruct (r <? 0x80).
    { destruct (r >=? 0x20); discriminate. }
    destruct (find (inRange r) zeroWidthRanges); [discriminate|].
    destruct (find (inRange r) wideRanges) as [rang|] eqn:Hf; [|discriminate].
    intros _. apply find_some in Hf. by exists rang.
  - intros (rang & Hin & Hr).
    pose proof wideRanges_start as Hst. rewrite List.Forall_forall in Hst.
    pose proof (Hst rang Hin). pose proof (inRange_start r rang Hr).
    unfold RuneWidth. destruct (Z.ltb_spec r 0x80); [lia|].
    assert (find (inRange r) zeroWidthRanges = None) as ->.
    { apply find_inRange_None. intros z Hz.
      destruct (inRange r z) eqn:Hrz; [|done].
      by rewrite (zero_wide_disjoint z rang r Hz Hin Hrz) in Hr. }
    destruct (find_inRange_Some r wideRanges rang Hin Hr) as [rang' Hf].
    rewrite Hf. by eapply find_inRange_wide.
Qed.

Lemma RuneWidth_zero_iff r :
  RuneWidth r = 0
  <-> r < 0x20
      \/ exists rang, In rang zeroWidthRanges /\ inRange r rang = true.
Proof.
  split.
  - unfold RuneWidth. destruct (Z.ltb_spec r 0x80).
    { destruct (Z.geb_spec r 0x20); [discriminate|]. intros _. left. lia. }
    destruct (find (inRange r) zeroWidthRanges) as [rang|] eqn:Hf.
    { intros _. right. apply find_some in Hf. by exists rang. }
    destruct (find (inRange r) wideRanges) as [rang|] eqn:Hw; [|discriminate].
    rewrite (find_inRange_wide r rang Hw). discriminate.
  - intros [Hlt|(rang & Hin & Hr)]; [by apply RuneWidth_control|].
    pose proof zeroWidthRanges_start as Hst. rewrite List.Forall_forall in Hst.
    pose proof (Hst rang Hin). pose proof (inRange_start r rang Hr).
    unfold RuneWidth. destruct (Z.ltb_spec r 0x80); [lia|].
    by destruct (find_inRange_Some r zeroWidthRanges rang Hin Hr) as [? ->].
Qed.

(** X1. IsWideRune holds exactly for the code points of the wide table,
    IsZeroWidthRune exactly for the ASCII control codes (and negative
    values) and the code points of the zero-width table; no rune is both,
    and a rune that is neither has width 1. *)
Theorem rune_predicates (r : Z) :
  (IsWideRune r = true
   <-> exists rang, In rang wideRanges /\ inRange r rang = true)
  /\ (IsZeroWidthRune r = true
      <-> r < 0x20
          \/ exists rang, In rang zeroWidthRanges /\ inRange r rang = true)
  /\ (IsWideRune r = false \/ IsZeroWidthRune r = false)
  /\ (IsWideRune r = false -> IsZeroWidthRune r = false -> RuneWidth r = 1).
Proof.
  unfold IsWideRune, IsZeroWidthRune.
  pose proof (RuneWidth_cases r) as Hc.
  split; [|split; [|split]].
  - rewrite <- RuneWidth_wide_iff.
    destruct (Z.gtb_spec (RuneWidth r) 1); split; try done; lia.
  - rewrite <- RuneWidth_zero_iff.
    destruct (Z.eqb_spec (RuneWidth r) 0); split; done.
  - destruct (Z.gtb_spec (RuneWidth r) 1), (Z.eqb_spec (RuneWidth r) 0);
      auto; lia.
  - destruct (Z.gtb_spec (RuneWidth r) 1), (Z.eqb_spec (RuneWidth r) 0);
      try done; lia.
Qed.

Lemma rune_predicates_witness : RuneWidth 0x41 = 1.
Proof.
  apply (proj2 (proj2 (proj2 (rune_predicates 0x41)))); reflexivity.
Defined.

(** * String width: the loop over a string and the loop over bytes *)

Lemma rangeWidthLoop_acc fn fuel s acc :
  rangeWidthLoop fuel fn s acc = acc + rangeWidthLoop fuel fn s 0.
Proof.
  revert s acc. induction fuel as [|fuel IH]; intros s acc; simpl; [lia|].
  destruct (0 <? length s)%nat; [|lia].
  destruct (utf8.DecodeRune s) as [r size].
  rewrite IH, (IH _ (0 + fn r)). lia.
Qed.

Lemma rangeWidthLoop_fuel fn fuel1 fuel2 s acc :
  (length s <= fuel1)%nat -> (length s <= fuel2)%nat ->
  rangeWidthLoop fuel1 fn s acc = rangeWidthLoop fuel2 fn s acc.
Proof.
  revert fuel2 s acc.
  induction fuel1 as [|fuel1 IH]; intros fuel2 s acc H1 H2.
  - destruct s; [|simpl in H1; lia]. by destruct fuel2.
  - destruct fuel2 as [|fuel2].
    { destruct s; [done|simpl in H2; lia]. }
    simpl. destruct s as [|c s0] eqn:Hs; [done|]. rewrite <- Hs in *.
    assert (s <> []) as Hne by (by subst).
    replace (0 <? length s)%nat with true by (subst; done).
    destruct (utf8.DecodeRune s) as [r size] eqn:Hd.
    destruct (DecodeRune_size _ _ _ Hne Hd) as [Hs1 Hs2].
    apply IH; rewrite length_drop; lia.
Qed.

Lemma StringWidthCustom_step fn s r size :
  s <> [] -> utf8.DecodeRune s = (r, size) ->
  StringWidthCustom s fn = fn r + StringWidthCustom (drop size s) fn.
Proof.
  intros Hne Hd. unfold StringWidthCustom.
  destruct (DecodeRune_size _ _ _ Hne Hd) as [Hs1 Hs2].
  destruct s as [|c s0] eqn:Hs; [done|]. rewrite <- Hs in *.
  assert (length s = S (length s0)) as Hlen by (by subst).
  rewrite Hlen. simpl.
  replace (0 <? length s)%nat with true by (subst; done).
  rewrite Hd, rangeWidthLoop_acc. f_equal.
  apply rangeWidthLoop_fuel; rewrite length_drop; lia.
Qed.

Lemma StringWidth_step s r size :
  s <> [] -> utf8.DecodeRune s = (r, size) ->
  StringWidth s = RuneWidth r + StringWidth (drop size s).
Proof. apply (StringWidthCustom_step RuneWidth). Qed.

Lemma StringWidthBytes_step b r size :
  b <> [] -> utf8.DecodeRune b = (r, size) -> r <> utf8.RuneError ->
  StringWidthBytes b = RuneWidth r + StringWidthBytes (drop size b).
Proof. apply (StringWidthBytesCustom_step RuneWidth). Qed.

Lemma StringWidthBytes_error b size :
  b <> [] -> utf8.DecodeRune b = (utf8.RuneError, size) ->
  StringWidthBytes b = 1 + StringWidthBytes (drop 1 b).
Proof. apply (StringWidthBytesCustom_error RuneWidth). Qed.

(* The encoding of U+FFFD, seen by the two loops. *)
Lemma StringWidthBytes_replacement q :
  StringWidthBytes (0xEF :: 0xBF :: 0xBD :: q) = 3 + StringWidthBytes q.
Proof.
  rewrite (StringWidthBytes_error _ 3) by done. simpl drop.
  rewrite (StringWidthBytes_error _ 1)
    by (done || by apply DecodeRune_continuation).
  simpl drop.
  rewrite (StringWidthBytes_error _ 1)
    by (done || by apply DecodeRune_continuation).
  simpl drop. rewrite drop_0. lia.
Qed.

Lemma StringWidth_replacement q :
  StringWidth (0xEF :: 0xBF :: 0xBD :: q) = 1 + StringWidth q.
Proof. by rewrite (StringWidth_step _ utf8.RuneError 3). Qed.

Lemma StringWidth_compare b :
  0 <= StringWidth b <= StringWidthBytes b
  /\ StringWidthBytes b <= 2 * Z.of_nat (length b)
  /\ (noReplacement b -> StringWidthBytes b = StringWidth b).
Proof.
  remember (length b) as len eqn:Hlen. revert b Hlen.
  induction len as [len IH] using lt_wf_ind. intros b Hlen.
  destruct b as [|c b0] eqn:Hb.
  { change (StringWidth []) with 0. change (StringWidthBytes []) with 0.
    simpl. repeat split; (lia || done). }
  rewrite <- Hb in *. assert (b <> []) as Hne by (by subst).
  destruct (utf8.DecodeRune b) as [r size] eqn:Hd.
  destruct (DecodeRune_size _ _ _ Hne Hd) as [Hs1 Hs2].
  pose proof (RuneWidth_range r) as Hrw.
  destruct (Z.eq_dec r utf8.RuneError) as [->|Hr].
  - destruct (DecodeRune_RuneError _ _ Hd) as [Hle|[-> [q Hq]]].
    + assert (size = 1%nat) as -> by lia.
      rewrite (StringWidth_step b _ 1), (StringWidthBytes_error b 1) by done.
      destruct (IH (length (drop 1 b))) with (b := drop 1 b)
        as (H1 & H2 & H3); [rewrite length_drop; lia|done|].
      rewrite length_drop in H2.
      change (RuneWidth utf8.RuneError) with 1.
      repeat split; try lia.
      intros Hno. rewrite H3; [done|by apply noReplacement_drop].
    + rewrite Hq, StringWidth_replacement, StringWidthBytes_replacement.
      destruct (IH (length q)) with (b := q) as (H1 & H2 & H3);
        [rewrite Hlen, Hq; simpl; lia|done|].
      rewrite <- Hq, Hlen, Hq. cbn [length].
      repeat split; try lia.
      intros Hno. exfalso. apply (Hno 0%nat q). by rewrite drop_0.
  - rewrite (StringWidth_step b r size), (StringWidthBytes_step b r size)
      by done.
    destruct (IH (length (drop size b))) with (b := drop size b)
      as (H1 & H2 & H3); [rewrite length_drop; lia|done|].
    rewrite length_drop in H2.
    repeat split; try lia.
    intros Hno. rewrite H3; [done|by apply noReplacement_drop].
Qed.

(** X2. The width of a string is never negative and never more than the
    width the byte loop gives for the same bytes, which is at most two
    columns a byte; the two agree on every input in which the encoding of
    U+FFFD does not occur.  (The byte loop takes an encoded U+FFFD for
    three invalid bytes, the string loop for one code point.) *)
Theorem StringWidth_le_StringWidthBytes (b : list Z) :
  0 <= StringWidth b <= StringWidthBytes b
  /\ StringWidthBytes b <= 2 * Z.of_nat (length b)
  /\ (noReplacement b -> StringWidthBytes b = StringWidth b)
  /\ StringWidth [0xEF; 0xBF; 0xBD] < StringWidthBytes [0xEF; 0xBF; 0xBD].
Proof.
  destruct (StringWidth_compare b) as (H1 & H2 & H3).
  repeat split; try done; lia.
Qed.

Lemma StringWidth_le_StringWidthBytes_witness :
  StringWidthBytes zhong = StringWidth zhong.
Proof.
  apply (StringWidth_le_StringWidthBytes zhong).
  by apply noReplacementb_sound.
Defined.

(** * Truncation and string width *)

Lemma StringWidth_take_step (b : list Z) r size k :
  b <> [] -> utf8.DecodeRune b = (r, size) ->
  StringWidth (take (size + k) b)
  = RuneWidth r + StringWidth (take k (drop size b)).
Proof.
  intros Hne Hd.
  destruct (DecodeRune_size _ _ _ Hne Hd) as [Hs1 Hs2].
  rewrite (StringWidth_step (take (size + k) b) r size).
  - by rewrite take_drop_commute.
  - destruct b; [done|]. destruct size; [lia|done].
  - apply DecodeRune_take; [done|lia|lia].
Qed.

(* One run of the loop of TruncateToWidthBytes, with the columns used
   given by the width of the bytes kept. *)
Lemma truncateLoop_width fuel maxWidth st :
  (length (rest st) <= fuel)%nat ->
  exists k,
    (k <= length (rest st))%nat
    /\ rest (truncateLoop fuel maxWidth st) = drop k (rest st)
    /\ result (truncateLoop fuel maxWidth st) = result st ++ take k (rest st)
    /\ used (truncateLoop fuel maxWidth st)
       = used st + StringWidth (take k (rest st))
    /\ (used st <= maxWidth ->
        used (truncateLoop fuel maxWidth st) <= maxWidth)
    /\ (drop k (rest st) = []
        \/ exists r size,
             utf8.DecodeRune (drop k (rest st)) = (r, size)
             /\ maxWidth < used (truncateLoop fuel maxWidth st) + RuneWidth r).
Proof.
  revert st. induction fuel as [|fuel IH]; intros st Hfuel.
  - exists 0%nat. destruct (rest st) eqn:Hrest; [|simpl in Hfuel; lia].
    simpl. rewrite Hrest, app_nil_r.
    change (StringWidth []) with 0. repeat split; try lia; auto.
  - cbn [truncateLoop].
    destruct (rest st) as [|c b0] eqn:Hb.
    { exists 0%nat. simpl. rewrite app_nil_r, Hb.
      change (StringWidth []) with 0. repeat split; try lia; auto. }
    rewrite <- Hb in *. set (b := rest st) in *.
    assert (b <> []) as Hne by (rewrite Hb; done).
    replace (0 <? length b)%nat with true by (rewrite Hb; done).
    destruct (utf8.DecodeRune b) as [r size] eqn:Hd.
    destruct (DecodeRune_size _ _ _ Hne Hd) as [Hs1 Hs2].
    pose proof (RuneWidth_range r) as Hrw.
    destruct (Z.gtb_spec (used st + RuneWidth r) maxWidth) as [Hbreak|Hfit].
    { exists 0%nat. rewrite drop_0, take_0, app_nil_r.
      change (StringWidth []) with 0.
      repeat split; try lia.
      right. exists r, size. split; [done|lia]. }
    set (st1 := mkTrunc (drop size b) (used st + RuneWidth r)
                        (result st ++ take size b)).
    destruct (IH st1) as (k1 & Hk1 & Hrest & Hres & Hu & Hle & Hstop).
    { simpl. rewrite length_drop. lia. }
    simpl in Hk1, Hrest, Hres, Hu, Hle, Hstop.
    rewrite length_drop in Hk1.
    exists (size + k1)%nat. split; [lia|].
    split; [by rewrite Hrest, drop_drop|].
    split; [by rewrite Hres, <- app_assoc, take_take_drop|].
    split; [rewrite Hu, (StringWidth_take_step b r size) by done; lia|].
    split; [lia|].
    by rewrite <- drop_drop.
Qed.

Lemma TruncateToWidthBytes_width (b : list Z) maxWidth :
  0 < maxWidth ->
  exists k,
    (k <= length b)%nat
    /\ TruncateToWidthBytes b maxWidth = take k b
    /\ StringWidth (take k b) <= maxWidth
    /\ (drop k b = []
        \/ exists r size,
             utf8.DecodeRune (drop k b) = (r, size)
             /\ maxWidth < StringWidth (take k b) + RuneWidth r).
Proof.
  intros Hpos. unfold TruncateToWidthBytes.
  destruct (Z.leb_spec maxWidth 0); [lia|].
  destruct (truncateLoop_width (length b) maxWidth (mkTrunc b 0 []))
    as (k & Hk & Hrest & Hres & Hu & Hle & Hstop); [done|].
  simpl in Hk, Hrest, Hres, Hu, Hle, Hstop.
  set (st := truncateLoop (length b) maxWidth (mkTrunc b 0 [])) in *.
  exists k.
  assert ((0 <? length (rest st))%nat && (used st <=? maxWidth - 3) = false)
    as ->.
  { destruct Hstop as [Hend|(r & size & Hd & Hover)].
    - by rewrite Hrest, Hend.
    - pose proof (RuneWidth_range r).
      apply andb_false_iff. right. apply Z.leb_gt. lia. }
  split; [done|]. split; [done|]. split; [lia|].
  destruct Hstop as [Hend|(r & size & Hd & Hover)]; [by left|].
  right. exists r, size. split; [done|lia].
Qed.

Lemma StringWidth_nonneg b : 0 <= StringWidth b.
Proof. by destruct (StringWidth_compare b) as ([? _] & _). Qed.

(* A string that fits is copied whole. *)
Lemma truncateLoop_whole fuel maxWidth st :
  (length (rest st) <= fuel)%nat ->
  used st + StringWidth (rest st) <= maxWidth ->
  truncateLoop fuel maxWidth st
  = mkTrunc [] (used st + StringWidth (rest st)) (result st ++ rest st).
Proof.
  revert st. induction fuel as [|fuel IH]; intros st Hfuel Hfit.
  - destruct st as [b u res]. simpl in *.
    destruct b; [|simpl in Hfuel; lia].
    change (StringWidth []) with 0. rewrite app_nil_r. f_equal. lia.
  - cbn [truncateLoop].
    destruct (rest st) as [|c b0] eqn:Hb.
    { destruct st as [b u res]. simpl in *. subst b.
      change (StringWidth []) with 0. rewrite app_nil_r. f_equal. lia. }
    rewrite <- Hb in *. set (b := rest st) in *.
    assert (b <> []) as Hne by (rewrite Hb; done).
    replace (0 <? length b)%nat with true by (rewrite Hb; done).
    destruct (utf8.DecodeRune b) as [r size] eqn:Hd.
    destruct (DecodeRune_size _ _ _ Hne Hd) as [Hs1 Hs2].
    rewrite (StringWidth_step b r size) in * by done.
    pose proof (StringWidth_nonneg (drop size b)).
    destruct (Z.gtb_spec (used st + RuneWidth r) maxWidth); [lia|].
    rewrite IH; simpl.
    + rewrite <- app_assoc, take_drop. f_equal. lia.
    + rewrite length_drop. lia.
    + lia.
Qed.

Lemma TruncateToWidthBytes_whole (b : list Z) maxWidth :
  0 < maxWidth -> StringWidth b <= maxWidth ->
  TruncateToWidthBytes b maxWidth = b.
Proof.
  intros Hpos Hfit. unfold TruncateToWidthBytes.
  destruct (Z.leb_spec maxWidth 0); [lia|].
  rewrite truncateLoop_whole by (simpl; done || lia).
  done.
Qed.

Lemma TruncateToWidthBytes_le (b : list Z) maxWidth :
  StringWidth (TruncateToWidthBytes b maxWidth) <= Z.max maxWidth 0.
Proof.
  destruct (Z.leb_spec maxWidth 0) as [Hle|Hpos].
  - rewrite TruncateToWidthBytes_nonpositive by done.
    change (StringWidth []) with 0. lia.
  - destruct (TruncateToWidthBytes_width b maxWidth Hpos)
      as (k & _ & -> & Hw & _). lia.
Qed.

(** X3. TruncateToWidthBytes returns a prefix of its input whose width is
    at most the limit (nothing for a limit of zero or less); an input that
    fits a positive limit comes back whole, and when something is cut off
    at most one column of the limit stays unused.  The result never ends
    in an ellipsis the input does not have. *)
Theorem TruncateToWidthBytes_StringWidth (b : list Z) (maxWidth : Z) :
  TruncateToWidthBytes b maxWidth `prefix_of` b
  /\ StringWidth (TruncateToWidthBytes b maxWidth) <= Z.max maxWidth 0
  /\ (maxWidth <= 0 -> TruncateToWidthBytes b maxWidth = [])
  /\ (0 < maxWidth -> StringWidth b <= maxWidth ->
      TruncateToWidthBytes b maxWidth = b)
  /\ (0 < maxWidth -> TruncateToWidthBytes b maxWidth <> b ->
      maxWidth - 1 <= StringWidth (TruncateToWidthBytes b maxWidth)).
Proof.
  split; [apply TruncateToWidthBytes_prefix|].
  split; [apply TruncateToWidthBytes_le|].
  split; [apply TruncateToWidthBytes_nonpositive|].
  split; [apply TruncateToWidthBytes_whole|].
  intros Hpos Hcut.
  destruct (TruncateToWidthBytes_width b maxWidth Hpos)
    as (k & Hk & Hout & Hw & Hstop).
  rewrite Hout in *.
  destruct Hstop as [Hend|(r & size & Hd & Hover)].
  - exfalso. apply Hcut.
    rewrite <- (take_drop k b) at 2. by rewrite Hend, app_nil_r.
  - pose proof (RuneWidth_range r). lia.
Qed.

Lemma TruncateToWidthBytes_StringWidth_witness :
  TruncateToWidthBytes zhong 2 = zhong
  /\ 5 - 1 <= StringWidth (TruncateToWidthBytes wideCell 5).
Proof.
  split.
  - apply (TruncateToWidthBytes_StringWidth zhong 2); [lia|by vm_compute].
  - apply (TruncateToWidthBytes_StringWidth wideCell 5); [lia|by vm_compute].
Defined.

Lemma truncateLoop_nil fuel maxWidth st :
  rest st = [] -> truncateLoop fuel maxWidth st = st.
Proof. intros Hrest. destruct fuel; simpl; by rewrite ?Hrest. Qed.

(* The ellipsis branch is never taken. *)
Lemma TruncateToWidthBytes_loop (b : list Z) maxWidth :
  0 < maxWidth ->
  TruncateToWidthBytes b maxWidth
  = result (truncateLoop (length b) maxWidth (mkTrunc b 0 [])).
Proof.
  intros Hpos. unfold TruncateToWidthBytes.
  destruct (Z.leb_spec maxWidth 0); [lia|].
  destruct (truncateLoop_width (length b) maxWidth (mkTrunc b 0 []))
    as (k & Hk & Hrest & Hres & Hu & Hle & Hstop); [done|].
  simpl in Hk, Hrest, Hres, Hu, Hle, Hstop.
  set (st := truncateLoop (length b) maxWidth (mkTrunc b 0 [])) in *.
  assert ((0 <? length (rest st))%nat && (used st <=? maxWidth - 3) = false)
    as ->; [|done].
  destruct Hstop as [Hend|(r & size & Hd & Hover)].
  - by rewrite Hrest, Hend.
  - pose proof (RuneWidth_range r).
    apply andb_false_iff. right. apply Z.leb_gt. lia.
Qed.

(* Truncating what a wider limit kept gives what the narrower limit
   keeps. *)
Lemma truncateLoop_compose fuel w1 w2 :
  w1 <= w2 ->
  forall fuel' st k,
    (length (rest st) <= fuel)%nat -> (k <= length (rest st))%nat ->
    (k <= fuel')%nat ->
    result (truncateLoop fuel w2 st) = result st ++ take k (rest st) ->
    result (truncateLoop fuel' w1
              (mkTrunc (take k (rest st)) (used st) (result st)))
    = result (truncateLoop fuel w1 st).
Proof.
  intros Hw. induction fuel as [|fuel IH]; intros fuel' st k Hfuel Hk Hk' Hres.
  - destruct (rest st) eqn:Hrest; [|simpl in Hfuel; lia].
    rewrite take_nil, truncateLoop_nil by done. done.
  - destruct (rest st) as [|c b0] eqn:Hb.
    { rewrite take_nil, !truncateLoop_nil by done. done. }
    rewrite <- Hb in *. set (b := rest st) in *.
    assert (b <> []) as Hne by (rewrite Hb; done).
    destruct (utf8.DecodeRune b) as [r size] eqn:Hd.
    destruct (DecodeRune_size _ _ _ Hne Hd) as [Hs1 Hs2].
    revert Hres. cbn [truncateLoop]. fold b.
    replace (0 <? length b)%nat with true by (rewrite Hb; done).
    rewrite Hd.
    destruct (Z.gtb_spec (used st + RuneWidth r) w2) as [Hbreak2|Hfit2].
    { intros Hres.
      assert (take k b = []) as ->.
      { rewrite <- (app_nil_r (result st)) in Hres at 1.
        by apply app_inv_head in Hres. }
      rewrite truncateLoop_nil by done.
      destruct (Z.gtb_spec (used st + RuneWidth r) w1); [done|lia]. }
    set (st1 := mkTrunc (drop size b) (used st + RuneWidth r)
                        (result st ++ take size b)).
    destruct (truncateLoop_width fuel w2 st1)
      as (k1 & Hk1 & _ & Hres1 & _).
    { simpl. rewrite length_drop. lia. }
    simpl in Hk1, Hres1. rewrite length_drop in Hk1.
    intros Hres.
    assert (k = (size + k1)%nat) as ->.
    { rewrite Hres1, <- app_assoc, take_take_drop in Hres.
      apply app_inv_head in Hres.
      apply (f_equal length) in Hres. rewrite !length_take in Hres. lia. }
    destruct fuel' as [|fuel']; [lia|].
    cbn [truncateLoop rest used result].
    assert (take (size + k1) b <> []) as Hne'.
    { rewrite Hb. destruct size; [lia|done]. }
    replace (0 <? length (take (size + k1) b))%nat with true.
    2: { destruct (take (size + k1) b); done. }
    rewrite (DecodeRune_take b (size + k1) r size) by (done || lia).
    destruct (Z.gtb_spec (used st + RuneWidth r) w1) as [Hbreak1|Hfit1];
      [done|].
    rewrite <- take_drop_commute.
    rewrite take_take, Nat.min_l by lia.
    apply (IH fuel' st1 k1); simpl.
    + rewrite length_drop. lia.
    + rewrite length_drop. lia.
    + lia.
    + done.
Qed.

(** X4. Truncation composes: cutting to a wider limit first and to a
    narrower one afterwards gives what the narrower limit gives at once;
    in particular truncating twice to the same limit changes nothing more,
    and a narrower limit keeps a prefix of what a wider one keeps. *)
Theorem TruncateToWidthBytes_compose (b : list Z) (w1 w2 : Z) :
  w1 <= w2 ->
  TruncateToWidthBytes (TruncateToWidthBytes b w2) w1
  = TruncateToWidthBytes b w1
  /\ TruncateToWidthBytes b w1 `prefix_of` TruncateToWidthBytes b w2.
Proof.
  intros Hw.
  assert (TruncateToWidthBytes (TruncateToWidthBytes b w2) w1
          = TruncateToWidthBytes b w1) as Heq.
  { destruct (Z.leb_spec w1 0) as [Hle|Hpos].
    { by rewrite !(TruncateToWidthBytes_nonpositive _ w1). }
    destruct (truncateLoop_width (length b) w2 (mkTrunc b 0 []))
      as (k & Hk & _ & Hres & _); [done|].
    simpl in Hk, Hres.
    rewrite (TruncateToWidthBytes_loop b w2) by lia.
    rewrite !(TruncateToWidthBytes_loop _ w1) by lia.
    rewrite Hres.
    apply (truncateLoop_compose (length b) w1 w2 Hw
             (length (take k b)) (mkTrunc b 0 []) k); simpl; try done.
    rewrite length_take. lia. }
  split; [done|].
  rewrite <- Heq. apply TruncateToWidthBytes_prefix.
Qed.

Lemma TruncateToWidthBytes_compose_witness :
  TruncateToWidthBytes (TruncateToWidthBytes wideCell 5) 3
  = TruncateToWidthBytes wideCell 3.
Proof. apply (TruncateToWidthBytes_compose wideCell 3 5). lia. Defined.

(** * Encoding and decoding *)

Lemma lor_high hi x n :
  0 <= n -> hi mod 2 ^ n = 0 -> 0 <= x < 2 ^ n -> Z.lor hi x = hi + x.
Proof.
  intros Hn Hhi Hx. apply (lor_disjoint hi x n); [done|done|].
  apply Z.mod_divide; [lia|done].
Qed.

Ltac lor_side :=
  first [ done | lia
        | change (2 ^ 6) with 64; change (2 ^ 5) with 32;
          change (2 ^ 4) with 16; Z.div_mod_to_equations; lia ].

Lemma encode_1 r : 0 <= r <= 0x7F -> utf8.encode r = [r].
Proof.
  intros Hr. unfold utf8.encode.
  destruct (Z.leb_spec 0 r); [|lia].
  destruct (Z.leb_spec r 0x7F); [done|lia].
Qed.

Lemma encode_2 r :
  0x80 <= r <= 0x7FF -> utf8.encode r = [0xC0 + r / 64; 0x80 + r mod 64].
Proof.
  intros Hr. unfold utf8.encode, utf8.maskx.
  destruct (Z.leb_spec 0 r); [|lia].
  destruct (Z.leb_spec r 0x7F); [lia|].
  destruct (Z.leb_spec r 0x7FF); [|lia]. simpl andb. cbv iota.
  rewrite land_63, Z.shiftr_div_pow2 by lia.
  change (2 ^ 6) with 64.
  rewrite (lor_high 0xC0 (r / 64) 6), (lor_high 0x80 (r mod 64) 6); lor_side.
Qed.

Lemma encode_3 r :
  0x800 <= r <= 0xFFFF -> ~ (0xD800 <= r <= 0xDFFF) ->
  utf8.encode r
  = [0xE0 + r / 4096; 0x80 + (r / 64) mod 64; 0x80 + r mod 64].
Proof.
  intros Hr Hsur.
  unfold utf8.encode, utf8.maskx, utf8.MaxRune, utf8.surrogateMin,
    utf8.surrogateMax.
  destruct (Z.leb_spec 0 r); [|lia].
  destruct (Z.leb_spec r 0x7F); [lia|].
  destruct (Z.leb_spec r 0x7FF); [lia|].
  destruct (Z.ltb_spec r 0); [lia|].
  destruct (Z.ltb_spec 0x10FFFF r); [lia|].
  assert ((0xD800 <=? r) && (r <=? 0xDFFF) = false) as ->.
  { destruct (Z.leb_spec 0xD800 r); [|done].
    destruct (Z.leb_spec r 0xDFFF); [lia|done]. }
  destruct (Z.leb_spec r 0xFFFF); [|lia]. simpl andb. simpl orb. cbv iota.
  rewrite !land_63, !Z.shiftr_div_pow2 by lia.
  change (2 ^ 6) with 64. change (2 ^ 12) with 4096.
  rewrite (lor_high 0xE0 (r / 4096) 5),
    (lor_high 0x80 ((r / 64) mod 64) 6),
    (lor_high 0x80 (r mod 64) 6); lor_side.
Qed.

Lemma encode_4 r :
  0x10000 <= r <= 0x10FFFF ->
  utf8.encode r
  = [0xF0 + r / 262144; 0x80 + (r / 4096) mod 64; 0x80 + (r / 64) mod 64;
     0x80 + r mod 64].
Proof.
  intros Hr.
  unfold utf8.encode, utf8.maskx, utf8.MaxRune, utf8.surrogateMin,
    utf8.surrogateMax.
  destruct (Z.leb_spec 0 r); [|lia].
  destruct (Z.leb_spec r 0x7F); [lia|].
  destruct (Z.leb_spec r 0x7FF); [lia|].
  destruct (Z.ltb_spec r 0); [lia|].
  destruct (Z.ltb_spec 0x10FFFF r); [lia|].
  assert ((0xD800 <=? r) && (r <=? 0xDFFF) = false) as ->.
  { destruct (Z.leb_spec 0xD800 r); [|done].
    destruct (Z.leb_spec r 0xDFFF); [lia|done]. }
  destruct (Z.leb_spec r 0xFFFF); [lia|]. simpl andb. simpl orb. cbv iota.
  rewrite !land_63, !Z.shiftr_div_pow2 by lia.
  change (2 ^ 6) with 64. change (2 ^ 12) with 4096.
  change (2 ^ 18) with 262144.
  rewrite (lor_high 0xF0 (r / 262144) 4),
    (lor_high 0x80 ((r / 4096) mod 64) 6),
    (lor_high 0x80 ((r / 64) mod 64) 6),
    (lor_high 0x80 (r mod 64) 6); lor_side.
Qed.

Lemma ValidRune_range r :
  ValidRune r = true <->
  0 <= r <= 0x10FFFF /\ ~ (0xD800 <= r <= 0xDFFF).
Proof.
  unfold ValidRune, utf8.surrogateMin, utf8.surrogateMax, utf8.MaxRune. lia.
Qed.

Ltac decode_arith :=
  unfold utf8.acceptRanges, utf8.locb, utf8.hicb, utf8.RuneError in *;
  simpl in *;
  rewrite ?decode2_value, ?decode3_value, ?decode4_value in *.

(* Decoding what was encoded gives the code point back. *)
Lemma encode_DecodeRune r q :
  ValidRune r = true ->
  utf8.DecodeRune (utf8.encode r ++ q)
  = (r, length (utf8.encode r)).
Proof.
  intros Hv. apply ValidRune_range in Hv as [Hr Hsur].
  assert (r <= 0x7F \/ 0x80 <= r <= 0x7FF \/ 0x800 <= r <= 0xFFFF
          \/ 0x10000 <= r) as [H1|[H2|[H3|H4]]] by lia.
  - rewrite encode_1 by lia. simpl app. simpl length.
    decode_cases; lia.
  - rewrite encode_2 by lia. simpl app. simpl length.
    decode_cases; decode_arith.
    all: try (exfalso; Z.div_mod_to_equations; lia).
    all: f_equal; Z.div_mod_to_equations; lia.
  - rewrite encode_3 by lia. simpl app. simpl length.
    decode_cases; decode_arith.
    all: try (exfalso; Z.div_mod_to_equations; lia).
    all: f_equal; Z.div_mod_to_equations; lia.
  - rewrite encode_4 by lia. simpl app. simpl length.
    decode_cases; decode_arith.
    all: try (exfalso; Z.div_mod_to_equations; lia).
    all: f_equal; Z.div_mod_to_equations; lia.
Qed.

(* The decoder yields code points only. *)
Lemma DecodeRune_ValidRune p r size :
  0 <= utf8.at_ p 0 -> utf8.DecodeRune p = (r, size) -> ValidRune r = true.
Proof.
  intros Hp0 Hd. apply ValidRune_range. revert Hp0 Hd.
  destruct p as [|p0 [|p1 [|p2 [|p3 p']]]].
  all: decode_cases.
  all: intros Hp0 Heq; pose proof (f_equal fst Heq) as Hr; clear Heq;
       simpl in Hr; subst r.
  all: decode_arith.
  all: Z.div_mod_to_equations; lia.
Qed.

(* Encoding what was decoded gives the bytes read back, unless the byte
   read was invalid. *)
Lemma DecodeRune_encode p r size :
  0 <= utf8.at_ p 0 -> utf8.DecodeRune p = (r, size) ->
  r <> utf8.RuneError \/ size = 3%nat ->
  utf8.encode r = take size p.
Proof.
  intros Hp0 Hd Hv. revert Hp0 Hd Hv.
  destruct p as [|p0 [|p1 [|p2 [|p3 p']]]].
  all: decode_cases.
  all: intros Hp0 Heq; pose proof (f_equal fst Heq) as Hr;
       pose proof (f_equal snd Heq) as Hs; clear Heq;
       simpl in Hr, Hs; subst r size.
  all: intros [Hv|Hv]; try done.
  all: decode_arith.
  all: try (rewrite encode_1 by lia; done).
  all: try (rewrite encode_2 by (Z.div_mod_to_equations; lia);
            simpl take; repeat f_equal; Z.div_mod_to_equations; lia).
  all: try (rewrite encode_3 by (Z.div_mod_to_equations; lia);
            simpl take; repeat f_equal; Z.div_mod_to_equations; lia).
  all: try (rewrite encode_4 by (Z.div_mod_to_equations; lia);
            simpl take; repeat f_equal; Z.div_mod_to_equations; lia).
Qed.

(** * The runes of a string *)

Lemma runesLoop_fuel fuel1 fuel2 s :
  (length s <= fuel1)%nat -> (length s <= fuel2)%nat ->
  runesLoop fuel1 s = runesLoop fuel2 s.
Proof.
  revert fuel2 s. induction fuel1 as [|fuel1 IH]; intros fuel2 s H1 H2.
  - destruct s; [|simpl in H1; lia]. by destruct fuel2.
  - destruct fuel2 as [|fuel2].
    { destruct s; [done|simpl in H2; lia]. }
    simpl. destruct s as [|c s0] eqn:Hs; [done|]. rewrite <- Hs in *.
    assert (s <> []) as Hne by (by subst).
    replace (0 <? length s)%nat with true by (subst; done).
    destruct (utf8.DecodeRune s) as [r size] eqn:Hd.
    destruct (DecodeRune_size _ _ _ Hne Hd) as [Hs1 Hs2].
    f_equal. apply IH; rewrite length_drop; lia.
Qed.

Lemma runesOf_step s r size :
  s <> [] -> utf8.DecodeRune s = (r, size) ->
  runesOf s = r :: runesOf (drop size s).
Proof.
  intros Hne Hd. unfold runesOf.
  destruct (DecodeRune_size _ _ _ Hne Hd) as [Hs1 Hs2].
  destruct s as [|c s0] eqn:Hs; [done|]. rewrite <- Hs in *.
  assert (length s = S (length s0)) as Hlen by (by subst).
  rewrite Hlen. simpl.
  replace (0 <? length s)%nat with true by (subst; done).
  rewrite Hd. f_equal.
  apply runesLoop_fuel; rewrite length_drop; lia.
Qed.

Lemma runesOf_take_step (b : list Z) r size k :
  b <> [] -> utf8.DecodeRune b = (r, size) ->
  runesOf (take (size + k) b) = r :: runesOf (take k (drop size b)).
Proof.
  intros Hne Hd.
  destruct (DecodeRune_size _ _ _ Hne Hd) as [Hs1 Hs2].
  rewrite (runesOf_step (take (size + k) b) r size).
  - by rewrite take_drop_commute.
  - destruct b; [done|]. destruct size; [lia|done].
  - apply DecodeRune_take; [done|lia|lia].
Qed.

Lemma validLoop_fuel fuel1 fuel2 s :
  (length s <= fuel1)%nat -> (length s <= fuel2)%nat ->
  validLoop fuel1 s = validLoop fuel2 s.
Proof.
  revert fuel2 s. induction fuel1 as [|fuel1 IH]; intros fuel2 s H1 H2.
  - destruct s; [|simpl in H1; lia]. by destruct fuel2.
  - destruct fuel2 as [|fuel2].
    { destruct s; [done|simpl in H2; lia]. }
    simpl. destruct s as [|c s0] eqn:Hs; [done|]. rewrite <- Hs in *.
    assert (s <> []) as Hne by (by subst).
    replace (0 <? length s)%nat with true by (subst; done).
    destruct (utf8.DecodeRune s) as [r size] eqn:Hd.
    destruct (DecodeRune_size _ _ _ Hne Hd) as [Hs1 Hs2].
    f_equal. apply IH; rewrite length_drop; lia.
Qed.

Lemma Valid_step s r size :
  s <> [] -> utf8.DecodeRune s = (r, size) -> Valid s = true ->
  (r <> utf8.RuneError \/ size = 3%nat) /\ Valid (drop size s) = true.
Proof.
  intros Hne Hd. unfold Valid.
  destruct (DecodeRune_size _ _ _ Hne Hd) as [Hs1 Hs2].
  destruct s as [|c s0] eqn:Hs; [done|]. rewrite <- Hs in *.
  assert (length s = S (length s0)) as Hlen by (by subst).
  rewrite Hlen. simpl.
  replace (0 <? length s)%nat with true by (subst; done).
  rewrite Hd. intros [Hr Hv]%andb_true_iff. split.
  - destruct (Z.eq_dec r utf8.RuneError) as [->|]; [|by left].
    destruct (DecodeRune_RuneError _ _ Hd) as [Hle|[-> _]]; [|by right].
    assert (size = 1%nat) as -> by lia. done.
  - rewrite <- Hv. apply validLoop_fuel; rewrite length_drop; lia.
Qed.

Lemma isBytes_head b : isBytes b = true -> 0 <= utf8.at_ b 0.
Proof. destruct b as [|c b]; [done|]. simpl. unfold utf8.at_. simpl. lia. Qed.

Lemma isBytes_drop b n : isBytes b = true -> isBytes (drop n b) = true.
Proof.
  revert b. induction n as [|n IH]; intros [|c b]; try done.
  intros [_ Hb]%andb_true_iff. by apply IH.
Qed.

Lemma stringOfRunes_app rs1 rs2 :
  stringOfRunes (rs1 ++ rs2) = stringOfRunes rs1 ++ stringOfRunes rs2.
Proof. apply flat_map_app. Qed.

(* The loop over the runes of a string keeps the runes of the bytes the
   loop over the bytes keeps. *)
Lemma truncateRunesLoop_bytes fuel maxWidth :
  forall s width res bres,
    (length s <= fuel)%nat ->
    exists k,
      (k <= length s)%nat
      /\ result (truncateLoop fuel maxWidth (mkTrunc s width bres))
         = bres ++ take k s
      /\ truncateRunesLoop fuel maxWidth s width res
         = (used (truncateLoop fuel maxWidth (mkTrunc s width bres)),
            res ++ runesOf (take k s))
      /\ (drop k s = []
          \/ maxWidth
             < used (truncateLoop fuel maxWidth (mkTrunc s width bres)) + 2)
      /\ (isBytes s = true -> Valid s = true ->
          stringOfRunes (runesOf (take k s)) = take k s).
Proof.
  induction fuel as [|fuel IH]; intros s width res bres Hfuel.
  - exists 0%nat. destruct s; [|simpl in Hfuel; lia].
    simpl. rewrite !app_nil_r. repeat split; auto.
  - cbn [truncateLoop truncateRunesLoop rest used result].
    destruct s as [|c s0] eqn:Hs.
    { exists 0%nat. simpl. rewrite !app_nil_r. repeat split; auto. }
    rewrite <- Hs in *.
    assert (s <> []) as Hne by (by subst).
    replace (0 <? length s)%nat with true by (subst; done).
    destruct (utf8.DecodeRune s) as [r size] eqn:Hd.
    destruct (DecodeRune_size _ _ _ Hne Hd) as [Hs1 Hs2].
    pose proof (RuneWidth_range r) as Hrw.
    destruct (Z.gtb_spec (width + RuneWidth r) maxWidth) as [Hbreak|Hfit].
    { exists 0%nat. rewrite drop_0, take_0, !app_nil_r.
      cbn [used result]. repeat split; try done; lia. }
    destruct (IH (drop size s) (width + RuneWidth r) (res ++ [r])
                (bres ++ take size s))
      as (k1 & Hk1 & Hres & Hrun & Hstop & Hval).
    { rewrite length_drop. lia. }
    rewrite length_drop in Hk1.
    exists (size + k1)%nat. split; [lia|].
    split; [by rewrite Hres, <- app_assoc, take_take_drop|].
    split.
    { rewrite Hrun, (runesOf_take_step s r size) by done.
      by rewrite <- app_assoc. }
    split; [by rewrite <- drop_drop|].
    intros Hb Hv.
    destruct (Valid_step s r size Hne Hd Hv) as [Hr Hv1].
    rewrite (runesOf_take_step s r size) by done.
    cbn [stringOfRunes flat_map]. fold (stringOfRunes (runesOf (take k1 (drop size s)))).
    rewrite Hval by (done || by apply isBytes_drop).
    rewrite (DecodeRune_encode s r size) by (done || by apply isBytes_head).
    by rewrite take_take_drop.
Qed.

Lemma encode_nonempty r : utf8.encode r <> [].
Proof. unfold utf8.encode. by repeat case_match. Qed.

Lemma isBytes_take b n : isBytes b = true -> isBytes (take n b) = true.
Proof.
  revert b. induction n as [|n IH]; intros [|c b]; try done.
  simpl. intros [Hc Hb]%andb_true_iff. rewrite Hc. by apply IH.
Qed.

(* Decoding a string and encoding its runes again replaces each invalid
   byte by the encoding of U+FFFD; the width stays, and a valid string
   comes back as it was. *)
Lemma recode_StringWidth b :
  isBytes b = true -> StringWidth (stringOfRunes (runesOf b)) = StringWidth b.
Proof.
  remember (length b) as len eqn:Hlen. revert b Hlen.
  induction len as [len IH] using lt_wf_ind. intros b Hlen Hb.
  destruct b as [|c b0] eqn:Heq; [done|].
  rewrite <- Heq in *. assert (b <> []) as Hne by (by subst).
  destruct (utf8.DecodeRune b) as [r size] eqn:Hd.
  destruct (DecodeRune_size _ _ _ Hne Hd) as [Hs1 Hs2].
  rewrite (runesOf_step b r size), (StringWidth_step b r size) by done.
  cbn [stringOfRunes flat_map].
  fold (stringOfRunes (runesOf (drop size b))).
  assert (ValidRune r = true) as Hv.
  { apply (DecodeRune_ValidRune b r size); [by apply isBytes_head|done]. }
  rewrite (StringWidth_step _ r (length (utf8.encode r))).
  - rewrite drop_app_length. f_equal.
    apply (IH (length (drop size b))); [|done|by apply isBytes_drop].
    rewrite length_drop. lia.
  - pose proof (encode_nonempty r). by destruct (utf8.encode r).
  - by apply encode_DecodeRune.
Qed.

(** X5. TruncateToWidth keeps the runes of the bytes TruncateToWidthBytes
    keeps, encoded again, and like it never appends the ellipsis.  The
    two results have the same width, and for a string of valid UTF-8 they
    are the same bytes. *)
Theorem TruncateToWidth_bytes (s : list Z) (maxWidth : Z) :
  TruncateToWidth s maxWidth
  = stringOfRunes (runesOf (TruncateToWidthBytes s maxWidth))
  /\ (isBytes s = true ->
      StringWidth (TruncateToWidth s maxWidth)
      = StringWidth (TruncateToWidthBytes s maxWidth))
  /\ (isBytes s = true -> Valid s = true ->
      TruncateToWidth s maxWidth = TruncateToWidthBytes s maxWidth).
Proof.
  destruct (Z.leb_spec maxWidth 0) as [Hle|Hpos].
  { rewrite TruncateToWidthBytes_nonpositive by done.
    unfold TruncateToWidth. destruct (Z.leb_spec maxWidth 0); [done|lia]. }
  destruct (truncateRunesLoop_bytes (length s) maxWidth s 0 [] [])
    as (k & Hk & Hres & Hrun & Hstop & Hval); [done|].
  rewrite app_nil_l in Hres, Hrun.
  assert (TruncateToWidth s maxWidth = stringOfRunes (runesOf (take k s)))
    as Hout.
  { unfold TruncateToWidth. destruct (Z.leb_spec maxWidth 0); [lia|].
    rewrite Hrun.
    set (u := used (truncateLoop (length s) maxWidth (mkTrunc s 0 []))) in *.
    assert ((length (runesOf (take k s)) <? length (runesOf s))%nat
            && (u <=? maxWidth - 3) = false) as ->; [|done].
    destruct Hstop as [Hend|Hover].
    - assert (take k s = s) as ->.
      { rewrite <- (take_drop k s) at 2. by rewrite Hend, app_nil_r. }
      by rewrite Nat.ltb_irrefl.
    - apply andb_false_iff. right. apply Z.leb_gt. lia. }
  rewrite (TruncateToWidthBytes_loop s maxWidth Hpos), Hres, Hout.
  split; [done|]. split.
  - intros Hb. apply recode_StringWidth. by apply isBytes_take.
  - done.
Qed.

Lemma TruncateToWidth_bytes_witness :
  TruncateToWidth wideCell 5 = TruncateToWidthBytes wideCell 5.
Proof. by apply (TruncateToWidth_bytes wideCell 5). Defined.

(** * Appending a rune *)

Lemma length_encode r : (1 <= length (utf8.encode r) <= 4)%nat.
Proof. unfold utf8.encode. repeat case_match; simpl; lia. Qed.

Lemma appendRune_encode b r : 0 <= r -> appendRune b r = b ++ utf8.encode r.
Proof.
  intros Hr. unfold appendRune, byte_of_rune.
  destruct (Z.ltb_spec r 0x80); [|done].
  rewrite encode_1 by lia. by rewrite Z.mod_small by lia.
Qed.

(** X6. appendRune, by which the border lines are written, and WriteRune,
    by which the rows are, append the same one to four bytes for a code
    point; these bytes decode to the code point again whatever follows
    them, and have its width. *)
Theorem appendRune_DecodeRune (b : list Z) (r : Z) (q : list Z) :
  ValidRune r = true ->
  exists enc,
    appendRune b r = b ++ enc /\ WriteRune b r = b ++ enc
    /\ (1 <= length enc <= 4)%nat
    /\ utf8.DecodeRune (enc ++ q) = (r, length enc)
    /\ StringWidth (enc ++ q) = RuneWidth r + StringWidth q.
Proof.
  intros Hv. exists (utf8.encode r).
  pose proof (proj1 (ValidRune_range r) Hv) as [Hr _].
  split; [apply appendRune_encode; lia|].
  split.
  { unfold WriteRune, utf8.RuneSelf.
    destruct (Z.leb_spec 0 r); [|lia].
    destruct (Z.ltb_spec r 0x80); [|done].
    by rewrite encode_1 by lia. }
  split; [apply length_encode|].
  split; [by apply encode_DecodeRune|].
  rewrite (StringWidth_step _ r (length (utf8.encode r))).
  - by rewrite drop_app_length.
  - pose proof (encode_nonempty r). by destruct (utf8.encode r).
  - by apply encode_DecodeRune.
Qed.

Lemma appendRune_DecodeRune_witness :
  exists enc,
    appendRune [] 0x2502 = [] ++ enc /\ WriteRune [] 0x2502 = [] ++ enc
    /\ (1 <= length enc <= 4)%nat
    /\ utf8.DecodeRune (enc ++ [32]) = (0x2502, length enc)
    /\ StringWidth (enc ++ [32]) = RuneWidth 0x2502 + StringWidth [32].
Proof. by apply (appendRune_DecodeRune [] 0x2502 [32]). Defined.

(** * Padding to a width *)

Lemma StringWidthBytesCustom_app_ascii fn (b : list Z) c q :
  c < 0x80 ->
  StringWidthBytesCustom (b ++ c :: q) fn
  = StringWidthBytesCustom b fn + StringWidthBytesCustom (c :: q) fn.
Proof.
  intros Hc. remember (length b) as len eqn:Hlen. revert b Hlen.
  induction len as [len IH] using lt_wf_ind. intros b Hlen.
  destruct b as [|c0 b0] eqn:Heq; [done|].
  rewrite <- Heq in *. assert (b <> []) as Hne by (by subst).
  destruct (utf8.DecodeRune b) as [r size] eqn:Hd.
  destruct (DecodeRune_size _ _ _ Hne Hd) as [Hs1 Hs2].
  assert (utf8.DecodeRune (b ++ c :: q) = (r, size)) as Hd'.
  { by rewrite DecodeRune_app_ascii. }
  assert (b ++ c :: q <> []) as Hne' by (by destruct b).
  destruct (Z.eq_dec r utf8.RuneError) as [->|Hr].
  - rewrite (StringWidthBytesCustom_error fn (b ++ c :: q) size),
      (StringWidthBytesCustom_error fn b size) by done.
    rewrite drop_app_le by lia.
    rewrite (IH (length (drop 1 b))); [lia| |done].
    rewrite length_drop. lia.
  - rewrite (StringWidthBytesCustom_step fn (b ++ c :: q) r size),
      (StringWidthBytesCustom_step fn b r size) by done.
    rewrite drop_app_le by lia.
    rewrite (IH (length (drop size b))); [lia| |done].
    rewrite length_drop. lia.
Qed.

Lemma StringWidthCustom_app_ascii fn (b : list Z) c q :
  c < 0x80 ->
  StringWidthCustom (b ++ c :: q) fn
  = StringWidthCustom b fn + StringWidthCustom (c :: q) fn.
Proof.
  intros Hc. remember (length b) as len eqn:Hlen. revert b Hlen.
  induction len as [len IH] using lt_wf_ind. intros b Hlen.
  destruct b as [|c0 b0] eqn:Heq; [done|].
  rewrite <- Heq in *. assert (b <> []) as Hne by (by subst).
  destruct (utf8.DecodeRune b) as [r size] eqn:Hd.
  destruct (DecodeRune_size _ _ _ Hne Hd) as [Hs1 Hs2].
  assert (utf8.DecodeRune (b ++ c :: q) = (r, size)) as Hd'.
  { by rewrite DecodeRune_app_ascii. }
  assert (b ++ c :: q <> []) as Hne' by (by destruct b).
  rewrite (StringWidthCustom_step fn (b ++ c :: q) r size),
    (StringWidthCustom_step fn b r size) by done.
  rewrite drop_app_le by lia.
  rewrite (IH (length (drop size b))); [lia| |done].
  rewrite length_drop. lia.
Qed.

Lemma StringWidthBytes_space q :
  StringWidthBytes (32 :: q) = 1 + StringWidthBytes q.
Proof.
  rewrite (StringWidthBytes_step _ 32 1); [done|done| |done].
  by apply DecodeRune_ascii.
Qed.

Lemma StringWidth_space q : StringWidth (32 :: q) = 1 + StringWidth q.
Proof.
  rewrite (StringWidth_step _ 32 1); [done|done|].
  by apply DecodeRune_ascii.
Qed.

Lemma StringWidthBytes_spaces_l n q :
  StringWidthBytes (spaces n ++ q) = Z.max n 0 + StringWidthBytes q.
Proof.
  unfold spaces. rewrite <- (Z2Nat.id (Z.max n 0)) by lia.
  replace (Z.to_nat (Z.max n 0)) with (Z.to_nat n) by lia.
  induction (Z.to_nat n) as [|k IH]; [done|].
  cbn [replicate app]. rewrite StringWidthBytes_space, IH. lia.
Qed.

Lemma StringWidth_spaces_l n q :
  StringWidth (spaces n ++ q) = Z.max n 0 + StringWidth q.
Proof.
  unfold spaces. rewrite <- (Z2Nat.id (Z.max n 0)) by lia.
  replace (Z.to_nat (Z.max n 0)) with (Z.to_nat n) by lia.
  induction (Z.to_nat n) as [|k IH]; [done|].
  cbn [replicate app]. rewrite StringWidth_space, IH. lia.
Qed.

Lemma StringWidthBytes_spaces_r (b : list Z) n :
  StringWidthBytes (b ++ spaces n) = StringWidthBytes b + Z.max n 0.
Proof.
  destruct (spaces n) as [|c q] eqn:Hsp.
  - rewrite app_nil_r. unfold spaces in Hsp.
    destruct (Z.to_nat n) eqn:Hn; [lia|done].
  - assert (c = 32) as ->.
    { unfold spaces in Hsp. destruct (Z.to_nat n); [done|].
      by injection Hsp as <- _. }
    change (StringWidthBytes (b ++ 32 :: q))
      with (StringWidthBytesCustom (b ++ 32 :: q) RuneWidth).
    rewrite StringWidthBytesCustom_app_ascii by lia.
    change (StringWidthBytesCustom b RuneWidth) with (StringWidthBytes b).
    change (StringWidthBytesCustom (32 :: q) RuneWidth)
      with (StringWidthBytes (32 :: q)).
    rewrite <- Hsp, <- (app_nil_r (spaces n)), StringWidthBytes_spaces_l.
    change (StringWidthBytes []) with 0. lia.
Qed.

Lemma StringWidth_spaces_r (b : list Z) n :
  StringWidth (b ++ spaces n) = StringWidth b + Z.max n 0.
Proof.
  destruct (spaces n) as [|c q] eqn:Hsp.
  - rewrite app_nil_r. unfold spaces in Hsp.
    destruct (Z.to_nat n) eqn:Hn; [lia|done].
  - assert (c = 32) as ->.
    { unfold spaces in Hsp. destruct (Z.to_nat n); [done|].
      by injection Hsp as <- _. }
    change (StringWidth (b ++ 32 :: q))
      with (StringWidthCustom (b ++ 32 :: q) RuneWidth).
    rewrite StringWidthCustom_app_ascii by lia.
    change (StringWidthCustom b RuneWidth) with (StringWidth b).
    change (StringWidthCustom (32 :: q) RuneWidth)
      with (StringWidth (32 :: q)).
    rewrite <- Hsp, <- (app_nil_r (spaces n)), StringWidth_spaces_l.
    change (StringWidth []) with 0. lia.
Qed.

Lemma quot_half p : 0 < p -> 0 <= Z.quot p 2 <= p.
Proof.
  intros Hp. split; [apply Z.quot_pos; lia|].
  apply Z.quot_le_upper_bound; lia.
Qed.

Lemma PadToWidthBytes_width b w align :
  StringWidthBytes (PadToWidthBytes b w align)
  = Z.max (StringWidthBytes b) w.
Proof.
  unfold PadToWidthBytes.
  destruct (Z.geb_spec (StringWidthBytes b) w) as [Hge|Hlt]; [lia|].
  pose proof (quot_half (w - StringWidthBytes b)).
  destruct align;
    rewrite ?StringWidthBytes_spaces_l, ?StringWidthBytes_spaces_r; lia.
Qed.

Lemma PadToWidth_width s w align :
  StringWidth (PadToWidth s w align) = Z.max (StringWidth s) w.
Proof.
  unfold PadToWidth.
  destruct (Z.geb_spec (StringWidth s) w) as [Hge|Hlt]; [lia|].
  pose proof (quot_half (w - StringWidth s)).
  destruct align;
    rewrite ?StringWidth_spaces_l, ?StringWidth_spaces_r; lia.
Qed.

(** X7. PadToWidthBytes brings a slice to the width asked for: the result
    measures the larger of the width asked for and the width of the
    input, is longer by exactly the missing columns, and is left alone by
    a second padding to the same width, whatever the alignment. *)
Theorem PadToWidthBytes_pads (b : list Z) (w : Z) (align align' : Align) :
  StringWidthBytes (PadToWidthBytes b w align) = Z.max (StringWidthBytes b) w
  /\ Z.of_nat (length (PadToWidthBytes b w align))
     = Z.of_nat (length b) + Z.max (w - StringWidthBytes b) 0
  /\ PadToWidthBytes (PadToWidthBytes b w align) w align'
     = PadToWidthBytes b w align.
Proof.
  split; [apply PadToWidthBytes_width|]. split.
  - unfold PadToWidthBytes, spaces.
    destruct (Z.geb_spec (StringWidthBytes b) w) as [Hge|Hlt]; [lia|].
    pose proof (quot_half (w - StringWidthBytes b)).
    destruct align; rewrite ?length_app, ?length_replicate; lia.
  - pose proof (PadToWidthBytes_width b w align) as Hw.
    unfold PadToWidthBytes at 1.
    destruct (Z.geb_spec (StringWidthBytes (PadToWidthBytes b w align)) w);
      [done|lia].
Qed.

(** X8. PadToWidth brings a string to the width asked for in the same
    way, with the width StringWidth gives. *)
Theorem PadToWidth_pads (s : list Z) (w : Z) (align align' : Align) :
  StringWidth (PadToWidth s w align) = Z.max (StringWidth s) w
  /\ Z.of_nat (length (PadToWidth s w align))
     = Z.of_nat (length s) + Z.max (w - StringWidth s) 0
  /\ PadToWidth (PadToWidth s w align) w align' = PadToWidth s w align.
Proof.
  split; [apply PadToWidth_width|]. split.
  - unfold PadToWidth, spaces.
    destruct (Z.geb_spec (StringWidth s) w) as [Hge|Hlt]; [lia|].
    pose proof (quot_half (w - StringWidth s)).
    destruct align; rewrite ?length_app, ?length_replicate; lia.
  - pose proof (PadToWidth_width s w align) as Hw.
    unfold PadToWidth at 1.
    destruct (Z.geb_spec (StringWidth (PadToWidth s w align)) w);
      [done|lia].
Qed.

(** * The lines of a rendered table *)

(* Without escape bytes the measure of a cell is its string width. *)
Lemma measure_noESC (b : list Z) :
  ESC ∉ b -> measure RuneWidth b = StringWidth b.
Proof.
  remember (length b) as len eqn:Hlen. revert b Hlen.
  induction len as [len IH] using lt_wf_ind. intros b Hlen Hesc.
  destruct b as [|c b0] eqn:Heq; [done|].
  rewrite <- Heq in *. assert (b <> []) as Hne by (by subst).
  destruct (utf8.DecodeRune b) as [r size] eqn:Hd.
  destruct (DecodeRune_size _ _ _ Hne Hd) as [Hs1 Hs2].
  rewrite (measure_step RuneWidth b r size), (StringWidth_step b r size),
    stepWidth_RuneWidth by (done || by apply noESC_skipANSI).
  f_equal. apply (IH (length (drop size b))); [|done|by apply noESC_drop].
  rewrite length_drop. lia.
Qed.

(* A cell that fits its column comes out exactly as wide as the column. *)
Lemma alignCell_fits t (cell : list Z) w align :
  widthFunc t = DefaultWidthFunc -> ESC ∉ cell -> 0 <= w ->
  StringWidth cell <= w ->
  StringWidth (alignCell t cell w align) = w.
Proof.
  intros Hfn Hesc Hw Hfit. unfold alignCell. rewrite Hfn.
  fold (measure DefaultWidthFunc cell). unfold DefaultWidthFunc.
  rewrite measure_noESC by done.
  destruct (Z.geb_spec (StringWidth cell) w) as [Hge|Hlt].
  - rewrite truncateWithANSI_noESC by done.
    destruct (Z.eq_dec w 0) as [->|].
    + by rewrite TruncateToWidthBytes_nonpositive.
    + rewrite TruncateToWidthBytes_whole by lia. lia.
  - unfold padWithANSI.
    destruct (Z.leb_spec (w - StringWidth cell) 0); [lia|].
    pose proof (quot_half (w - StringWidth cell)).
    destruct align;
      rewrite ?StringWidth_spaces_l, ?StringWidth_spaces_r; lia.
Qed.

Lemma foldr_max_elem a l x : In x l -> x <= foldr Z.max a l.
Proof.
  induction l as [|y l IH]; simpl; [done|].
  intros [->|Hx]; [lia|]. specialize (IH Hx). lia.
Qed.

Lemma widestCell_ge t i header (row : list (list Z)) cell :
  In row (rows t) -> row !! i = Some cell ->
  measure (widthFunc t) cell <= widestCell t i header.
Proof.
  intros Hrow Hcell. unfold widestCell.
  apply foldr_max_elem. apply in_map_iff. exists row.
  split; [by rewrite Hcell|done].
Qed.

Lemma noLimits_columnWidth t i header :
  noLimits t = true -> columnWidth t i header = widestCell t i header.
Proof.
  intros Hno. unfold columnWidth.
  destruct (maxWidths t !! i) as [m|] eqn:Hm; [|done].
  unfold noLimits in Hno. rewrite forallb_forall in Hno.
  assert (m <= 0) as Hle.
  { apply Z.leb_le, Hno. apply list_elem_of_In. by eapply list_elem_of_lookup_2. }
  destruct (Z.ltb_spec 0 m); [lia|done].
Qed.

Lemma plainRune_spec r :
  plainRune r = true -> ValidRune r = true /\ RuneWidth r = 1.
Proof. unfold plainRune. intros [Hv Hw]%andb_true_iff. split; [done|lia]. Qed.

Lemma ValidRune_nonneg r : ValidRune r = true -> 0 <= r.
Proof. intros Hv. apply ValidRune_range in Hv. lia. Qed.

Lemma WriteRune_encode buf r :
  ValidRune r = true -> WriteRune buf r = buf ++ utf8.encode r.
Proof.
  intros Hv. pose proof (ValidRune_nonneg r Hv).
  unfold WriteRune, utf8.RuneSelf.
  destruct (Z.leb_spec 0 r); [|lia].
  destruct (Z.ltb_spec r 0x80); [|done].
  by rewrite encode_1 by lia.
Qed.

Lemma StringWidth_rune r q :
  plainRune r = true -> StringWidth (utf8.encode r ++ q) = 1 + StringWidth q.
Proof.
  intros [Hv Hw]%plainRune_spec.
  rewrite (StringWidth_step _ r (length (utf8.encode r))).
  - by rewrite drop_app_length, Hw.
  - pose proof (encode_nonempty r). by destruct (utf8.encode r).
  - by apply encode_DecodeRune.
Qed.

Lemma StringWidth_app_space (x q : list Z) :
  StringWidth (x ++ 32 :: q) = StringWidth x + 1 + StringWidth q.
Proof.
  change (StringWidth (x ++ 32 :: q))
    with (StringWidthCustom (x ++ 32 :: q) RuneWidth).
  rewrite StringWidthCustom_app_ascii by lia.
  change (StringWidthCustom x RuneWidth) with (StringWidth x).
  change (StringWidthCustom (32 :: q) RuneWidth) with (StringWidth (32 :: q)).
  rewrite StringWidth_space. lia.
Qed.

(** ** Rows *)

Lemma WriteRune_app buf r : WriteRune buf r = buf ++ WriteRune [] r.
Proof. unfold WriteRune. by case_match. Qed.

Lemma rowLoop_app t row ws :
  forall i buf, rowLoop t row i ws buf = buf ++ rowLoop t row i ws [].
Proof.
  induction ws as [|w ws IH]; intros i buf; cbn [rowLoop].
  - by rewrite app_nil_r.
  - rewrite (IH (S i) (WriteRune (((buf ++ [32]) ++ _) ++ [32]) _)).
    rewrite (IH (S i) (WriteRune ((([] ++ [32]) ++ _) ++ [32]) _)).
    rewrite (WriteRune_app (((buf ++ [32]) ++ _) ++ [32])).
    rewrite (WriteRune_app ((([] ++ [32]) ++ _) ++ [32])).
    by rewrite <- !app_assoc.
Qed.

Lemma rowLoop_cons t row i w ws :
  ValidRune (Vertical (style t)) = true ->
  rowLoop t row i (w :: ws) []
  = 32 :: alignCell t (default [] (row !! i)) w
            (default AlignLeft (aligns t !! i))
    ++ 32 :: utf8.encode (Vertical (style t)) ++ rowLoop t row (S i) ws [].
Proof.
  intros Hv. cbn [rowLoop]. rewrite rowLoop_app, WriteRune_encode by done.
  rewrite <- !app_assoc. done.
Qed.

Lemma rowLoop_width t row ws :
  widthFunc t = DefaultWidthFunc -> plainRune (Vertical (style t)) = true ->
  forall i q,
    rowFits row i ws ->
    StringWidth (rowLoop t row i ws [] ++ q)
    = foldr (fun w acc => w + 3 + acc) 0 ws + StringWidth q.
Proof.
  intros Hfn Hplain.
  pose proof (proj1 (plainRune_spec _ Hplain)) as Hv.
  induction ws as [|w ws IH]; intros i q Hfits; [done|].
  rewrite rowLoop_cons by done.
  destruct (Hfits 0%nat w) as (Hw & Hesc & Hfit); [done|].
  rewrite Nat.add_0_r in Hesc, Hfit.
  cbn [app foldr]. rewrite StringWidth_space, <- !app_assoc.
  cbn [app]. rewrite StringWidth_app_space, <- app_assoc.
  rewrite StringWidth_rune by done.
  rewrite alignCell_fits by done.
  rewrite IH; [lia|].
  intros j w' Hj. specialize (Hfits (S j) w' Hj).
  by rewrite Nat.add_succ_r in Hfits.
Qed.

Lemma StringWidth_last_newline (x : list Z) :
  StringWidth (x ++ [10]) = StringWidth x.
Proof.
  change (StringWidth (x ++ [10])) with (StringWidthCustom (x ++ [10]) RuneWidth).
  rewrite StringWidthCustom_app_ascii by lia.
  change (StringWidthCustom [10] RuneWidth) with 0.
  change (StringWidthCustom x RuneWidth) with (StringWidth x). lia.
Qed.

Lemma renderRow_width t row ws :
  widthFunc t = DefaultWidthFunc -> plainRune (Vertical (style t)) = true ->
  ws <> [] -> rowFits row 0 ws ->
  StringWidth (renderRow t [] row ws) = lineWidth ws
  /\ last (renderRow t [] row ws) = Some 10.
Proof.
  intros Hfn Hplain Hne Hfits.
  pose proof (proj1 (plainRune_spec _ Hplain)) as Hv.
  unfold renderRow. destruct ws as [|w ws0] eqn:Hws; [done|].
  rewrite <- Hws in *. replace (length ws =? 0)%nat with false by (by subst).
  split; [|by rewrite last_snoc].
  rewrite StringWidth_last_newline.
  rewrite rowLoop_app, WriteRune_encode, app_nil_l by done.
  rewrite StringWidth_rune by done.
  rewrite <- (app_nil_r (rowLoop _ _ _ _ _)).
  rewrite rowLoop_width by done. unfold lineWidth.
  change (StringWidth []) with 0. lia.
Qed.

(** ** Border lines *)

Lemma appendRune_app b r : appendRune b r = b ++ appendRune [] r.
Proof. unfold appendRune. by case_match. Qed.

Lemma appendFill_app n f : forall b, appendFill n b f = b ++ appendFill n [] f.
Proof.
  induction n as [|n IH]; intros b; simpl.
  - by rewrite app_nil_r.
  - rewrite IH, (IH (appendRune [] f)), (appendRune_app b), app_assoc. done.
Qed.

Lemma appendFill_width n f q :
  plainRune f = true ->
  StringWidth (appendFill n [] f ++ q) = Z.of_nat n + StringWidth q.
Proof.
  intros Hplain. pose proof (proj1 (plainRune_spec _ Hplain)) as Hv.
  induction n as [|n IH]; [simpl; lia|].
  cbn [appendFill]. rewrite appendFill_app, appendRune_encode
    by (by apply ValidRune_nonneg).
  rewrite app_nil_l, <- app_assoc, StringWidth_rune, IH by done. lia.
Qed.

Lemma borderLoop_app len sep fill ws :
  forall i b,
    borderLoop len i ws sep fill b = b ++ borderLoop len i ws sep fill [].
Proof.
  induction ws as [|w ws IH]; intros i b; cbn [borderLoop].
  - by rewrite app_nil_r.
  - rewrite IH. symmetry. rewrite IH. symmetry.
    rewrite app_assoc. f_equal.
    rewrite (appendFill_app _ _ b).
    destruct (i <? len - 1); [|done].
    rewrite appendRune_app, (appendRune_app (appendFill _ [] _)).
    by rewrite app_assoc.
Qed.

Lemma borderLoop_width sep fill ws :
  plainRune sep = true -> plainRune fill = true ->
  forall len i q,
    ws <> [] -> len = i + Z.of_nat (length ws) -> Forall (fun w => 0 <= w) ws ->
    StringWidth (borderLoop len i ws sep fill [] ++ q)
    = foldr (fun w acc => w + 3 + acc) 0 ws - 1 + StringWidth q.
Proof.
  intros Hsep Hfill.
  pose proof (proj1 (plainRune_spec _ Hsep)) as Hv.
  induction ws as [|w ws IH]; intros len i q Hne Hlen Hpos; [done|].
  apply Forall_cons in Hpos as [Hw Hpos].
  cbn [borderLoop foldr]. rewrite borderLoop_app, <- app_assoc.
  destruct ws as [|w' ws'] eqn:Hws.
  - simpl in Hlen. destruct (Z.ltb_spec i (len - 1)); [lia|].
    cbn [borderLoop foldr]. rewrite app_nil_l, appendFill_width by done. lia.
  - rewrite <- Hws in *.
    assert (Z.of_nat (length (w :: ws)) = 1 + Z.of_nat (length ws)) as Hl
      by (simpl; lia).
    assert (0 < Z.of_nat (length ws)) as Hl' by (subst ws; simpl; lia).
    destruct (Z.ltb_spec i (len - 1)); [|lia].
    rewrite appendRune_app, appendRune_encode by (by apply ValidRune_nonneg).
    rewrite app_nil_l, <- !app_assoc, appendFill_width by done.
    rewrite StringWidth_rune by done.
    rewrite (IH len (i + 1) q); [lia|by subst ws|lia|done].
Qed.

Lemma plainStyle_runes s :
  plainStyle s = true ->
  forall r,
    In r [TopLeft s; TopRight s; BottomLeft s; BottomRight s; Horizontal s;
          Vertical s; Cross s; TopTee s; BottomTee s; LeftTee s; RightTee s] ->
    plainRune r = true.
Proof. unfold plainStyle. rewrite forallb_forall. auto. Qed.

Lemma lineRunes_In s lineType startChar endChar sepChar :
  lineRunes s lineType = (startChar, endChar, sepChar) ->
  forall r,
    r = startChar \/ r = endChar \/ r = sepChar ->
    In r [TopLeft s; TopRight s; BottomLeft s; BottomRight s; Horizontal s;
          Vertical s; Cross s; TopTee s; BottomTee s; LeftTee s; RightTee s].
Proof.
  unfold lineRunes. intros Hl r Hr.
  repeat case_match; injection Hl as <- <- <-;
    destruct Hr as [-> | [-> | ->]]; simpl; auto 12.
Qed.

Lemma borderLine_width s ws lineType :
  plainStyle s = true -> ws <> [] -> Forall (fun w => 0 <= w) ws ->
  StringWidth (borderLine s ws lineType) = lineWidth ws
  /\ last (borderLine s ws lineType) = Some 10.
Proof.
  intros Hs Hne Hpos. pose proof (plainStyle_runes s Hs) as Hrunes.
  unfold borderLine.
  destruct (lineRunes s lineType) as [[startChar endChar] sepChar] eqn:Hl.
  pose proof (lineRunes_In s lineType _ _ _ Hl) as Hin.
  split; [|by rewrite last_snoc].
  assert (plainRune startChar = true) as Hst by (apply Hrunes, Hin; auto).
  assert (plainRune endChar = true) as Hen by (apply Hrunes, Hin; auto).
  assert (plainRune sepChar = true) as Hse by (apply Hrunes, Hin; auto).
  rewrite StringWidth_last_newline.
  rewrite appendRune_app, borderLoop_app.
  rewrite !appendRune_encode
    by (by apply ValidRune_nonneg, plainRune_spec).
  rewrite !app_nil_l, <- !app_assoc, StringWidth_rune by done.
  rewrite borderLoop_width;
    [|done|by apply Hrunes; simpl; auto 12|done|lia|done].
  rewrite <- (app_nil_r (utf8.encode endChar)), StringWidth_rune by done.
  unfold lineWidth. change (StringWidth []) with 0. lia.
Qed.

Lemma totalLengthLoop_sum len ws :
  forall i acc,
    ws <> [] -> len = i + Z.of_nat (length ws) ->
    totalLengthLoop len i ws acc
    = acc + foldr (fun w n => w + 2 + n) 0 ws + Z.of_nat (length ws) - 1.
Proof.
  induction ws as [|w ws IH]; intros i acc Hne Hlen; [done|].
  cbn [totalLengthLoop foldr length].
  destruct ws as [|w' ws'] eqn:Hws.
  - simpl in Hlen. destruct (Z.ltb_spec i (len - 1)); [lia|]. simpl. lia.
  - rewrite <- Hws in *.
    assert (ws <> []) as Hne' by (by subst).
    assert (0 < Z.of_nat (length ws)) as Hl by (subst ws; simpl; lia).
    cbn [length] in Hlen.
    destruct (Z.ltb_spec i (len - 1)); [|lia].
    rewrite (IH (i + 1)) by (done || lia). lia.
Qed.

Lemma totalLength_sum ws :
  ws <> [] ->
  totalLength ws
  = foldr (fun w n => w + 2 + n) 0 ws + Z.of_nat (length ws) + 2.
Proof.
  intros Hne. unfold totalLength.
  rewrite (totalLengthLoop_sum _ ws 0 1) by (done || lia). lia.
Qed.

Lemma totalLength_nonneg ws : Forall (fun w => -2 <= w) ws -> 0 <= totalLength ws.
Proof.
  intros Hws. destruct ws as [|w ws'] eqn:Heq; [done|].
  rewrite <- Heq in *. rewrite totalLength_sum by (by subst).
  assert (0 <= foldr (fun w n => w + 2 + n) 0 ws); [|lia].
  clear Heq. induction Hws as [|x l Hx Hl IH]; simpl; lia.
Qed.

(* A line of at least one column is rendered unless its capacity is
   negative. *)
Lemma renderBorderLine_Some s ws lineType :
  ws <> [] -> 0 <= totalLength ws ->
  renderBorderLine s ws lineType = Some (borderLine s ws lineType).
Proof.
  intros Hne Hcap. unfold renderBorderLine, borderLine, lineRunes.
  replace (length ws =? 0)%nat with false by (by destruct ws).
  destruct (Z.ltb_spec (totalLength ws) 0); [lia|].
  destruct (String.eqb lineType "top"); [done|].
  destruct (String.eqb lineType "middle" || String.eqb lineType "header")
    eqn:Hmid.
  - destruct (String.eqb lineType "bottom") eqn:Hbot; [|done].
    apply String.eqb_eq in Hbot. subst lineType. done.
  - by destruct (String.eqb lineType "bottom").
Qed.

Lemma renderBorderLine_None s ws lineType :
  ws <> [] -> totalLength ws < 0 -> renderBorderLine s ws lineType = None.
Proof.
  intros Hne Hcap. unfold renderBorderLine.
  replace (length ws =? 0)%nat with false by (by destruct ws).
  by destruct (Z.ltb_spec (totalLength ws) 0); [|lia].
Qed.

Lemma renderBorder_Some t buf ws lineType :
  ws <> [] -> 0 <= totalLength ws ->
  renderBorder t buf ws lineType
  = Some (buf ++ borderLine (style t) ws lineType).
Proof.
  intros Hne Hcap. unfold renderBorder.
  replace (length ws =? 0)%nat with false by (by destruct ws).
  by rewrite renderBorderLine_Some.
Qed.

(** ** The whole table *)

Lemma renderBorder_app t buf ws lineType :
  renderBorder t buf ws lineType
  = (fun line => buf ++ line) <$> renderBorder t [] ws lineType.
Proof.
  unfold renderBorder. destruct (length ws =? 0)%nat.
  { simpl. by rewrite app_nil_r. }
  by destruct (renderBorderLine (style t) ws lineType).
Qed.

Lemma renderBorder_default t buf ws lineType :
  0 <= totalLength ws ->
  renderBorder t buf ws lineType
  = Some (buf ++ default [] (renderBorder t [] ws lineType)).
Proof.
  intros Hcap. destruct ws as [|w ws'] eqn:Heq.
  { unfold renderBorder. simpl. by rewrite app_nil_r. }
  rewrite <- Heq in *.
  by rewrite !renderBorder_Some by (by subst).
Qed.

Lemma renderRow_app t buf row ws :
  renderRow t buf row ws = buf ++ renderRow t [] row ws.
Proof.
  unfold renderRow. destruct (length ws =? 0)%nat.
  { by rewrite app_nil_r. }
  rewrite rowLoop_app, (rowLoop_app _ _ _ _ (WriteRune [] _)), WriteRune_app.
  by rewrite <- !app_assoc.
Qed.

Lemma renderRows_app t ws rs :
  forall buf,
    foldl (fun buf row => renderRow t buf row ws) buf rs
    = buf ++ concat (map (fun row => renderRow t [] row ws) rs).
Proof.
  induction rs as [|row rs IH]; intros buf; simpl.
  - by rewrite app_nil_r.
  - by rewrite IH, renderRow_app, <- app_assoc.
Qed.

Lemma renderTable_lines t ws :
  measureColumns t = Some ws -> 0 <= totalLength ws ->
  renderTable t [] = Some (concat (tableLines t ws)).
Proof.
  intros Hm Hcap. unfold renderTable, tableLines. rewrite Hm.
  rewrite (renderBorder_default t [] ws "top" Hcap).
  rewrite (renderBorder_default t _ ws "middle" Hcap).
  rewrite (renderBorder_default t _ ws "bottom" Hcap). f_equal.
  rewrite renderRows_app, renderRow_app.
  simpl. rewrite concat_app. simpl. rewrite !app_nil_r, <- !app_assoc. done.
Qed.

Lemma noEscapes_cell t (row : list (list Z)) cell :
  noEscapes t = true -> row = headers t \/ In row (rows t) -> In cell row ->
  ESC ∉ cell.
Proof.
  unfold noEscapes. rewrite forallb_forall. intros Hno Hrow Hcell.
  specialize (Hno row). rewrite forallb_forall in Hno.
  apply noESC_check, Hno; [|done].
  destruct Hrow as [->|Hrow]; [by left|by right].
Qed.

(* Without column limits every header and every cell fits its column. *)
Lemma measureColumns_fits t :
  TableInv t -> widthFunc t = DefaultWidthFunc -> noLimits t = true ->
  noEscapes t = true ->
  exists ws,
    measureColumns t = Some ws
    /\ length ws = length (headers t)
    /\ Forall (fun w => 0 <= w) ws
    /\ forall row, row = headers t \/ In row (rows t) -> rowFits row 0 ws.
Proof.
  intros Hinv Hfn Hlim Hesc.
  destruct (measureColumns_total t (inv_maxWidths t Hinv)) as [ws Hws].
  assert (forall j w,
            ws !! j = Some w ->
            exists header,
              headers t !! j = Some header /\ length ws = length (headers t)
              /\ w = widestCell t j header) as Hcol.
  { intros j w Hj.
    destruct (headers t !! j) as [header|] eqn:Hh.
    - destruct (measureColumns_width_inv t j header (inv_maxWidths t Hinv))
        as (ws' & Hws' & Hlen & Hj' & _); [|done|].
      { right. rewrite Hfn. apply RuneWidth_nonNegative. }
      rewrite Hws in Hws'. injection Hws' as <-.
      exists header. split; [done|]. split; [done|].
      rewrite Hj in Hj'. injection Hj' as ->.
      by apply noLimits_columnWidth.
    - exfalso. destruct (headers t) as [|h hs] eqn:Hhs.
      + unfold measureColumns in Hws. rewrite Hhs in Hws. simpl in Hws.
        injection Hws as <-. done.
      + destruct (measureColumns_width_inv t 0 h (inv_maxWidths t Hinv))
          as (ws' & Hws' & Hlen & _); [|by rewrite Hhs|].
        { right. rewrite Hfn. apply RuneWidth_nonNegative. }
        rewrite Hws in Hws'. injection Hws' as <-.
        apply lookup_lt_Some in Hj. apply lookup_ge_None in Hh.
        rewrite Hhs in Hlen. lia. }
  assert (forall j w header,
            headers t !! j = Some header -> w = widestCell t j header ->
            0 <= measure RuneWidth header <= w) as Hhead.
  { intros j w header Hh ->. split.
    - apply measure_nonneg, RuneWidth_nonNegative.
    - unfold widestCell. rewrite Hfn. apply foldr_max_ge. }
  exists ws. split; [done|]. split.
  { destruct (headers t) as [|h hs] eqn:Hhs.
    - unfold measureColumns in Hws. rewrite Hhs in Hws. simpl in Hws.
      by injection Hws as <-.
    - destruct (measureColumns_width_inv t 0 h (inv_maxWidths t Hinv))
        as (ws' & Hws' & Hlen & _); [|by rewrite Hhs|].
      { right. rewrite Hfn. apply RuneWidth_nonNegative. }
      rewrite Hws in Hws'. injection Hws' as <-. by rewrite <- Hhs. }
  split.
  { apply Forall_lookup. intros j w Hj.
    destruct (Hcol j w Hj) as (header & Hh & _ & Hw).
    specialize (Hhead j w header Hh Hw). lia. }
  intros row Hrow j w Hj. rewrite Nat.add_0_l.
  destruct (Hcol j w Hj) as (header & Hh & _ & Hw).
  pose proof (Hhead j w header Hh Hw) as Hhw.
  split; [lia|].
  destruct (row !! j) as [cell|] eqn:Hcell; simpl.
  2: { split; [apply not_elem_of_nil|]. change (StringWidth []) with 0. lia. }
  assert (ESC ∉ cell) as Hc.
  { apply (noEscapes_cell t row); [done|done|].
    apply list_elem_of_In. by eapply list_elem_of_lookup_2. }
  split; [done|]. rewrite <- measure_noESC by done.
  destruct Hrow as [->|Hrow].
  - rewrite Hh in Hcell. injection Hcell as <-. lia.
  - subst w. pose proof (widestCell_ge t j header row cell Hrow Hcell) as Hge.
    by rewrite Hfn in Hge.
Qed.

(** X9. A table is rendered as a rectangle.  For a table with the default
    width function, border characters one column wide (as in the
    predefined styles), no column limit and no escape bytes in its cells,
    String returns the top border, the header row, the middle border, the
    rows and the bottom border one after the other, and every one of these
    lines ends in a newline and has the same width: one column, and for
    each table column its width and three more. *)
Theorem table_rectangular (t : Table) (pool : Pool) :
  TableInv t -> headers t <> [] -> widthFunc t = DefaultWidthFunc ->
  plainStyle (style t) = true -> noLimits t = true -> noEscapes t = true ->
  exists widths,
    measureColumns t = Some widths
    /\ fst <$> Table_String t pool = Some (concat (tableLines t widths))
    /\ Forall (fun line =>
                 StringWidth line = lineWidth widths /\ last line = Some 10)
         (tableLines t widths).
Proof.
  intros Hinv Hh Hfn Hstyle Hlim Hesc.
  destruct (measureColumns_fits t Hinv Hfn Hlim Hesc)
    as (ws & Hws & Hlen & Hpos & Hfits).
  assert (ws <> []) as Hne.
  { destruct ws; [|done]. destruct (headers t); done. }
  assert (plainRune (Vertical (style t)) = true) as Hvert.
  { apply (plainStyle_runes _ Hstyle). simpl. auto 12. }
  assert (0 <= totalLength ws) as Hcap.
  { apply totalLength_nonneg. eapply Forall_impl; [exact Hpos|].
    simpl. lia. }
  exists ws. split; [done|]. split.
  { rewrite Table_String_render by (by destruct (headers t)).
    rewrite (renderTable_lines t ws Hws Hcap). done. }
  assert (forall lineType,
            StringWidth (default [] (renderBorder t [] ws lineType))
            = lineWidth ws
            /\ last (default [] (renderBorder t [] ws lineType)) = Some 10)
    as Hborder.
  { intros lineType. rewrite renderBorder_Some by done.
    rewrite app_nil_l. by apply borderLine_width. }
  unfold tableLines. repeat apply Forall_cons_2; try apply Hborder.
  - apply renderRow_width; auto.
  - apply Forall_app. split.
    + apply Forall_map, Forall_forall. intros row Hrow. simpl.
      apply renderRow_width; auto. apply Hfits. right.
      by apply list_elem_of_In.
    + apply Forall_cons_2; [apply Hborder|done].
Qed.

Lemma table_rectangular_witness :
  exists widths,
    measureColumns plainExample = Some widths
    /\ fst <$> Table_String plainExample []
       = Some (concat (tableLines plainExample widths))
    /\ Forall (fun line =>
                 StringWidth line = lineWidth widths /\ last line = Some 10)
         (tableLines plainExample widths).
Proof.
  apply (table_rectangular plainExample []); try done.
  split; [done|done|]. repeat constructor.
Defined.

(** * Truncation and code points *)

Lemma runesOf_nil : runesOf [] = [].
Proof. done. Qed.

Lemma Valid_cons s r size :
  s <> [] -> utf8.DecodeRune s = (r, size) ->
  r <> utf8.RuneError \/ size <> 1%nat -> Valid (drop size s) = true ->
  Valid s = true.
Proof.
  intros Hne Hd Hr Hv. unfold Valid.
  destruct (DecodeRune_size _ _ _ Hne Hd) as [Hs1 Hs2].
  destruct s as [|c s0] eqn:Hs; [done|]. rewrite <- Hs in *.
  assert (length s = S (length s0)) as Hlen by (by subst).
  rewrite Hlen. simpl.
  replace (0 <? length s)%nat with true by (subst; done).
  rewrite Hd. apply andb_true_iff. split.
  - apply negb_true_iff, andb_false_iff.
    destruct Hr as [Hr|Hr].
    + left. by apply Z.eqb_neq.
    + right. by apply Nat.eqb_neq.
  - rewrite <- Hv. apply validLoop_fuel; rewrite length_drop; lia.
Qed.

(* The loop of TruncateToWidthBytes stops between two code points. *)
Lemma truncateLoop_runes fuel maxWidth st :
  (length (rest st) <= fuel)%nat ->
  exists k,
    (k <= length (rest st))%nat
    /\ result (truncateLoop fuel maxWidth st) = result st ++ take k (rest st)
    /\ runesOf (rest st)
       = runesOf (take k (rest st)) ++ runesOf (drop k (rest st))
    /\ (Valid (rest st) = true -> Valid (take k (rest st)) = true).
Proof.
  revert st. induction fuel as [|fuel IH]; intros st Hfuel.
  - exists 0%nat. destruct (rest st) eqn:Hrest; [|simpl in Hfuel; lia].
    simpl. rewrite ?Hrest, ?app_nil_r. repeat split; auto.
  - cbn [truncateLoop].
    destruct (rest st) as [|c b0] eqn:Hb.
    { exists 0%nat. simpl. rewrite ?app_nil_r, ?Hb. repeat split; auto. }
    rewrite <- Hb in *. set (b := rest st) in *.
    assert (b <> []) as Hne by (rewrite Hb; done).
    replace (0 <? length b)%nat with true by (rewrite Hb; done).
    destruct (utf8.DecodeRune b) as [r size] eqn:Hd.
    destruct (DecodeRune_size _ _ _ Hne Hd) as [Hs1 Hs2].
    destruct (Z.gtb_spec (used st + RuneWidth r) maxWidth) as [Hbreak|Hfit].
    { exists 0%nat. rewrite drop_0, take_0, app_nil_r.
      repeat split; try done; lia. }
    set (st1 := mkTrunc (drop size b) (used st + RuneWidth r)
                        (result st ++ take size b)).
    destruct (IH st1) as (k1 & Hk1 & Hres & Hrunes & Hval).
    { simpl. rewrite length_drop. lia. }
    simpl in Hk1, Hres, Hrunes, Hval.
    rewrite length_drop in Hk1.
    exists (size + k1)%nat. split; [lia|].
    split; [by rewrite Hres, <- app_assoc, take_take_drop|].
    split.
    { rewrite (runesOf_step b r size), (runesOf_take_step b r size) by done.
      by rewrite Hrunes, <- drop_drop. }
    intros Hv. destruct (Valid_step b r size Hne Hd Hv) as [Hr Hv1].
    apply (Valid_cons _ r size).
    + rewrite Hb. destruct size; [lia|done].
    + apply DecodeRune_take; [done|lia|lia].
    + destruct Hr as [Hr| ->]; [by left|by right].
    + rewrite <- take_drop_commute. by apply Hval.
Qed.

(** X10. TruncateToWidthBytes never cuts a code point in two: the runes
    of the result are the first runes of the input, the runes of the
    input are those of the result followed by those of the bytes cut off,
    and the result of truncating valid UTF-8 is valid UTF-8. *)
Theorem TruncateToWidthBytes_runes (b : list Z) (maxWidth : Z) :
  exists cut,
    b = TruncateToWidthBytes b maxWidth ++ cut
    /\ runesOf b = runesOf (TruncateToWidthBytes b maxWidth) ++ runesOf cut
    /\ (Valid b = true -> Valid (TruncateToWidthBytes b maxWidth) = true).
Proof.
  destruct (Z.leb_spec maxWidth 0) as [Hle|Hpos].
  { exists b. by rewrite TruncateToWidthBytes_nonpositive. }
  destruct (truncateLoop_runes (length b) maxWidth (mkTrunc b 0 []))
    as (k & Hk & Hres & Hrunes & Hval); [done|].
  simpl in Hk, Hres, Hrunes, Hval.
  rewrite (TruncateToWidthBytes_loop b maxWidth Hpos), Hres.
  exists (drop k b). by rewrite take_drop.
Qed.

(** * The width of a concatenation *)

Lemma StringWidthCustom_app_Valid fn (a b : list Z) :
  Valid a = true ->
  StringWidthCustom (a ++ b) fn
  = StringWidthCustom a fn + StringWidthCustom b fn.
Proof.
  remember (length a) as len eqn:Hlen. revert a Hlen.
  induction len as [len IH] using lt_wf_ind. intros a Hlen Hv.
  destruct a as [|c a0] eqn:Heq; [done|].
  rewrite <- Heq in *. assert (a <> []) as Hne by (by subst).
  destruct (utf8.DecodeRune a) as [r size] eqn:Hd.
  destruct (DecodeRune_size _ _ _ Hne Hd) as [Hs1 Hs2].
  destruct (Valid_step a r size Hne Hd Hv) as [Hr Hv1].
  rewrite (StringWidthCustom_step fn (a ++ b) r size),
    (StringWidthCustom_step fn a r size);
    [|done|done|by destruct a|by apply DecodeRune_app_Valid].
  rewrite drop_app_le by lia.
  rewrite (IH (length (drop size a))); [lia| |done|done].
  rewrite length_drop. lia.
Qed.

Lemma StringWidthBytesCustom_app_Valid fn (a b : list Z) :
  Valid a = true ->
  StringWidthBytesCustom (a ++ b) fn
  = StringWidthBytesCustom a fn + StringWidthBytesCustom b fn.
Proof.
  remember (length a) as len eqn:Hlen. revert a Hlen.
  induction len as [len IH] using lt_wf_ind. intros a Hlen Hv.
  destruct a as [|c a0] eqn:Heq; [done|].
  rewrite <- Heq in *. assert (a <> []) as Hne by (by subst).
  destruct (utf8.DecodeRune a) as [r size] eqn:Hd.
  destruct (DecodeRune_size _ _ _ Hne Hd) as [Hs1 Hs2].
  destruct (Valid_step a r size Hne Hd Hv) as [Hr Hv1].
  destruct (Z.eq_dec r utf8.RuneError) as [->|Hne'].
  - destruct (DecodeRune_RuneError _ _ Hd) as [Hle|[-> [a' Ha]]].
    { destruct Hr as [Hr|Hr]; [done|lia]. }
    rewrite Ha in *. cbn [app].
    rewrite !StringWidthBytesCustom_replacement.
    rewrite (IH (length a')); [lia|simpl in Hlen; lia|done|done].
  - rewrite (StringWidthBytesCustom_step fn (a ++ b) r size),
      (StringWidthBytesCustom_step fn a r size);
      [|done|done|done|by destruct a|by apply DecodeRune_app_valid|done].
    rewrite drop_app_le by lia.
    rewrite (IH (length (drop size a))); [lia| |done|done].
    rewrite length_drop. lia.
Qed.

(** X11. The width of a concatenation is the sum of the widths, for the
    loop over a string and the loop over bytes alike and under every
    width function, when the first part is valid UTF-8 or the second part
    is empty or begins with an ASCII byte.  (After an incomplete code
    point the sum can be too large: E4 and B8 AD are three columns apart
    and two together.) *)
Theorem StringWidth_app (fn : WidthFunc) (a b : list Z) :
  Valid a = true \/ b = [] \/ (exists c q, b = c :: q /\ c < 0x80) ->
  StringWidthCustom (a ++ b) fn
  = StringWidthCustom a fn + StringWidthCustom b fn
  /\ StringWidthBytesCustom (a ++ b) fn
     = StringWidthBytesCustom a fn + StringWidthBytesCustom b fn.
Proof.
  intros [Hv|[->|(c & q & -> & Hc)]].
  - split.
    + by apply StringWidthCustom_app_Valid.
    + by apply StringWidthBytesCustom_app_Valid.
  - rewrite app_nil_r.
    change (StringWidthCustom [] fn) with 0.
    change (StringWidthBytesCustom [] fn) with 0. lia.
  - split.
    + by apply StringWidthCustom_app_ascii.
    + by apply StringWidthBytesCustom_app_ascii.
Qed.

Lemma StringWidth_app_witness :
  StringWidthCustom (zhong ++ zhong) RuneWidth
  = StringWidthCustom zhong RuneWidth + StringWidthCustom zhong RuneWidth
  /\ StringWidthBytesCustom (zhong ++ zhong) RuneWidth
     = StringWidthBytesCustom zhong RuneWidth
       + StringWidthBytesCustom zhong RuneWidth.
Proof. apply (StringWidth_app RuneWidth zhong zhong). by left. Defined.

(** * Writing to a sink *)

Lemma renderBorder_nonempty t buf ws lineType s :
  ws <> [] -> renderBorder t buf ws lineType = Some s -> s <> [].
Proof.
  intros Hne. unfold renderBorder, renderBorderLine.
  replace (length ws =? 0)%nat with false by (by destruct ws).
  repeat case_match; try done.
  all: intros [= <-]; simplify_eq.
  all: rewrite !app_assoc; by intros [_ ?]%app_eq_nil.
Qed.

Lemma measureColumns_length t ws :
  length (maxWidths t) = length (headers t) ->
  measureColumns t = Some ws -> length ws = length (headers t).
Proof.
  intros Hmax. unfold measureColumns.
  destruct (Nat.eqb_spec (length (headers t)) 0) as [Hz|Hnz].
  { intros [= <-]. by rewrite Hz. }
  edestruct (clipLoop_Some 0 (maxWidths t)) as (ws' & -> & Hlen & _).
  { rewrite length_measureRows, length_map. simpl. lia. }
  intros [= <-]. by rewrite Hlen, length_measureRows, length_map.
Qed.

Lemma renderTable_nonempty t s :
  length (maxWidths t) = length (headers t) -> headers t <> [] ->
  renderTable t [] = Some s -> s <> [].
Proof.
  intros Hmax Hne Hs.
  destruct (measureColumns_total t Hmax) as [ws Hws].
  pose proof (measureColumns_length t ws Hmax Hws) as Hlen.
  assert (ws <> []) as Hws'.
  { destruct ws; [|done]. by destruct (headers t). }
  unfold renderTable in Hs. rewrite Hws in Hs.
  destruct (renderBorder t [] ws "top") as [b1|]; [|done].
  destruct (renderBorder t (renderRow t b1 (headers t) ws) ws "middle")
    as [b2|]; [|done].
  by apply renderBorder_nonempty in Hs.
Qed.

(** X12. WriteTo hands the whole text String returns to the writer in one
    call of Write and answers with the writer's own count and error; a
    count short of the text without an error is reported as
    io.ErrShortWrite, and a count beyond the text makes the buffer
    panic. *)
Theorem WriteTo_sink (t : Table) (W : Writer) (w w' : sink W)
    (pool1 pool1' pool2 : Pool) (s : list Z) (m : Z) (e : option error) :
  TableInv t -> headers t <> [] ->
  Table_String t pool1 = Some (s, pool1') ->
  Write W w s = (w', m, e) ->
  (Z.of_nat (length s) < m -> Table_WriteTo t W w pool2 = None)
  /\ (m <= Z.of_nat (length s) ->
      exists pool2',
        Table_WriteTo t W w pool2
        = Some (w', m,
                match e with
                | Some err => Some err
                | None =>
                    if m =? Z.of_nat (length s) then None
                    else Some ErrShortWrite
                end, pool2')).
Proof.
  intros Hinv Hne Hstr Hwrite.
  assert (length (headers t) <> 0%nat) as Hlen by (by destruct (headers t)).
  rewrite Table_String_render in Hstr by done.
  destruct (renderTable t []) as [s'|] eqn:Hs; [|done].
  injection Hstr as <- _.
  pose proof (renderTable_nonempty t s' (inv_maxWidths t Hinv) Hne Hs) as Hs'.
  rewrite Table_WriteTo_render, Hs by done.
  unfold Buffer_WriteTo.
  destruct (Z.gtb_spec (Z.of_nat (length s')) 0) as [_|Hle].
  2: { destruct s'; [done|]. simpl in Hle. lia. }
  rewrite Hwrite. split.
  - intros Hm. by destruct (Z.gtb_spec m (Z.of_nat (length s'))); [|lia].
  - intros Hm. destruct (Z.gtb_spec m (Z.of_nat (length s'))); [lia|].
    destruct e as [err|]; [by eexists|].
    destruct (m =? Z.of_nat (length s')); by eexists.
Qed.

Lemma WriteTo_sink_witness :
  exists out pool2',
    Table_WriteTo layoutExample (limitWriter 10) [] []
    = Some (out, 10, Some (ErrSink "no space left"), pool2').
Proof.
  assert (TableInv layoutExample) as Hinv.
  { apply (applyOps_inv (NewFromStrings ["Name"; "Age"]%string)
             [OpAddRow [VString "Alice"; VInt 30];
              OpAddRow [VString "Bob"; VInt 7]; OpSetMaxWidth 0 4]).
    apply New_inv. }
  assert (headers layoutExample <> []) as Hne by done.
  destruct (Table_String layoutExample []) as [[s p1]|] eqn:Hs;
    [|by vm_compute in Hs].
  destruct (Write (limitWriter 10) [] s) as [[w' m] e] eqn:Hw.
  destruct (WriteTo_sink layoutExample (limitWriter 10) [] w' [] p1 [] s m e
              Hinv Hne Hs Hw) as [_ H].
  vm_compute in Hs. injection Hs as <- <-.
  vm_compute in Hw. injection Hw as <- <- <-.
  destruct H as [pool2' H]; [by vm_compute|].
  eexists _, pool2'. exact H.
Defined.

(** * Adding rows *)

Lemma fillRow_map {A} (conv : A -> list Z) n values :
  forall i row,
    fillRow (fun val => val) n i (map conv values) row
    = fillRow conv n i values row.
Proof.
  induction values as [|val values IH]; intros i row; simpl; [done|].
  destruct (n <=? i)%nat; [done|]. apply IH.
Qed.

Lemma addRowWith_map {A} (conv : A -> list Z) t values :
  addRowWith (fun val => val) t (map conv values) = addRowWith conv t values.
Proof.
  unfold addRowWith. rewrite length_map, fillRow_map. done.
Qed.

(** X13. AddRow with at least one value appends exactly one row and
    changes nothing else: the row has one cell per header, cell [i] is
    the text of value [i] where there is one and empty otherwise, and
    values beyond the last header are dropped.  AddRowBytes with the
    texts of the values builds the same table. *)
Theorem AddRow_row (t : Table) (values : list Value) :
  values <> [] ->
  exists row,
    rows (AddRow t values) = rows t ++ [row]
    /\ length row = length (headers t)
    /\ (forall i, (i < length (headers t))%nat ->
          row !! i = Some (default [] (cellOfValue <$> values !! i)))
    /\ headers (AddRow t values) = headers t
    /\ aligns (AddRow t values) = aligns t
    /\ maxWidths (AddRow t values) = maxWidths t
    /\ AddRowBytes t (map cellOfValue values) = AddRow t values.
Proof.
  intros Hne.
  exists (map (fun k => default [] (cellOfValue <$> values !! k))
            (seq 0 (length (headers t)))).
  split; [by apply addRowWith_rows|].
  split; [by rewrite length_map, length_seq|].
  split.
  { intros i Hi. rewrite list_lookup_fmap, lookup_seq_lt by done. done. }
  unfold AddRow, AddRowBytes. rewrite addRowWith_map.
  unfold addRowWith. by destruct (length values =? 0)%nat.
Qed.

Lemma AddRow_row_witness :
  exists row,
    rows (AddRow (NewFromStrings ["Name"; "Age"]%string) [VString "Bob"])
    = rows (NewFromStrings ["Name"; "Age"]%string) ++ [row]
    /\ length row = 2%nat.
Proof.
  destruct (AddRow_row (NewFromStrings ["Name"; "Age"]%string)
              [VString "Bob"]) as (row & Hrows & Hlen & _); [done|].
  by exists row.
Defined.

(** * Rows and column widths *)

Lemma foldr_max_snoc a l x :
  foldr Z.max a (l ++ [x]) = Z.max x (foldr Z.max a l).
Proof. induction l as [|y l IH]; simpl; [lia|]. rewrite IH. lia. Qed.

Lemma foldr_max_mono a l b :
  a <= b -> foldr Z.max a l <= foldr Z.max b l.
Proof. intros Hab. induction l as [|y l IH]; simpl; lia. Qed.

Lemma addRowWith_columnWidth {A} (conv : A -> list Z) t values i header :
  columnWidth t i header <= columnWidth (addRowWith conv t values) i header.
Proof.
  unfold addRowWith. destruct (length values =? 0)%nat; [done|].
  unfold columnWidth, widestCell. cbn [rows maxWidths widthFunc].
  rewrite map_app. cbn [map]. rewrite foldr_max_snoc.
  destruct (maxWidths t !! i) as [m|]; [|lia].
  destruct (0 <? m); lia.
Qed.

Lemma addRowWith_widens {A} (conv : A -> list Z) t values ws ws' :
  TableInv t ->
  measureColumns t = Some ws ->
  measureColumns (addRowWith conv t values) = Some ws' ->
  Forall2 Z.le ws ws'.
Proof.
  intros Hinv Hws Hws'.
  pose proof (addRowWith_inv conv t values Hinv) as Hinv'.
  assert (headers (addRowWith conv t values) = headers t) as Hh.
  { unfold addRowWith. by destruct (length values =? 0)%nat. }
  pose proof (measureColumns_length _ _ (inv_maxWidths _ Hinv) Hws) as Hl.
  pose proof (measureColumns_length _ _ (inv_maxWidths _ Hinv') Hws') as Hl'.
  rewrite Hh in Hl'.
  apply Forall2_same_length_lookup. split; [lia|].
  intros i w w' Hw Hw'.
  destruct (headers t !! i) as [header|] eqn:Hhd.
  2: { apply lookup_lt_Some in Hw. apply lookup_ge_None in Hhd. lia. }
  destruct (measureColumns_width_inv t i header (inv_maxWidths _ Hinv))
    as (ws0 & Hws0 & _ & Hi & _); [left; apply (inv_rows _ Hinv)|done|].
  destruct (measureColumns_width_inv (addRowWith conv t values) i header
              (inv_maxWidths _ Hinv'))
    as (ws1 & Hws1 & _ & Hi' & _);
    [left; apply (inv_rows _ Hinv')|by rewrite Hh|].
  rewrite Hws in Hws0. injection Hws0 as <-.
  rewrite Hws' in Hws1. injection Hws1 as <-.
  rewrite Hw in Hi. injection Hi as ->.
  rewrite Hw' in Hi'. injection Hi' as ->.
  apply addRowWith_columnWidth.
Qed.

(** X14. Adding a row never narrows a column and never changes the number
    of columns: each width measureColumns computes after AddRow or
    AddRowBytes is at least the width it computed before. *)
Theorem AddRow_widens (t : Table) (values : list Value)
    (cells : list (list Z)) (ws : list Z) :
  TableInv t -> measureColumns t = Some ws ->
  (exists ws', measureColumns (AddRow t values) = Some ws'
               /\ Forall2 Z.le ws ws')
  /\ (exists ws', measureColumns (AddRowBytes t cells) = Some ws'
                  /\ Forall2 Z.le ws ws').
Proof.
  intros Hinv Hws. split.
  - destruct (measureColumns_total (AddRow t values)) as [ws' Hws'].
    { apply inv_maxWidths. by apply addRowWith_inv. }
    exists ws'. split; [done|].
    by apply (addRowWith_widens cellOfValue t values).
  - destruct (measureColumns_total (AddRowBytes t cells)) as [ws' Hws'].
    { apply inv_maxWidths. by apply addRowWith_inv. }
    exists ws'. split; [done|].
    by apply (addRowWith_widens (fun val => val) t cells).
Qed.

Lemma AddRow_widens_witness :
  exists ws',
    measureColumns
      (AddRow (NewFromStrings ["Name"; "Age"]%string) [VString "Alice"])
    = Some ws'
    /\ Forall2 Z.le [4; 3] ws'.
Proof.
  apply (AddRow_widens (NewFromStrings ["Name"; "Age"]%string)
           [VString "Alice"] [] [4; 3]); [apply New_inv|done].
Defined.

(** * Column limits *)

Lemma SetMaxWidth_inv t col w : TableInv t -> TableInv (SetMaxWidth t col w).
Proof.
  intros [Ha Hm Hr]. unfold SetMaxWidth.
  destruct ((col >=? 0) && (col <? Z.of_nat (length (maxWidths t))));
    [|done].
  split; simpl; [done| |done]. by rewrite length_insert.
Qed.

Lemma SetMaxWidth_columnWidth t col w i header :
  0 <= col < Z.of_nat (length (maxWidths t)) ->
  columnWidth (SetMaxWidth t col w) i header
  = if decide (i = Z.to_nat col) then
      if 0 <? w then Z.min (widestCell t i header) w
      else widestCell t i header
    else columnWidth t i header.
Proof.
  intros Hcol. unfold SetMaxWidth.
  destruct (Z.geb_spec col 0); [|lia].
  destruct (Z.ltb_spec col (Z.of_nat (length (maxWidths t)))); [|lia].
  unfold columnWidth, widestCell. cbn [andb maxWidths rows widthFunc].
  destruct (decide (i = Z.to_nat col)) as [->|Hne].
  - rewrite list_lookup_insert_eq by lia. done.
  - rewrite list_lookup_insert_ne by done. done.
Qed.

(** X15. SetMaxWidth limits the column it names and no other: with a
    positive limit the width of that column is the smaller of the limit
    and the width it has without one, and every other column keeps its
    width; a limit of zero or less lifts the limit, and a column index
    outside the table changes nothing. *)
Theorem SetMaxWidth_column (t : Table) (col w : Z) (u : list Z) :
  TableInv t ->
  measureColumns (SetMaxWidth t col 0) = Some u ->
  (col < 0 \/ Z.of_nat (length (headers t)) <= col ->
   SetMaxWidth t col w = t)
  /\ (0 <= col < Z.of_nat (length (headers t)) ->
      measureColumns (SetMaxWidth t col w)
      = Some (if 0 <? w then
                <[Z.to_nat col := Z.min (default 0 (u !! Z.to_nat col)) w]> u
              else u)).
Proof.
  intros Hinv Hu. pose proof (inv_maxWidths t Hinv) as Hmax. split.
  { intros Hout. unfold SetMaxWidth. rewrite Hmax.
    destruct (Z.geb_spec col 0); [|done].
    destruct (Z.ltb_spec col (Z.of_nat (length (headers t)))); [lia|done]. }
  intros Hcol.
  assert (forall w', headers (SetMaxWidth t col w') = headers t) as Hh.
  { intros w'. unfold SetMaxWidth.
    by destruct ((col >=? 0) && (col <? Z.of_nat (length (maxWidths t)))). }
  pose proof (SetMaxWidth_inv t col 0 Hinv) as Hinv0.
  pose proof (SetMaxWidth_inv t col w Hinv) as Hinvw.
  destruct (measureColumns_total (SetMaxWidth t col w)) as [ws Hws].
  { by apply inv_maxWidths. }
  pose proof (measureColumns_length _ _ (inv_maxWidths _ Hinv0) Hu) as Hlu.
  pose proof (measureColumns_length _ _ (inv_maxWidths _ Hinvw) Hws) as Hlw.
  rewrite Hh in Hlu, Hlw.
  assert (forall w' ws' i header,
            measureColumns (SetMaxWidth t col w') = Some ws' ->
            headers t !! i = Some header ->
            ws' !! i
            = Some (if decide (i = Z.to_nat col) then
                      if 0 <? w' then Z.min (widestCell t i header) w'
                      else widestCell t i header
                    else columnWidth t i header)) as Hlookup.
  { intros w' ws' i header Hm Hhd.
    destruct (measureColumns_width_inv (SetMaxWidth t col w') i header)
      as (ws0 & Hws0 & _ & Hi & _).
    - apply inv_maxWidths. by apply SetMaxWidth_inv.
    - left. apply inv_rows. by apply SetMaxWidth_inv.
    - by rewrite Hh.
    - rewrite Hm in Hws0. injection Hws0 as <-.
      rewrite Hi, SetMaxWidth_columnWidth by lia. done. }
  rewrite Hws. f_equal. apply list_eq. intros i.
  destruct (headers t !! i) as [header|] eqn:Hhd.
  2: { apply lookup_ge_None in Hhd.
       rewrite lookup_ge_None_2 by lia. symmetry. apply lookup_ge_None_2.
       destruct (0 <? w); rewrite ?length_insert; lia. }
  rewrite (Hlookup w ws i header Hws Hhd).
  pose proof (Hlookup 0 u i header Hu Hhd) as Hui.
  destruct (Z.ltb_spec 0 w) as [Hpos|Hle].
  - destruct (decide (i = Z.to_nat col)) as [->|Hne].
    + rewrite list_lookup_insert_eq by lia. rewrite Hui. done.
    + rewrite list_lookup_insert_ne by done. by rewrite Hui.
  - rewrite Hui. by destruct (decide (i = Z.to_nat col)).
Qed.

Lemma SetMaxWidth_column_witness :
  measureColumns (SetMaxWidth layoutExample 0 3) = Some [3; 3].
Proof.
  apply (SetMaxWidth_column layoutExample 0 3 [5; 3]); [|done|done].
  apply (applyOps_inv (NewFromStrings ["Name"; "Age"]%string)
           [OpAddRow [VString "Alice"; VInt 30];
            OpAddRow [VString "Bob"; VInt 7]; OpSetMaxWidth 0 4]).
  apply New_inv.
Defined.

(** * The buffer pool *)

(** X16. What String returns and what WriteTo writes and answers do not
    depend on the buffer pool: the buffer taken from the pool is emptied
    before use, so the bytes an earlier render or an incomplete write
    left in it never show. *)
Theorem render_ignores_pool (t : Table) (W : Writer) (w : sink W)
    (pool1 pool2 : Pool) :
  fst <$> Table_String t pool1 = fst <$> Table_String t pool2
  /\ fst <$> Table_WriteTo t W w pool1 = fst <$> Table_WriteTo t W w pool2.
Proof.
  destruct (Nat.eqb_spec (length (headers t)) 0) as [Hz|Hnz].
  { unfold Table_String, Table_WriteTo. by rewrite Hz. }
  rewrite !Table_String_render, !Table_WriteTo_render by done.
  destruct (renderTable t []) as [buf|]; [|done].
  split; [done|].
  by destruct (Buffer_WriteTo W buf w) as [[[[buf' w'] m] e]|].
Qed.

(** * The shape of a border line *)













(** * Where a cell is placed *)

(** X19. Under the default width function a cell without escape bytes that
    fits a column of positive width is rendered whole, with spaces before
    and after it that make up the missing columns: none before it when
    aligned left, none after it when aligned right, and when centred as
    many after it as before it or one more. *)
Theorem alignCell_places (t : Table) (cell : list Z) (w : Z) (align : Align) :
  widthFunc t = DefaultWidthFunc -> ESC ∉ cell -> 0 < w ->
  StringWidth cell <= w ->
  exists l r,
    alignCell t cell w align = spaces l ++ cell ++ spaces r
    /\ 0 <= l /\ 0 <= r /\ l + r = w - StringWidth cell
    /\ match align with
       | AlignLeft => l = 0
       | AlignRight => r = 0
       | AlignCenter => l <= r <= l + 1
       end.
Proof.
  intros Hfn Hesc Hw Hfit. unfold alignCell. rewrite Hfn.
  fold (measure DefaultWidthFunc cell). unfold DefaultWidthFunc.
  rewrite measure_noESC by done.
  destruct (Z.geb_spec (StringWidth cell) w) as [Hge|Hlt].
  - rewrite truncateWithANSI_noESC, TruncateToWidthBytes_whole by (done || lia).
    exists 0, 0. change (spaces 0) with (@nil Z). rewrite app_nil_r.
    repeat split; try lia. destruct align; lia.
  - unfold padWithANSI.
    destruct (Z.leb_spec (w - StringWidth cell) 0); [lia|].
    set (p := w - StringWidth cell) in *.
    assert (Z.quot p 2 = p / 2) as Hq by (apply Z.quot_div_nonneg; lia).
    destruct align.
    + exists 0, p. change (spaces 0) with (@nil Z). repeat split; lia.
    + exists (Z.quot p 2), (p - Z.quot p 2).
      repeat split; rewrite ?Hq; Z.div_mod_to_equations; lia.
    + exists p, 0. change (spaces 0) with (@nil Z). rewrite app_nil_r.
      repeat split; lia.
Qed.

Lemma alignCell_places_witness :
  exists l r,
    alignCell (New []) zhong 5 AlignCenter = spaces l ++ zhong ++ spaces r
    /\ 0 <= l /\ 0 <= r /\ l + r = 5 - StringWidth zhong /\ l <= r <= l + 1.
Proof.
  apply (alignCell_places (New []) zhong 5 AlignCenter); try done.
  by apply noESC_check.
Defined.

(** * Truncating and padding *)

(** X20. Truncating and then padding fits any bytes to a width: the
    result of PadToWidth on what TruncateToWidthBytes returns measures
    exactly the width asked for.  Padding first and truncating to the same
    width afterwards leaves a string that fits as the padding made it. *)
Theorem truncate_pad (b : list Z) (w : Z) (align : Align) :
  0 <= w ->
  StringWidth (PadToWidth (TruncateToWidthBytes b w) w align) = w
  /\ (0 < w -> StringWidth b <= w ->
      TruncateToWidthBytes (PadToWidth b w align) w = PadToWidth b w align).
Proof.
  intros Hw. split.
  - rewrite PadToWidth_width.
    pose proof (TruncateToWidthBytes_le b w). lia.
  - intros Hpos Hfit. apply TruncateToWidthBytes_whole; [done|].
    rewrite PadToWidth_width. lia.
Qed.

Lemma truncate_pad_witness :
  StringWidth (PadToWidth (TruncateToWidthBytes wideCell 7) 7 AlignLeft) = 7.
Proof. apply (truncate_pad wideCell 7 AlignLeft). lia. Defined.

(** * The two renders *)




(* A width function with negative values can make the capacity of the
   border lines negative: both renders panic. *)
Remark render_negative_width_panics :
  measureColumns negTable = Some [-6]
  /\ totalLength [-6] = -1
  /\ Table_String negTable [] = None
  /\ Table_WriteTo negTable memWriter [] [] = None.
Proof. repeat split. Qed.


